(** * GloToLocalizableStrings: the strings-file tool of [strings.py]

    A shallow embedding of the record model, the two line patterns, the
    line parser, the tree extractor, the merge functions, the categorizing
    writer, the incremental updater, the folder scan and the file reader of
    [strings.py], with the properties stated about them.

    Python text is modelled as [string] (a sequence of 8-bit characters);
    the matcher of the [re] patterns works on [list ascii].  A dictionary
    indexed by key is a [gmap string _].  Every dictionary of the program
    holds one record object per entry (the readers build a record per
    line), so an assignment to a field of a record reached through a
    dictionary is modelled as an update of that entry, and a function that
    mutates records of a dictionary it was given returns the dictionary as
    the caller sees it afterwards.  The program is Python 2 and the texts
    the readers return are [unicode] objects: [str] accepts one only when
    all its characters are below 128. *)

From Stdlib Require Import Ascii List Bool Arith Lia ZArith.
From stdpp Require Import base option list strings gmap sorting.

Set Warnings "-register-all".

(** ** Text helpers *)

Abbreviation chars := String.list_ascii_of_string.
Abbreviation text := String.string_of_list_ascii.

Definition newline : ascii := "010"%char.
Definition dquote : ascii := "034"%char.
Definition backslash : ascii := "\"%char.

Definition nl : string := String newline "".

(** The pieces of text with a double quote that the patterns and the
    rendering of a record are made of. *)
Definition q : string := Eval cbv in String dquote "".
Definition q_eq_q : string := Eval cbv in (q +:+ " = " +:+ q).
Definition q_semi : string := Eval cbv in (q +:+ ";").
Definition q_semi_open : string := Eval cbv in (q +:+ "; /* ").

(** [unicode.strip()]: the white space of Python 2 among the first 256
    code points. *)
Definition is_space (c : ascii) : bool :=
  let n := nat_of_ascii c in
  ((9 <=? n) && (n <=? 13)) || ((28 <=? n) && (n <=? 32))
  || (n =? 133) || (n =? 160).

Fixpoint lstrip (l : list ascii) : list ascii :=
  match l with
  | c :: l' => if is_space c then lstrip l' else l
  | [] => []
  end.

Definition rstrip (l : list ascii) : list ascii := rev (lstrip (rev l)).

Definition strip (s : string) : string := text (rstrip (lstrip (chars s))).

(** [s.find(c)] for a one-character needle: the index of the first
    occurrence, or -1. *)
Fixpoint find_from (c : ascii) (l : list ascii) (i : Z) : Z :=
  match l with
  | [] => (-1)%Z
  | x :: l' => if Ascii.eqb x c then i else find_from c l' (i + 1)%Z
  end.

Definition find (s : string) (c : ascii) : Z := find_from c (chars s) 0%Z.

(** [s.find(sub)], general needle. *)
Fixpoint is_prefix (p l : list ascii) : bool :=
  match p, l with
  | [], _ => true
  | a :: p', b :: l' => Ascii.eqb a b && is_prefix p' l'
  | _ :: _, [] => false
  end.

Fixpoint find_sub_from (p l : list ascii) (i : Z) : Z :=
  if is_prefix p l then i
  else match l with
       | [] => (-1)%Z
       | _ :: l' => find_sub_from p l' (i + 1)%Z
       end.

Definition find_sub (s sub : string) : Z :=
  find_sub_from (chars sub) (chars s) 0%Z.

(** ** The fragment of [re] the two patterns use

    Backtracking matching in continuation style: a greedy repetition tries
    the longest repetition first and gives characters back one at a time;
    an optional item is tried before it is skipped.  Captures are kept in
    an association list, the latest binding first. *)

Inductive charclass := AnyChar | WordChar.

Definition in_class (cl : charclass) (c : ascii) : bool :=
  match cl with
  | AnyChar => negb (Ascii.eqb c newline)
  | WordChar =>
      let n := nat_of_ascii c in
      ((48 <=? n) && (n <=? 57)) || ((65 <=? n) && (n <=? 90))
      || ((97 <=? n) && (n <=? 122)) || (n =? 95)
  end.

Inductive regex :=
| Bol                                   (* ^ *)
| Eol                                   (* $ *)
| Lit (s : string)                      (* literal text *)
| Star (cl : charclass)                 (* cl* , greedy *)
| Plus (cl : charclass)                 (* cl+ , greedy *)
| Opt (r : regex)                       (* r? , greedy *)
| Group (name : string) (r : regex)     (* (?P<name>r) *)
| Cat (r1 r2 : regex).

Declare Scope regex_scope.
Delimit Scope regex_scope with re.
Bind Scope regex_scope with regex.
Infix "-:-" := Cat (at level 60, right associativity) : regex_scope.

Definition captures := list (string * list ascii).
Definition cont := nat -> list ascii -> captures -> option captures.

Fixpoint strip_prefix (p l : list ascii) : option (list ascii) :=
  match p, l with
  | [], _ => Some l
  | a :: p', b :: l' => if Ascii.eqb a b then strip_prefix p' l' else None
  | _ :: _, [] => None
  end.

(** [$] without MULTILINE: at the end, or before a final newline. *)
Definition at_eol (l : list ascii) : bool :=
  match l with
  | [] => true
  | [c] => Ascii.eqb c newline
  | _ => false
  end.

Fixpoint star (cl : charclass) (k : cont) (pos : nat) (l : list ascii)
    (cs : captures) : option captures :=
  match l with
  | c :: l' =>
      if in_class cl c then
        match star cl k (S pos) l' cs with
        | Some r => Some r
        | None => k pos l cs
        end
      else k pos l cs
  | [] => k pos l cs
  end.

Fixpoint rmatch (r : regex) (k : cont) (pos : nat) (l : list ascii)
    (cs : captures) : option captures :=
  match r with
  | Bol => if pos =? 0 then k pos l cs else None
  | Eol => if at_eol l then k pos l cs else None
  | Lit s =>
      match strip_prefix (chars s) l with
      | Some l' => k (pos + String.length s) l' cs
      | None => None
      end
  | Star cl => star cl k pos l cs
  | Plus cl =>
      match l with
      | c :: l' => if in_class cl c then star cl k (S pos) l' cs else None
      | [] => None
      end
  | Opt r' =>
      match rmatch r' k pos l cs with
      | Some res => Some res
      | None => k pos l cs
      end
  | Group name r' =>
      rmatch r' (fun pos' l' cs' =>
                   k pos' l' ((name, firstn (pos' - pos) l) :: cs')) pos l cs
  | Cat r1 r2 => rmatch r1 (rmatch r2 k) pos l cs
  end.

(** The end of the pattern: the match is found, whatever text is left. *)
Definition accept : cont := fun _ _ cs => Some cs.

(** [pattern.match(line)]: anchored at the start of [line]. *)
Definition re_match (r : regex) (line : string) : option captures :=
  rmatch r accept 0 (chars line) [].

(** [result.group(name)]: [None] when the group took no part. *)
Fixpoint group (name : string) (cs : captures) : option string :=
  match cs with
  | [] => None
  | (n, v) :: cs' => if String.eqb n name then Some (text v) else group name cs'
  end.

(** ** Record model: class [LocalizedString] *)

Record LocalizedString := mkLocalizedString {
  key : string;
  value : option string;
  comment : option string
}.

Definition set_comment (r : LocalizedString) (c : option string) :=
  mkLocalizedString (key r) (value r) c.

(** [COMMENT_EXPR]: [^\w*/\* (?P<comment>.+) \*/\w*$] *)
Definition COMMENT_EXPR : regex :=
  (Bol -:- Star WordChar -:- Lit "/* " -:- Group "comment" (Plus AnyChar) -:-
   Lit " */" -:- Star WordChar -:- Eol)%re.

(** [LOCALIZED_STRING_EXPR]:
    [^"(?P<key>.+)" ?= ?"(?P<value>.+)";(?: /\* (?P<comment>.+) \*/)?$] *)
Definition LOCALIZED_STRING_EXPR : regex :=
  (Bol -:- Lit q -:- Group "key" (Plus AnyChar) -:- Lit q -:-
   Opt (Lit " ") -:- Lit "=" -:- Opt (Lit " ") -:-
   Lit q -:- Group "value" (Plus AnyChar) -:- Lit q_semi -:-
   Opt (Lit " /* " -:- Group "comment" (Plus AnyChar) -:- Lit " */") -:-
   Eol)%re.

Definition parse_comment (line : string) : option string :=
  match re_match COMMENT_EXPR line with
  | Some cs => group "comment" cs
  | None => None
  end.

Definition from_line (line : string) : option LocalizedString :=
  match re_match LOCALIZED_STRING_EXPR line with
  | Some cs =>
      match group "key" cs with
      | Some k => Some (mkLocalizedString k (group "value" cs) (group "comment" cs))
      | None => None
      end
  | None => None
  end.

(** [is_raw]: [self.value == self.key]; a value of [None] equals no key. *)
Definition is_raw (r : LocalizedString) : bool :=
  match value r with
  | Some v => String.eqb v (key r)
  | None => false
  end.

(** [x or ''] *)
Definition or_empty (x : option string) : string :=
  match x with
  | Some s => s
  | None => ""
  end.

(** Python truth of an optional text: neither [None] nor empty. *)
Definition truthy (x : option string) : bool :=
  match x with
  | Some s => negb (String.eqb s "")
  | None => false
  end.

(** [__str__] *)
Definition str (r : LocalizedString) : string :=
  if truthy (comment r) then
    q +:+ key r +:+ q_eq_q +:+ or_empty (value r) +:+ q_semi_open
      +:+ or_empty (comment r) +:+ " */"
  else
    q +:+ key r +:+ q_eq_q +:+ or_empty (value r) +:+ q_semi.

(** ** Line parser: [strings_from_encoded_file]

    [content] is the decoded file as the file iterator yields it, line by
    line.  The loop carries the pending comment and the dictionary. *)

Definition sentinel : string := "No comment provided by engineer.".

Definition parse_step (st : option string * gmap string LocalizedString)
    (line : string) : option string * gmap string LocalizedString :=
  let '(pending, localized_strings) := st in
  let line := strip line in
  if String.eqb line "" then (None, localized_strings)
  else
    let current_comment := parse_comment line in
    if truthy current_comment then
      if negb (String.eqb (or_empty current_comment) sentinel)
      then (current_comment, localized_strings)
      else (pending, localized_strings)
    else
      match from_line line with
      | Some localized_string =>
          let localized_string :=
            if negb (truthy (comment localized_string))
            then set_comment localized_string pending
            else localized_string in
          (pending, <[key localized_string := localized_string]> localized_strings)
      | None => (pending, localized_strings)
      end.

Definition strings_from_encoded_file (content : list string)
    : gmap string LocalizedString :=
  snd (foldl parse_step (None, ∅) content).

(** ** Tree extractor: [recur_node]

    An element of an [ElementTree] document: tag, text ([None] when the
    element has none) and children in document order. *)

Inductive Element := mkElement {
  tag : string;
  etext : option string;
  getchildren : list Element
}.

(** The scan of the children of a [TranslationSet]: the last [base] child
    and the last [tran] child give the two texts. *)
Definition scan_item (bt : option string * option string) (item : Element)
    : option string * option string :=
  let '(base, tran) := bt in
  let base := if String.eqb (tag item) "base" then etext item else base in
  let tran := if String.eqb (tag item) "tran" then etext item else tran in
  (base, tran).

Definition no_char (x : option string) (c : ascii) : bool :=
  match x with
  | Some s => (find s c =? -1)%Z
  | None => false
  end.

Definition accepts (base tran : option string) : bool :=
  bool_decide (base ≠ Some "") && bool_decide (tran ≠ Some "")
  && bool_decide (base ≠ None) && bool_decide (tran ≠ None)
  && no_char base dquote && no_char base newline
  && no_char tran dquote && no_char tran newline.

Fixpoint recur_element (node : Element)
    (localized_strings : list LocalizedString) : list LocalizedString :=
  if String.eqb (tag node) "TranslationSet" then
    let '(base, tran) := foldl scan_item (Some "", Some "") (getchildren node) in
    if accepts base tran
    then localized_strings ++ [mkLocalizedString (or_empty base) tran None]
    else localized_strings
  else
    (fix each (items : list Element) (acc : list LocalizedString) :=
       match items with
       | [] => acc
       | item :: rest => each rest (recur_element item acc)
       end) (getchildren node) localized_strings.

(** [node] is [None] for Python's [None]. *)
Definition recur_node (node : option Element)
    (localized_strings : list LocalizedString) : list LocalizedString :=
  match node with
  | Some n => recur_element n localized_strings
  | None => localized_strings
  end.

(** ** Reading a translation export: exceptions and the log

    A computation takes the log and gives an outcome and the log. *)

(** [UnicodeError] stands for the class with its subclasses
    [UnicodeDecodeError] and [UnicodeEncodeError], as [except UnicodeError]
    takes them. *)
Inductive exn :=
| UnicodeError
| ParseError
| UnboundLocalError (name : string).

Inductive outcome (A : Type) :=
| Returned (a : A)
| Raised (e : exn).
Arguments Returned {A} a.
Arguments Raised {A} e.

Definition M (A : Type) : Type := list string -> outcome A * list string.

Definition ret {A} (a : A) : M A := fun log => (Returned a, log).
Definition raise {A} (e : exn) : M A := fun log => (Raised e, log).
Definition bind {A B} (c : M A) (f : A -> M B) : M B :=
  fun log =>
    match c log with
    | (Returned a, log') => f a log'
    | (Raised e, log') => (Raised e, log')
    end.
Definition logging_debug (msg : string) : M unit :=
  fun log => (Returned tt, log ++ [msg]).
Definition logging_error (msg : string) : M unit :=
  fun log => (Returned tt, log ++ [msg]).
(** [try: c  except: h] with a bare [except]. *)
Definition try_except {A} (c : M A) (h : M A) : M A :=
  fun log =>
    match c log with
    | (Returned a, log') => (Returned a, log')
    | (Raised _, log') => h log'
    end.
(** Reading a local variable: unbound raises [UnboundLocalError]. *)
Definition read_local {A} (name : string) (binding : option A) : M A :=
  match binding with
  | Some a => ret a
  | None => raise (UnboundLocalError name)
  end.

Notation "x <- c ;;; k" := (bind c (fun x => k))
  (at level 100, c at next level, right associativity).

(** [parse] stands for [ElementTree.parse(file_path).getroot()]: the root,
    or the exception the library raises on a document it cannot parse. *)
Definition strings_from_encoded_lg_file (parse : M Element)
    : M (list LocalizedString) :=
  let localized_strings := [] in
  root <- try_except
            (root <- parse ;;; ret (Some root))
            (_ <- logging_debug "Error parsing %s" ;;; ret None) ;;;
  root <- read_local "root" root ;;;
  ret (recur_node (Some root) localized_strings).

Definition ENCODINGS : list string := ["utf16"; "utf8"].

(** [strings_from_lg_file]: only [UnicodeError] is caught between two
    encodings. *)
Fixpoint try_encodings (parse : M Element) (encodings : list string)
    : M (list LocalizedString) :=
  match encodings with
  | [] =>
      _ <- logging_error "Cannot determine encoding for file %s among %s" ;;;
      ret []
  | _ :: rest =>
      fun log =>
        match strings_from_encoded_lg_file parse log with
        | (Raised UnicodeError, log') => try_encodings parse rest log'
        | res => res
        end
  end.

Definition strings_from_lg_file (parse : M Element) : M (list LocalizedString) :=
  try_encodings parse ENCODINGS.

(** ** Merge engine *)

Definition match_step
    (st : gmap string LocalizedString * gmap string LocalizedString)
    (item : string * LocalizedString)
    : gmap string LocalizedString * gmap string LocalizedString :=
  let '(final_strings, reference_strings) := st in
  let '(k, v) := item in
  match reference_strings !! k with
  | Some reference_value =>
      if is_raw reference_value then
        (<[k := v]> final_strings, reference_strings)
      else
        let reference_value := set_comment reference_value (comment v) in
        (<[k := reference_value]> final_strings,
         <[k := reference_value]> reference_strings)
  | None => (<[k := v]> final_strings, reference_strings)
  end.

(** Gives [final_strings] and [reference_strings] as the call leaves it. *)
Definition match_strings (scanned_strings reference_strings : gmap string LocalizedString)
    : gmap string LocalizedString * gmap string LocalizedString :=
  foldl match_step (∅, reference_strings) (map_to_list scanned_strings).

Definition merge_step (reference_dict_keys : gset string)
    (final_dict : gmap string LocalizedString)
    (item : string * LocalizedString) : gmap string LocalizedString :=
  let '(k, v) := item in
  if decide (k ∈ reference_dict_keys) then final_dict
  else <[k := v]> final_dict.

Definition merge_dictionaries (reference_dict import_dict : gmap string LocalizedString)
    : gmap string LocalizedString :=
  let final_dict := reference_dict in
  let reference_dict_keys := dom reference_dict in
  foldl (merge_step reference_dict_keys) final_dict (map_to_list import_dict).

(** ** Sorted traversal *)

Definition sorted_keys (strings : gmap string LocalizedString) : list string :=
  merge_sort String.le (map_to_list strings).*1.

Definition sorted_strings_from_dict (strings : gmap string LocalizedString)
    : list LocalizedString :=
  omap (fun k => strings !! k) (sorted_keys strings).

(** ** Categorizing writer: [strings_to_file]

    The first component of the result is [localized_strings] as the
    caller sees it afterwards; the second is the list of the texts written,
    in order, or the exception that ended the call.  The only call that
    raises is [str(comment)] in the first loop, before anything is cleared
    or written. *)

Record buckets := mkBuckets {
  trans_keys : gset string;
  not_keys : gset string;
  extra_keys : gset string
}.

(** A character the ASCII codec encodes. *)
Definition is_ascii (c : ascii) : bool := (N_of_ascii c <? 128)%N.

(** [str(comment)].  The comments are [unicode] objects, as the readers
    return them, or [None]; [str] encodes a [unicode] object with the ASCII
    codec and raises [UnicodeEncodeError], a [UnicodeError], at a character
    above 127. *)
Definition py_str (x : option string) : outcome string :=
  match x with
  | Some s => if forallb is_ascii (chars s) then Returned s else Raised UnicodeError
  | None => Returned "None"
  end.

Definition escape_keys_of (escape_strings : gmap string LocalizedString)
    : gset string :=
  foldl (fun escape_keys escape_string => {[key escape_string]} ∪ escape_keys)
        ∅ (sorted_strings_from_dict escape_strings).

(** One turn of the first loop. *)
Definition bucket_step (escape_keys : gset string) (b : buckets)
    (localized_string : LocalizedString) : outcome buckets :=
  let k := key localized_string in
  match py_str (comment localized_string) with
  | Raised e => Raised e
  | Returned comment_str =>
      Returned
        (if is_raw localized_string then
           if decide (k ∈ escape_keys) then
             if (0 <=? find_sub comment_str "extra")%Z
             then mkBuckets (trans_keys b) (not_keys b) ({[k]} ∪ extra_keys b)
             else mkBuckets ({[k]} ∪ trans_keys b) (not_keys b) (extra_keys b)
           else mkBuckets (trans_keys b) ({[k]} ∪ not_keys b) (extra_keys b)
         else
           if (0 <=? find_sub comment_str "extra")%Z
           then mkBuckets (trans_keys b) (not_keys b) ({[k]} ∪ extra_keys b)
           else mkBuckets ({[k]} ∪ trans_keys b) (not_keys b) (extra_keys b))
  end.

(** A [for] loop whose body may raise: the state in which the loop is
    left, and the exception that ended it, if one did. *)
Fixpoint for_loop {S A} (body : S → A → outcome S) (s : S) (l : list A)
    : S * option exn :=
  match l with
  | [] => (s, None)
  | x :: l' =>
      match body s x with
      | Returned s' => for_loop body s' l'
      | Raised e => (s, Some e)
      end
  end.

Definition bucket_all (escape_keys : gset string)
    (localized_strings : gmap string LocalizedString) : buckets * option exn :=
  for_loop (bucket_step escape_keys) (mkBuckets ∅ ∅ ∅)
           (sorted_strings_from_dict localized_strings).

(** One turn of a loop that clears the comment before it writes. *)
Definition write_cleared (keys : gset string)
    (st : gmap string LocalizedString * list string) (k : string)
    : gmap string LocalizedString * list string :=
  let '(strings, output) := st in
  match strings !! k with
  | Some localized_string =>
      if decide (key localized_string ∈ keys) then
        let localized_string := set_comment localized_string None in
        (<[k := localized_string]> strings,
         output ++ [str localized_string +:+ nl +:+ nl])
      else st
  | None => st
  end.

(** One turn of the loop of the Extra section. *)
Definition write_kept (keys : gset string)
    (st : gmap string LocalizedString * list string) (k : string)
    : gmap string LocalizedString * list string :=
  let '(strings, output) := st in
  match strings !! k with
  | Some localized_string =>
      if decide (key localized_string ∈ keys) then
        (strings, output ++ [str localized_string +:+ nl +:+ nl])
      else st
  | None => st
  end.

Definition header (title : string) : list string := [nl; title; nl; nl; nl].

Definition translated_section (b : buckets)
    (strings : gmap string LocalizedString)
    : gmap string LocalizedString * list string :=
  foldl (write_cleared (trans_keys b)) (strings, []) (sorted_keys strings).

Definition extra_section (b : buckets)
    (strings : gmap string LocalizedString)
    : gmap string LocalizedString * list string :=
  if decide (size (extra_keys b) ≠ 0) then
    foldl (write_kept (extra_keys b)) (strings, header "/*Extra*/")
          (sorted_keys strings)
  else (strings, []).

Definition not_translated_section (b : buckets)
    (strings : gmap string LocalizedString)
    : gmap string LocalizedString * list string :=
  if decide (size (not_keys b) ≠ 0) then
    foldl (write_cleared (not_keys b)) (strings, header "/*Not Translated*/")
          (sorted_keys strings)
  else (strings, []).

Definition strings_to_file (localized_strings escape_strings : gmap string LocalizedString)
    : gmap string LocalizedString * outcome (list string) :=
  let escape_keys := escape_keys_of escape_strings in
  match bucket_all escape_keys localized_strings with
  | (_, Some e) => (localized_strings, Raised e)
  | (b, None) =>
      let '(strings1, out1) := translated_section b localized_strings in
      let '(strings2, out2) := extra_section b strings1 in
      let '(strings3, out3) := not_translated_section b strings2 in
      (strings3, Returned (out1 ++ out2 ++ out3))
  end.

(** ** Incremental updater: [update_encoded_file_with_strings]

    [content] holds the lines of the file as the file iterator yields
    them, each with its line end; the last line of a file may lack one. *)

(** [line[:-1]] *)
Definition drop_last (line : string) : string :=
  text (removelast (chars line)).

Definition update_step (localized_strings : gmap string LocalizedString)
    (st : gset string * list string) (line : string)
    : gset string * list string :=
  let '(keys, output_strings) := st in
  match from_line (strip line) with
  | Some current_string =>
      let k := key current_string in
      match localized_strings !! k with
      | Some localized_string =>
          ({[k]} ∪ keys, output_strings ++ [str localized_string])
      | None => (keys, output_strings)
      end
  | None => (keys, output_strings ++ [drop_last line])
  end.

Definition new_strings_of (localized_strings : gmap string LocalizedString)
    (keys : gset string) : list string :=
  omap (fun item : string * LocalizedString =>
          if decide (key item.2 ∈ keys) then None else Some (str item.2))
       (map_to_list localized_strings).

(** [output_strings] as it stands before the file is written. *)
Definition update_lines (content : list string)
    (localized_strings : gmap string LocalizedString) : list string :=
  let '(keys, output_strings) := foldl (update_step localized_strings) (∅, []) content in
  let new_strings := new_strings_of localized_strings keys in
  if decide (length new_strings ≠ 0) then
    output_strings ++ [""; "/* New strings */"] ++ merge_sort String.le new_strings
  else output_strings.

(** ['\n'.join(lines)] *)
Fixpoint join_lines (lines : list string) : string :=
  match lines with
  | [] => ""
  | [l] => l
  | l :: rest => l +:+ nl +:+ join_lines rest
  end.

(** The text written back to the file. *)
Definition update_encoded_file_with_strings (content : list string)
    (localized_strings : gmap string LocalizedString) : string :=
  join_lines (update_lines content localized_strings) +:+ nl.

(** ** Scanning a folder: [strings_from_folder]

    [os.walk] is given as the list of the triples it yields: a directory,
    the names of its sub-directories and the names of its files.  [parse]
    stands for [ElementTree.parse(path).getroot()] at each path. *)

(** [l.rpartition(c)[2]] when [c] occurs in [l]. *)
Fixpoint after_last (c : ascii) (l : list ascii) : option (list ascii) :=
  match l with
  | [] => None
  | x :: l' =>
      match after_last c l' with
      | Some t => Some t
      | None => if Ascii.eqb x c then Some l' else None
      end
  end.

(** [file_name.rpartition('.')[2]]: the whole name when it has no dot. *)
Definition extension_of (file_name : string) : string :=
  text (from_option id (chars file_name) (after_last "."%char (chars file_name))).

Definition starts_with_slash (s : string) : bool :=
  match chars s with
  | c :: _ => Ascii.eqb c "/"%char
  | [] => false
  end.

Definition ends_with_slash (s : string) : bool :=
  match rev (chars s) with
  | c :: _ => Ascii.eqb c "/"%char
  | [] => false
  end.

(** [os.path.join(a, b)] of [posixpath]. *)
Definition path_join (a b : string) : string :=
  if starts_with_slash b then b
  else if String.eqb a "" || ends_with_slash a then a +:+ b
  else a +:+ "/" +:+ b.

(** The loop [localized_strings[localized_string.key] = localized_string]. *)
Definition index_strings (localized_strings : gmap string LocalizedString)
    (l : list LocalizedString) : gmap string LocalizedString :=
  foldl (fun d localized_string => <[key localized_string := localized_string]> d)
        localized_strings l.

(** A loop whose body may raise. *)
Fixpoint for_each {A B} (body : A → B → M A) (a : A) (l : list B) : M A :=
  match l with
  | [] => ret a
  | x :: l' => a' <- body a x ;;; for_each body a' l'
  end.

Definition scan_file (parse : string → M Element) (extensions : list string)
    (dir_path : string) (localized_strings : gmap string LocalizedString)
    (file_name : string) : M (gmap string LocalizedString) :=
  let extension := extension_of file_name in
  if bool_decide (extension ∈ extensions) then
    let code_file_path := path_join dir_path file_name in
    _ <- logging_debug "Found %s" ;;;
    localized_strings_from_lg_file <- strings_from_lg_file (parse code_file_path) ;;;
    ret (index_strings localized_strings localized_strings_from_lg_file)
  else ret localized_strings.

Definition scan_directory (parse : string → M Element) (extensions : list string)
    (localized_strings : gmap string LocalizedString)
    (entry : string * list string * list string)
    : M (gmap string LocalizedString) :=
  let '(dir_path, dir_names, file_names) := entry in
  for_each (scan_file parse extensions dir_path) localized_strings file_names.

Definition strings_from_folder (walk : list (string * list string * list string))
    (extensions : option (list string)) (parse : string → M Element)
    : M (gmap string LocalizedString) :=
  let localized_strings := ∅ in
  let extensions := from_option id ["lg"] extensions in
  _ <- logging_debug "Scanning for language files in %s" ;;;
  for_each (scan_directory parse extensions) localized_strings walk.

(** ** Reading a strings file with the encodings in turn: [strings_from_file]

    [read encoding] stands for the lines [codecs.open] gives when the file
    is read with [encoding], or the exception it raises. *)

Fixpoint try_file_encodings (read : string → M (list string))
    (encodings : list string) : M (gmap string LocalizedString) :=
  match encodings with
  | [] =>
      _ <- logging_error "Cannot determine encoding for file %s among %s" ;;;
      ret ∅
  | current_encoding :: rest =>
      fun log =>
        match (content <- read current_encoding ;;;
               ret (strings_from_encoded_file content)) log with
        | (Raised UnicodeError, log') => try_file_encodings read rest log'
        | res => res
        end
  end.

Definition strings_from_file (read : string → M (list string))
    : M (gmap string LocalizedString) :=
  try_file_encodings read ENCODINGS.

(** * Vocabulary of the properties *)

(** What [match_strings] leaves at a key of [scanned_strings]. *)
Definition matched (reference_value : option LocalizedString)
    (scanned_value : LocalizedString) : LocalizedString :=
  match reference_value with
  | Some r => if is_raw r then scanned_value
              else mkLocalizedString (key r) (value r) (comment scanned_value)
  | None => scanned_value
  end.

(** The text of the last child of [children] tagged [name]: [None] when no
    child has the tag, [Some None] when that child has no text. *)
Definition child_text (name : string) (children : list Element)
    : option (option string) :=
  last (etext <$> filter (fun item => tag item = name) children).

(** A text the extractor accepts as key or value. *)
Definition clean (s : string) : Prop :=
  s ≠ "" ∧ (dquote ∉ chars s) ∧ (newline ∉ chars s).

Definition sample_pair : Element :=
  mkElement "TranslationSet" None
    [mkElement "base" (Some "Hello") [];
     mkElement "tran" (Some "Bonjour") []].

(** A comment [str] renders and [from_line] reads back: absent, or not
    empty and free of double quotes and newlines. *)
Definition plain_comment (c : option string) : Prop :=
  match c with
  | Some s => s ≠ "" ∧ (dquote ∉ chars s) ∧ (newline ∉ chars s)
  | None => True
  end.

(** The pattern of a record line, from the right. *)
Definition RE_tail : regex :=
  (Opt (Lit " /* " -:- Group "comment" (Plus AnyChar) -:- Lit " */") -:- Eol)%re.
Definition RE_value : regex :=
  (Group "value" (Plus AnyChar) -:- Lit q_semi -:- RE_tail)%re.
Definition RE_sep : regex :=
  (Lit q -:- Opt (Lit " ") -:- Lit "=" -:- Opt (Lit " ") -:- Lit q -:- RE_value)%re.

(** The text after the semicolon and the captures it leaves. *)
Definition tail_chars (c : option string) : list ascii :=
  match c with
  | Some s => chars " /* " ++ chars s ++ chars " */"
  | None => []
  end.
Definition tail_caps (c : option string) : captures :=
  match c with
  | Some s => [("comment", chars s)]
  | None => []
  end.

Definition escaped (l : list ascii) : Prop :=
  ∀ pre post, l = pre ++ dquote :: post → ∃ pre', pre = pre' ++ [backslash].

(** Every double quote of [s] stands right after a backslash. *)
Definition quotes_escaped (s : string) : Prop := escaped (chars s).

(** A run of the scanner that decides [escaped]: [after_backslash] tells
    whether the character before [l] is a backslash. *)
Fixpoint escapedb (after_backslash : bool) (l : list ascii) : bool :=
  match l with
  | [] => true
  | c :: l' =>
      (if Ascii.eqb c dquote then after_backslash else true)
      && escapedb (Ascii.eqb c backslash) l'
  end.

Definition sample_record : LocalizedString :=
  mkLocalizedString ("a " +:+ q +:+ "b" +:+ q)
    (Some ("say \" +:+ q +:+ "hi\" +:+ q)) (Some "COMMENT").

Definition empty_value_record : LocalizedString :=
  mkLocalizedString "K" (Some "") None.
Definition quoted_comment_record : LocalizedString :=
  mkLocalizedString "k" (Some "v")
    (Some ("say " +:+ q +:+ "hi" +:+ q +:+ "; /* now")).

Definition sentinel_line : string := "/* No comment provided by engineer. */".
Definition inline_sentinel_line : string :=
  q +:+ "K" +:+ q_eq_q +:+ "V" +:+ q_semi
    +:+ " /* No comment provided by engineer. */".
Definition plain_line : string := q +:+ "K" +:+ q_eq_q +:+ "V" +:+ q_semi.

(** A dictionary indexed by key: every record sits at its own key. *)
Definition indexed_by_key (strings : gmap string LocalizedString) : Prop :=
  ∀ k r, strings !! k = Some r → key r = k.

Inductive section_name := Translated | Extra | NotTranslated.

#[global] Instance section_name_eq_dec : EqDecision section_name.
Proof. solve_decision. Defined.

(** The comment holds the text [extra]. *)
Definition has_extra (c : option string) : Prop :=
  ∃ s pre post, c = Some s ∧ chars s = pre ++ chars "extra" ++ post.

(** The text [str(comment)] gives when it does not raise. *)
Definition comment_text (c : option string) : string :=
  match c with
  | Some s => s
  | None => "None"
  end.

(** A comment [str] accepts: absent, or of characters below 128 only. *)
Definition ascii_comment (c : option string) : Prop :=
  ∀ s, c = Some s → ∀ x, x ∈ chars s → (N_of_ascii x < 128)%N.

(** The same as a test. *)
Definition ascii_commentb (r : LocalizedString) : bool :=
  match comment r with
  | Some s => forallb is_ascii (chars s)
  | None => true
  end.

(** A dictionary whose comments [str] accepts. *)
Definition ascii_comments (strings : gmap string LocalizedString) : Prop :=
  ∀ k r, strings !! k = Some r → ascii_comment (comment r).

(** The section the first loop of [strings_to_file] chooses for a record
    whose comment [str] accepts. *)
Definition section_of (escape_keys : gset string) (r : LocalizedString)
    : section_name :=
  if is_raw r then
    if decide (key r ∈ escape_keys) then
      if (0 <=? find_sub (comment_text (comment r)) "extra")%Z then Extra else Translated
    else NotTranslated
  else
    if (0 <=? find_sub (comment_text (comment r)) "extra")%Z then Extra else Translated.

(** A key put in a section. *)
Definition put (s : section_name) (k : string) (b : buckets) : buckets :=
  match s with
  | Translated => mkBuckets ({[k]} ∪ trans_keys b) (not_keys b) (extra_keys b)
  | Extra => mkBuckets (trans_keys b) (not_keys b) ({[k]} ∪ extra_keys b)
  | NotTranslated => mkBuckets (trans_keys b) ({[k]} ∪ not_keys b) (extra_keys b)
  end.

(** The records the first loop goes through before [str] raises. *)
Fixpoint ascii_prefix (l : list LocalizedString) : list LocalizedString :=
  match l with
  | [] => []
  | r :: l' => if ascii_commentb r then r :: ascii_prefix l' else []
  end.

(** A key of a record of the escape dictionary. *)
Definition escape_key (E : gmap string LocalizedString) (k : string) : Prop :=
  ∃ k' e, E !! k' = Some e ∧ key e = k.

(** A record the writer puts in the Extra section: its comment holds
    [extra], and it is translated or its key is an escape key. *)
Definition in_extra (E : gmap string LocalizedString) (r : LocalizedString) : Prop :=
  has_extra (comment r) ∧ (value r ≠ Some (key r) ∨ escape_key E (key r)).

Definition keys_of (s : section_name) (b : buckets) : gset string :=
  match s with
  | Translated => trans_keys b
  | Extra => extra_keys b
  | NotTranslated => not_keys b
  end.

Definition clear_if (keys : gset string) (r : LocalizedString) : LocalizedString :=
  if decide (key r ∈ keys) then set_comment r None else r.

Definition written (r : LocalizedString) : string := str r +:+ nl +:+ nl.

Definition cleared_text (keys : gset string)
    (d : gmap string LocalizedString) (k : string) : option string :=
  r ← d !! k;
  if decide (key r ∈ keys) then Some (written (set_comment r None)) else None.

Definition kept_text (keys : gset string)
    (d : gmap string LocalizedString) (k : string) : option string :=
  r ← d !! k;
  if decide (key r ∈ keys) then Some (written r) else None.

(** The three sets as the first loop leaves them, and the exception that
    ended it, if one did. *)
Definition buckets_of (d E : gmap string LocalizedString) : buckets :=
  (bucket_all (escape_keys_of E) d).1.
Definition first_loop_exn (d E : gmap string LocalizedString) : option exn :=
  (bucket_all (escape_keys_of E) d).2.

(** What the three writing loops write after a first loop that has not
    raised. *)
Definition translated_lines (d E : gmap string LocalizedString) : list string :=
  (translated_section (buckets_of d E) d).2.
Definition extra_lines (d E : gmap string LocalizedString) : list string :=
  (extra_section (buckets_of d E) (translated_section (buckets_of d E) d).1).2.
Definition not_translated_lines (d E : gmap string LocalizedString) : list string :=
  (not_translated_section (buckets_of d E)
     (extra_section (buckets_of d E) (translated_section (buckets_of d E) d).1).1).2.

(** The three parts of the output of [strings_to_file]: nothing is written
    when the first loop raises. *)
Definition translated_output (d E : gmap string LocalizedString) : list string :=
  match first_loop_exn d E with
  | Some _ => []
  | None => translated_lines d E
  end.
Definition extra_output (d E : gmap string LocalizedString) : list string :=
  match first_loop_exn d E with
  | Some _ => []
  | None => extra_lines d E
  end.
Definition not_translated_output (d E : gmap string LocalizedString) : list string :=
  match first_loop_exn d E with
  | Some _ => []
  | None => not_translated_lines d E
  end.

Definition extra_translated : gmap string LocalizedString :=
  {[ "K" := mkLocalizedString "K" (Some "Bonjour") (Some "extra note") ]}.
Definition extra_untranslated : gmap string LocalizedString :=
  {[ "K" := mkLocalizedString "K" (Some "K") (Some "extra note") ]}.

(** What one line of the file becomes in [output_strings]. *)
Definition rewritten (localized_strings : gmap string LocalizedString)
    (line : string) : list string :=
  match from_line (strip line) with
  | Some current_string =>
      match localized_strings !! key current_string with
      | Some localized_string => [str localized_string]
      | None => []
      end
  | None => [drop_last line]
  end.

(** The key of a record line of [content] that [localized_strings] holds. *)
Definition consumed (localized_strings : gmap string LocalizedString)
    (content : list string) (k : string) : Prop :=
  ∃ line current_string,
    line ∈ content ∧ from_line (strip line) = Some current_string ∧
    key current_string = k ∧ is_Some (localized_strings !! k).

(** The list [new_strings] after [new_strings.sort()]. *)
Definition sorted_new_strings (d : gmap string LocalizedString)
    (content : list string) : list string :=
  merge_sort String.le
    (new_strings_of d (foldl (update_step d) (∅, []) content).1).

(** ** Vocabulary of the further properties *)

(** A text of word characters only, as [\w*] matches it. *)
Definition word (s : string) : Prop :=
  Forall (fun c => in_class WordChar c = true) (chars s).

(** What [$] leaves unread: nothing, or one final newline. *)
Definition line_end (l : list ascii) : Prop := l = [] ∨ l = [newline].

(** The separators [ ?= ?] matches. *)
Definition separator (l : list ascii) : Prop :=
  l = chars "=" ∨ l = chars " =" ∨ l = chars "= " ∨ l = chars " = ".

(** The state of the parsing loop after [content]. *)
Definition parse_state (content : list string)
    : option string * gmap string LocalizedString :=
  foldl parse_step (None, ∅) content.

(** [line] is the last record line of [content] with the key [k], and
    [r0] the record [from_line] reads from it. *)
Definition own_line (content : list string) (k : string) (line : string)
    (r0 : LocalizedString) : Prop :=
  ∃ pre post, content = pre ++ line :: post ∧
    from_line (strip line) = Some r0 ∧ key r0 = k ∧
    ∀ l r', l ∈ post → from_line (strip l) = Some r' → key r' ≠ k.

(** A text of white space only. *)
Definition blank (s : string) : Prop :=
  Forall (fun c => is_space c = true) (chars s).

(** A text that starts and ends with a character that is no white space. *)
Definition trimmed (l : list ascii) : Prop :=
  (∃ c l', l = c :: l' ∧ is_space c = false) ∧
  (∃ c l', rev l = c :: l' ∧ is_space c = false).

(** A record as the tree extractor makes it. *)
Definition extracted (r : LocalizedString) : Prop :=
  clean (key r) ∧ (∃ v, value r = Some v ∧ clean v) ∧ comment r = None.

(** Induction on an element with the hypothesis for all its children. *)
Fixpoint Element_ind_children (P : Element → Prop)
    (step : ∀ tg tx ch, Forall P ch → P (mkElement tg tx ch))
    (node : Element) : P node :=
  match node with
  | mkElement tg tx ch =>
      step tg tx ch
        ((fix all (l : list Element) : Forall P l :=
            match l with
            | [] => @List.Forall_nil _ P
            | item :: rest =>
                @List.Forall_cons _ P item rest (Element_ind_children P step item) (all rest)
            end) ch)
  end.

#[global] Instance clean_dec (s : string) : Decision (clean s).
Proof. unfold clean. apply _. Defined.

(** What a [TranslationSet] is to give: the record of the texts of its
    [base] and [tran] children when both are there, not empty and free of
    double quotes and newlines, and nothing otherwise. *)
Definition set_records (node : Element) : list LocalizedString :=
  match child_text "base" (getchildren node),
        child_text "tran" (getchildren node) with
  | Some (Some b), Some (Some t) =>
      if decide (clean b ∧ clean t) then [mkLocalizedString b (Some t) None]
      else []
  | _, _ => []
  end.

(** [node] is [root] or stands below it with no [TranslationSet] above
    it. *)
Inductive reached (root : Element) : Element → Prop :=
| reached_root : reached root root
| reached_child (n c : Element) :
    reached root n → tag n ≠ "TranslationSet" → c ∈ getchildren n →
    reached root c.

(** The [TranslationSet] nodes with no [TranslationSet] above them, in
    document order. *)
Fixpoint outer_sets (node : Element) : list Element :=
  if String.eqb (tag node) "TranslationSet" then [node]
  else
    (fix each (items : list Element) : list Element :=
       match items with
       | [] => []
       | item :: rest => outer_sets item ++ each rest
       end) (getchildren node).

(** The set that stands in another set of [nested_sets]. *)
Definition inner_set : Element :=
  mkElement "TranslationSet" None
    [mkElement "base" (Some "Inner") [];
     mkElement "tran" (Some "Dedans") []].

Definition nested_sets : Element :=
  mkElement "Language" None
    [mkElement "TranslationSet" None
       [mkElement "base" (Some "Hello") [];
        mkElement "tran" (Some "Bonjour") [];
        inner_set];
     mkElement "Group" None
       [mkElement "TranslationSet" None
          [mkElement "base" (Some "Bye") [];
           mkElement "tran" (Some "Salut") []]]].

(** A comment [str] rejects: the one character of code 233. *)
Definition accent : string := String "233"%char "".
Definition accented : gmap string LocalizedString :=
  {[ "K" := mkLocalizedString "K" (Some "V") (Some accent) ]}.

Definition three_records : gmap string LocalizedString :=
  <["b" := mkLocalizedString "b" (Some "b") None]>
    (<["c" := mkLocalizedString "c" (Some "C") (Some "an extra")]>
       {[ "a" := mkLocalizedString "a" (Some "A") (Some "note") ]}).

(** What [match_strings] leaves in [reference_strings] at a key. *)
Definition rewritten_reference (scanned_value : option LocalizedString)
    (reference_value : LocalizedString) : LocalizedString :=
  match scanned_value with
  | Some s => if is_raw reference_value then reference_value
              else set_comment reference_value (comment s)
  | None => reference_value
  end.

Definition scanned_sample : gmap string LocalizedString :=
  {[ "A" := mkLocalizedString "A" (Some "A") (Some "srccomment") ]}.
Definition reference_sample : gmap string LocalizedString :=
  <["B" := mkLocalizedString "B" (Some "Au revoir") (Some "old")]>
    {[ "A" := mkLocalizedString "A" (Some "Bonjour") None ]}.

(** The text of a file whose lines are [content]. *)
Definition file_text (content : list string) : string :=
  foldr String.append "" content.

(** A line of a file that already holds [localized_strings]: it ends with
    a newline, and it is no record line or it is the rendering of the
    record that [localized_strings] has at its key. *)
Definition up_to_date (localized_strings : gmap string LocalizedString)
    (line : string) : Prop :=
  ∃ body, line = body +:+ nl ∧
    (from_line (strip line) = None ∨
     ∃ current_string r,
       from_line (strip line) = Some current_string ∧
       localized_strings !! key current_string = Some r ∧ str r = body).

Definition settled_file : list string :=
  ["/* Greeting */" +:+ nl; plain_line +:+ nl; nl].
Definition settled_strings : gmap string LocalizedString :=
  {[ "K" := mkLocalizedString "K" (Some "V") None ]}.

(** A dictionary of records as the tree extractor makes them, each at its
    key. *)
Definition scanned_dict (d : gmap string LocalizedString) : Prop :=
  indexed_by_key d ∧ ∀ k r, d !! k = Some r → extracted r.

Definition sample_walk : list (string * list string * list string) :=
  [("res", ["sub"], ["fr.lg"; "notes.txt"]); ("res/sub", [], ["lg"])].
Definition sample_parse (path : string) : M Element :=
  if String.eqb path "res/fr.lg" then ret sample_pair else ret nested_sets.
Definition broken_parse (path : string) : M Element :=
  if String.eqb path "res/fr.lg" then ret sample_pair else raise ParseError.

(** A record as [strings_to_file] leaves it in the dictionary. *)
Definition after_write (d E : gmap string LocalizedString)
    (r : LocalizedString) : LocalizedString :=
  clear_if (not_keys (buckets_of d E)) (clear_if (trans_keys (buckets_of d E)) r).

(** The outcome is a dictionary indexed by key or an exception that is no
    [UnicodeError]. *)
Definition settled_outcome (res : outcome (gmap string LocalizedString)) : Prop :=
  match res with
  | Returned d => indexed_by_key d
  | Raised e => e ≠ UnicodeError
  end.

(** * Properties *)

(** ** Text and the matcher *)

(** Text and lists of characters *)
Lemma chars_text l : chars (text l) = l.
Proof. apply String.list_ascii_of_string_of_list_ascii. Qed.

Lemma text_chars s : text (chars s) = s.
Proof. apply String.string_of_list_ascii_of_string. Qed.

Lemma chars_app a b : chars (a +:+ b) = chars a ++ chars b.
Proof. induction a as [|c a IH]; simpl; [done|]. by rewrite <- IH. Qed.

Lemma chars_inj a b : chars a = chars b → a = b.
Proof. intros H. by rewrite <- (text_chars a), <- (text_chars b), H. Qed.

Lemma length_chars s : length (chars s) = String.length s.
Proof. induction s; simpl; congruence. Qed.

Lemma not_elem_of_chars c s :
  forallb (fun x => negb (Ascii.eqb x c)) (chars s) = true → c ∉ chars s.
Proof.
  intros H Hin. rewrite forallb_forall in H.
  apply list_elem_of_In, H in Hin. by rewrite Ascii.eqb_refl in Hin.
Qed.

(** Equations of the matcher *)
Lemma strip_prefix_app p l : strip_prefix p (p ++ l) = Some l.
Proof.
  induction p as [|a p IH]; simpl; [done|]. by rewrite Ascii.eqb_refl.
Qed.

Lemma strip_prefix_Some p l l' : strip_prefix p l = Some l' → l = p ++ l'.
Proof.
  revert l; induction p as [|a p IH]; intros [|b l]; simpl; try congruence.
  destruct (Ascii.eqb_spec a b) as [->|]; [|done].
  intros H. by rewrite (IH _ H).
Qed.

Section engine.
Context (cl : charclass) (k : cont) (cs : captures).

Lemma star_fail l pos :
  (∀ a b, l = a ++ b → k (pos + length a) b cs = None) →
  star cl k pos l cs = None.
Proof.
  revert pos; induction l as [|c l IH]; intros pos Hk; simpl.
  - specialize (Hk [] [] eq_refl). simpl in Hk. by rewrite Nat.add_0_r in Hk.
  - assert (Hhere : k pos (c :: l) cs = None).
    { specialize (Hk [] (c :: l) eq_refl). simpl in Hk.
      by rewrite Nat.add_0_r in Hk. }
    destruct (in_class cl c); [|done].
    rewrite IH; [done|]. intros a b ->.
    specialize (Hk (c :: a) b eq_refl). simpl in Hk.
    by rewrite Nat.add_succ_r in Hk.
Qed.

Lemma star_greedy a b pos res :
  Forall (fun c => in_class cl c = true) a →
  k (pos + length a) b cs = Some res →
  (∀ a' b', a ++ b = a' ++ b' → length a < length a' →
            k (pos + length a') b' cs = None) →
  star cl k pos (a ++ b) cs = Some res.
Proof.
  revert pos; induction a as [|c a IH]; intros pos Ha Hk Hlong; simpl.
  - simpl in Hk. rewrite Nat.add_0_r in Hk.
    destruct b as [|c b]; [done|]. simpl.
    destruct (in_class cl c); [|done].
    rewrite star_fail; [done|]. intros a' b' ->.
    specialize (Hlong (c :: a') b' eq_refl). simpl in Hlong.
    rewrite Nat.add_succ_r in Hlong. apply Hlong. lia.
  - apply Forall_cons in Ha as [-> Ha].
    rewrite (IH (S pos)); [done|done| |].
    + simpl in Hk. by rewrite Nat.add_succ_r in Hk.
    + intros a' b' Heq Hlen.
      specialize (Hlong (c :: a') b'). simpl in Hlong.
      rewrite Nat.add_succ_r in Hlong. apply Hlong; [by f_equal|lia].
Qed.

Lemma star_sound l pos res :
  star cl k pos l cs = Some res →
  ∃ a b, l = a ++ b ∧ k (pos + length a) b cs = Some res.
Proof.
  revert pos; induction l as [|c l IH]; intros pos; simpl.
  - intros H. exists [], []. simpl. by rewrite Nat.add_0_r.
  - assert (Hhere : k pos (c :: l) cs = Some res →
      ∃ a b, c :: l = a ++ b ∧ k (pos + length a) b cs = Some res).
    { intros H. exists [], (c :: l). simpl. by rewrite Nat.add_0_r. }
    destruct (in_class cl c); [|done].
    destruct (star cl k (S pos) l cs) as [r|] eqn:Hs; [|done].
    intros [= ->]. destruct (IH _ Hs) as (a & b & -> & Hk).
    exists (c :: a), b. simpl. by rewrite Nat.add_succ_r.
Qed.

Lemma plus_greedy a b pos res :
  a ≠ [] →
  Forall (fun c => in_class cl c = true) a →
  k (pos + length a) b cs = Some res →
  (∀ a' b', a ++ b = a' ++ b' → length a < length a' →
            k (pos + length a') b' cs = None) →
  rmatch (Plus cl) k pos (a ++ b) cs = Some res.
Proof.
  intros Hne Ha Hk Hlong. destruct a as [|c a]; [done|].
  apply Forall_cons in Ha as [Hc Ha]. simpl. rewrite Hc.
  apply star_greedy; [done| |].
  - simpl in Hk. by rewrite Nat.add_succ_r in Hk.
  - intros a' b' Heq Hlen.
    specialize (Hlong (c :: a') b'). simpl in Hlong.
    rewrite Nat.add_succ_r in Hlong. apply Hlong; [by f_equal|lia].
Qed.

Lemma plus_sound l pos res :
  rmatch (Plus cl) k pos l cs = Some res →
  ∃ a b, l = a ++ b ∧ a ≠ [] ∧ k (pos + length a) b cs = Some res.
Proof.
  simpl. destruct l as [|c l]; [done|].
  destruct (in_class cl c); [|done].
  intros (a & b & -> & Hk)%star_sound.
  exists (c :: a), b. simpl. by rewrite Nat.add_succ_r.
Qed.
End engine.

Lemma lit_sound s k pos l cs res :
  rmatch (Lit s) k pos l cs = Some res →
  ∃ l', l = chars s ++ l' ∧ k (pos + String.length s) l' cs = Some res.
Proof.
  simpl. destruct (strip_prefix (chars s) l) as [l'|] eqn:Hp; [|done].
  intros Hk. exists l'. split; [by apply strip_prefix_Some|done].
Qed.

Lemma lit_match s k pos l cs :
  rmatch (Lit s) k pos (chars s ++ l) cs = k (pos + String.length s) l cs.
Proof. simpl. by rewrite strip_prefix_app. Qed.

Lemma opt_sound r k pos l cs res :
  rmatch (Opt r) k pos l cs = Some res →
  rmatch r k pos l cs = Some res ∨ k pos l cs = Some res.
Proof. simpl. destruct (rmatch r k pos l cs); [intros [= ->]; by left|by right]. Qed.

(** ** The record model and [merge_dictionaries] *)

Lemma String_eqb_decide (a b : string) : String.eqb a b = bool_decide (a = b).
Proof.
  destruct (String.eqb_spec a b); symmetry;
    [by apply bool_decide_eq_true_2 | by apply bool_decide_eq_false_2].
Qed.

(** C9.  For every record [r], [is_raw r] (the spec's [is_untranslated])
    returns [True] if and only if the value of [r] equals its key, and
    [False] for any other value. *)
Theorem is_raw_iff (r : LocalizedString) :
  (is_raw r = true ↔ value r = Some (key r)) ∧
  (is_raw r = false ↔ value r ≠ Some (key r)).
Proof.
  unfold is_raw. destruct (value r) as [v|]; [|split; split; done].
  destruct (String.eqb_spec v (key r)) as [->|Hne]; split; split;
    try done; try congruence.
Qed.

Lemma merge_fold_lookup (K : gset string) (l : list (string * LocalizedString)) :
  ∀ (m : gmap string LocalizedString) (k : string),
    NoDup l.*1 →
    foldl (merge_step K) m l !! k =
      if decide (k ∈ K) then m !! k
      else match (list_to_map l : gmap string LocalizedString) !! k with
           | Some v => Some v
           | None => m !! k
           end.
Proof.
  induction l as [|[k0 v0] l IH]; intros m k Hnd; simpl.
  - by case_decide.
  - apply NoDup_cons in Hnd as [Hk0 Hnd]. rewrite IH by done.
    destruct (decide (k ∈ K)) as [Hk|Hk].
    + unfold merge_step. case_decide; [done|].
      rewrite lookup_insert_ne; [done|]. set_solver.
    + destruct (decide (k = k0)) as [->|Hne].
      * rewrite lookup_insert_eq.
        rewrite (not_elem_of_list_to_map_1 l k0) by done.
        unfold merge_step. rewrite decide_False by done.
        by rewrite lookup_insert_eq.
      * rewrite lookup_insert_ne by done.
        destruct (list_to_map l !! k); [done|].
        unfold merge_step. case_decide; [done|]. by rewrite lookup_insert_ne.
Qed.

(** C8.  [merge_dictionaries reference_dict import_dict] is the union of
    the two dictionaries in which the entry of [reference_dict] is chosen at
    every key both have: [import_dict] gives exactly the entries whose keys
    [reference_dict] lacks. *)
Theorem merge_dictionaries_union (reference_dict import_dict : gmap string LocalizedString) :
  merge_dictionaries reference_dict import_dict = reference_dict ∪ import_dict ∧
  dom (merge_dictionaries reference_dict import_dict)
    = dom reference_dict ∪ dom import_dict ∧
  ∀ k, merge_dictionaries reference_dict import_dict !! k =
         match reference_dict !! k with
         | Some r => Some r
         | None => import_dict !! k
         end.
Proof.
  assert (Hl : ∀ k, merge_dictionaries reference_dict import_dict !! k =
         match reference_dict !! k with
         | Some r => Some r
         | None => import_dict !! k
         end).
  { intros k. unfold merge_dictionaries.
    rewrite merge_fold_lookup by apply NoDup_fst_map_to_list.
    rewrite list_to_map_to_list.
    destruct (reference_dict !! k) as [r|] eqn:Hr.
    - rewrite decide_True; [done|]. apply elem_of_dom; eauto.
    - rewrite decide_False; [by destruct (import_dict !! k)|].
      by apply not_elem_of_dom. }
  assert (Hu : merge_dictionaries reference_dict import_dict
               = reference_dict ∪ import_dict).
  { apply map_eq; intros k. rewrite Hl, lookup_union.
    destruct (reference_dict !! k), (import_dict !! k); done. }
  split; [done|]. split; [|done].
  rewrite Hu. apply dom_union_L.
Qed.

(** ** [match_strings] and the reading of a translation export *)

Lemma match_fold_lookup (l : list (string * LocalizedString)) :
  ∀ (fin ref : gmap string LocalizedString) (k : string),
    NoDup l.*1 →
    (foldl match_step (fin, ref) l).1 !! k =
      match (list_to_map l : gmap string LocalizedString) !! k with
      | Some s => Some (matched (ref !! k) s)
      | None => fin !! k
      end.
Proof.
  induction l as [|[k0 v0] l IH]; intros fin ref k Hnd; [done|].
  apply NoDup_cons in Hnd as [Hk0 Hnd].
  change (foldl match_step (fin, ref) ((k0, v0) :: l))
    with (foldl match_step (match_step (fin, ref) (k0, v0)) l).
  assert (∃ fin1 ref1, match_step (fin, ref) (k0, v0) = (fin1, ref1)
    ∧ fin1 !! k0 = Some (matched (ref !! k0) v0)
    ∧ (∀ j, j ≠ k0 → fin1 !! j = fin !! j ∧ ref1 !! j = ref !! j))
    as (fin1 & ref1 & -> & Hk & Hj).
  { unfold match_step, matched, set_comment.
    destruct (ref !! k0) as [r|]; [destruct (is_raw r)|];
      eexists _, _; (split; [done|]); rewrite lookup_insert_eq;
      (split; [done|]); intros j ?; by rewrite ?lookup_insert_ne. }
  rewrite IH by done. cbn [list_to_map foldr uncurry].
  destruct (decide (k = k0)) as [->|Hne].
  - rewrite lookup_insert_eq.
    by rewrite (not_elem_of_list_to_map_1 l k0).
  - rewrite lookup_insert_ne by done.
    destruct (Hj k Hne) as [-> ->]. done.
Qed.

(** C1.  The dictionary [match_strings] returns has the keys of
    [scanned_strings], and at each of them: the scanned record when
    [reference_strings] has no record there or an untranslated one, and
    otherwise the reference record with its value and with the comment of
    the scanned record.  Keys of [reference_strings] alone are dropped. *)
Theorem match_strings_spec (scanned_strings reference_strings : gmap string LocalizedString) :
  dom (match_strings scanned_strings reference_strings).1 = dom scanned_strings ∧
  ∀ k, (match_strings scanned_strings reference_strings).1 !! k =
    match scanned_strings !! k with
    | None => None
    | Some s =>
        match reference_strings !! k with
        | None => Some s
        | Some r =>
            if is_raw r then Some s
            else Some (mkLocalizedString (key r) (value r) (comment s))
        end
    end.
Proof.
  assert (Hl : ∀ k, (match_strings scanned_strings reference_strings).1 !! k =
    match scanned_strings !! k with
    | None => None
    | Some s => Some (matched (reference_strings !! k) s)
    end).
  { intros k. unfold match_strings.
    rewrite match_fold_lookup by apply NoDup_fst_map_to_list.
    by rewrite list_to_map_to_list, lookup_empty. }
  split.
  - apply set_eq; intros k. rewrite !elem_of_dom, Hl.
    destruct (scanned_strings !! k); split; intros [? ?]; eauto; done.
  - intros k. rewrite Hl. unfold matched.
    destruct (scanned_strings !! k); [|done].
    destruct (reference_strings !! k) as [r|]; [|done]. by destruct (is_raw r).
Qed.

(** C7, at a document that does not parse: whatever exception [parse]
    raises, [strings_from_encoded_lg_file] logs the failure and then raises
    [UnboundLocalError] when it reads [root], which the handler left
    unbound; [strings_from_lg_file] lets that exception through.  No empty
    list is returned. *)
Theorem strings_from_lg_file_unparsable (e : exn) (log : list string) :
  strings_from_encoded_lg_file (raise e) log
    = (Raised (UnboundLocalError "root"), log ++ ["Error parsing %s"]) ∧
  strings_from_lg_file (raise e) log
    = (Raised (UnboundLocalError "root"), log ++ ["Error parsing %s"]).
Proof. split; reflexivity. Qed.

(** ** The tree extractor *)

Lemma find_from_ge c l i : (find_from c l i = -1 ∨ i ≤ find_from c l i)%Z.
Proof.
  revert i; induction l as [|x l IH]; intros i; simpl; [by left|].
  destruct (Ascii.eqb x c); [right; lia|]. destruct (IH (i + 1)%Z); lia.
Qed.

Lemma find_from_absent c l i :
  (0 ≤ i)%Z → find_from c l i = (-1)%Z ↔ c ∉ l.
Proof.
  revert i; induction l as [|x l IH]; intros i Hi; simpl.
  - split; [intros _; apply not_elem_of_nil|done].
  - rewrite not_elem_of_cons.
    destruct (Ascii.eqb_spec x c) as [->|Hne].
    + split; [lia|]. intros [? _]; done.
    + rewrite IH by lia. split; [intros ?; split; [congruence|done]|by intros [_ ?]].
Qed.

Lemma find_absent s c : find s c = (-1)%Z ↔ c ∉ chars s.
Proof. by apply find_from_absent. Qed.

Lemma no_char_Some s c : no_char (Some s) c = true ↔ c ∉ chars s.
Proof. simpl. rewrite Z.eqb_eq. apply find_absent. Qed.

Lemma accepts_clean base tran :
  accepts base tran = true ↔
  ∃ b t, base = Some b ∧ tran = Some t ∧ clean b ∧ clean t.
Proof.
  unfold accepts, clean. rewrite !andb_true_iff, !bool_decide_eq_true.
  split.
  - intros [[[[[[[Hb Ht] Hbn] Htn] H1] H2] H3] H4].
    destruct base as [b|]; [|done]. destruct tran as [t|]; [|done].
    apply no_char_Some in H1, H2, H3, H4.
    exists b, t. repeat split; try done; congruence.
  - intros (b & t & -> & -> & (Hb & H1 & H2) & (Ht & H3 & H4)).
    rewrite !no_char_Some. repeat split; try done; congruence.
Qed.

Lemma child_text_cons name item children :
  child_text name (item :: children) =
    match child_text name children with
    | Some x => Some x
    | None => if decide (tag item = name) then Some (etext item) else None
    end.
Proof.
  unfold child_text. rewrite filter_cons.
  case_decide; [|by destruct (last _)].
  rewrite fmap_cons, last_cons. done.
Qed.

Lemma scan_children children :
  ∀ base tran,
    foldl scan_item (base, tran) children =
      (from_option id base (child_text "base" children),
       from_option id tran (child_text "tran" children)).
Proof.
  induction children as [|item children IH]; intros base tran; [done|].
  cbn [foldl]. unfold scan_item at 2. rewrite IH, !child_text_cons.
  rewrite !String_eqb_decide.
  f_equal.
  - destruct (child_text "base" children); [done|].
    destruct (decide (tag item = "base")) as [H|H];
      [by rewrite bool_decide_eq_true_2|by rewrite bool_decide_eq_false_2].
  - destruct (child_text "tran" children); [done|].
    destruct (decide (tag item = "tran")) as [H|H];
      [by rewrite bool_decide_eq_true_2|by rewrite bool_decide_eq_false_2].
Qed.

Lemma recur_element_set node localized_strings :
  tag node = "TranslationSet" →
  recur_element node localized_strings =
    let base := from_option id (Some "") (child_text "base" (getchildren node)) in
    let tran := from_option id (Some "") (child_text "tran" (getchildren node)) in
    if accepts base tran
    then localized_strings ++ [mkLocalizedString (or_empty base) tran None]
    else localized_strings.
Proof.
  intros Htag. destruct node as [tg tx ch]; simpl in *; subst tg.
  by rewrite scan_children.
Qed.

(** ** Rendering and parsing a record line *)

Lemma rmatch_cat r1 r2 k pos l cs :
  rmatch (r1 -:- r2) k pos l cs = rmatch r1 (rmatch r2 k) pos l cs.
Proof. done. Qed.

Lemma rmatch_group name r k pos l cs :
  rmatch (Group name r) k pos l cs =
  rmatch r (fun pos' l' cs' => k pos' l' ((name, take (pos' - pos) l) :: cs'))
         pos l cs.
Proof. done. Qed.

Lemma rmatch_opt_Some r k pos l cs res :
  rmatch r k pos l cs = Some res → rmatch (Opt r) k pos l cs = Some res.
Proof. simpl. by intros ->. Qed.

Lemma strip_prefix_length p l l' :
  strip_prefix p l = Some l' → length p ≤ length l.
Proof. intros ->%strip_prefix_Some. rewrite length_app. lia. Qed.

Lemma any_char l :
  newline ∉ l → Forall (fun c => in_class AnyChar c = true) l.
Proof.
  intros Hnl. apply Forall_forall. intros c Hc. simpl.
  destruct (Ascii.eqb_spec c newline) as [->|]; [done|done].
Qed.

Lemma take_add_sub {A} pos (a b : list A) :
  take (pos + length a - pos) (a ++ b) = a.
Proof. replace (pos + length a - pos) with (length a) by lia. apply take_app_length. Qed.

Lemma tail_match c pos cs :
  plain_comment c →
  rmatch RE_tail accept pos (tail_chars c) cs = Some (tail_caps c ++ cs).
Proof.
  destruct c as [s|]; simpl plain_comment; [|done].
  intros (Hne & Hdq & Hnl).
  unfold RE_tail, tail_chars, tail_caps.
  rewrite rmatch_cat. apply rmatch_opt_Some.
  rewrite rmatch_cat, lit_match, rmatch_cat, rmatch_group.
  apply plus_greedy.
  - destruct s; [done|discriminate].
  - by apply any_char.
  - rewrite take_add_sub. change (chars " */") with (chars " */" ++ []).
    by rewrite lit_match.
  - intros a' b' Heq Hlen.
    destruct (rmatch (Lit " */") _ _ b' _) eqn:Hm; [|done].
    apply lit_sound in Hm as (l' & -> & _).
    apply (f_equal length) in Heq. rewrite !length_app in Heq.
    simpl in Heq. lia.
Qed.

Lemma tail_no_quote c : plain_comment c → dquote ∉ tail_chars c.
Proof.
  destruct c as [s|]; simpl; [|intros _; apply not_elem_of_nil].
  intros (_ & Hdq & _). rewrite !not_elem_of_cons, not_elem_of_app.
  repeat split; try done. rewrite !not_elem_of_cons.
  repeat split; try done. apply not_elem_of_nil.
Qed.

Lemma value_match v c pos cs :
  v ≠ [] → newline ∉ v → plain_comment c →
  rmatch RE_value accept pos (v ++ chars q_semi ++ tail_chars c) cs
    = Some (tail_caps c ++ ("value", v) :: cs).
Proof.
  intros Hne Hnl Hc. unfold RE_value.
  rewrite rmatch_cat, rmatch_group.
  apply plus_greedy; [done|by apply any_char| |].
  - rewrite take_add_sub, rmatch_cat, lit_match. by apply tail_match.
  - intros a' b' Heq Hlen.
    destruct (rmatch _ _ _ b' _) eqn:Hm; [|done].
    rewrite rmatch_cat in Hm. apply lit_sound in Hm as (l' & -> & _).
    apply app_eq_app in Heq as [l [[-> Heq]|[-> Heq]]].
    + rewrite length_app in Hlen. lia.
    + destruct l as [|x l]; [rewrite length_app in Hlen; simpl in Hlen; lia|].
      simpl in Heq. injection Heq as <- Heq.
      destruct l as [|x l]; simpl in Heq; [done|].
      injection Heq as <- Heq.
      destruct (tail_no_quote c Hc). rewrite Heq.
      apply elem_of_app. right. left.
Qed.

Lemma sep_sound k pos l cs res :
  rmatch RE_sep k pos l cs = Some res →
  ∃ x w, l = dquote :: x ++ dquote :: w ∧ dquote ∈ w ∧
         (x = chars "=" ∨ x = chars " =" ∨ x = chars "= " ∨ x = chars " = ").
Proof.
  unfold RE_sep. rewrite rmatch_cat.
  intros (l1 & -> & H)%lit_sound.
  assert (Hv : ∀ pos l, rmatch (Lit q -:- RE_value) k pos l cs = Some res →
                 ∃ w, l = dquote :: w ∧ dquote ∈ w).
  { clear. intros pos l. rewrite rmatch_cat. intros (w & -> & H)%lit_sound.
    exists w. split; [done|]. unfold RE_value in H.
    rewrite rmatch_cat, rmatch_group in H.
    apply plus_sound in H as (a & b & -> & _ & H).
    rewrite rmatch_cat in H. apply lit_sound in H as (z & -> & _).
    apply elem_of_app. right. left. }
  assert (He : ∀ pos l, rmatch (Lit "=" -:- Opt (Lit " ") -:- Lit q -:- RE_value)
                          k pos l cs = Some res →
                 ∃ x w, l = x ++ dquote :: w ∧ dquote ∈ w ∧
                        (x = chars "=" ∨ x = chars "= ")).
  { clear -Hv. intros pos l. rewrite rmatch_cat. intros (l2 & -> & H)%lit_sound.
    rewrite rmatch_cat in H. apply opt_sound in H as [H|H].
    - apply lit_sound in H as (l3 & -> & H).
      apply Hv in H as (w & -> & Hw). exists (chars "= "), w. auto.
    - apply Hv in H as (w & -> & Hw). exists (chars "="), w. auto. }
  rewrite rmatch_cat in H. apply opt_sound in H as [H|H].
  - apply lit_sound in H as (l2 & -> & H).
    apply He in H as (x & w & -> & Hw & [-> | ->]).
    + exists (chars " ="), w. auto.
    + exists (chars " = "), w. auto 6.
  - apply He in H as (x & w & -> & Hw & [-> | ->]).
    + exists (chars "="), w. auto.
    + exists (chars "= "), w. auto 6.
Qed.

Lemma bare_quote v tl a c w :
  escaped v → dquote ∉ tl → c ≠ backslash →
  v ++ dquote :: ";"%char :: tl = a ++ c :: dquote :: w →
  w = ";"%char :: tl.
Proof.
  intros Hv Htl Hc Heq.
  change (a ++ c :: dquote :: w) with (a ++ [c] ++ dquote :: w) in Heq.
  rewrite app_assoc in Heq.
  apply app_eq_app in Heq as [l [[Hv' Heq]|[Ha Heq]]].
  - destruct l as [|x l]; simpl in Heq; [congruence|].
    injection Heq as <- _.
    destruct (Hv _ _ Hv') as [pre' Hpre].
    apply app_inj_tail in Hpre as [_ ->]. done.
  - destruct l as [|x l]; simpl in Heq; [congruence|].
    injection Heq as <- Heq.
    destruct l as [|x l]; simpl in Heq; [done|].
    injection Heq as <- Heq. destruct Htl. rewrite Heq.
    apply elem_of_app. right. left.
Qed.

Lemma key_match k v c pos cs :
  k ≠ [] → newline ∉ k →
  v ≠ [] → newline ∉ v → escaped v →
  plain_comment c →
  rmatch (Group "key" (Plus AnyChar) -:- RE_sep) accept pos
         (k ++ chars q_eq_q ++ v ++ chars q_semi ++ tail_chars c) cs
    = Some (tail_caps c ++ ("value", v) :: ("key", k) :: cs).
Proof.
  intros Hk Hknl Hv Hvnl Hve Hc.
  rewrite rmatch_cat, rmatch_group.
  apply plus_greedy; [done|by apply any_char| |].
  - rewrite take_add_sub. unfold RE_sep.
    change (chars q_eq_q)
      with (chars q ++ chars " " ++ chars "=" ++ chars " " ++ chars q).
    rewrite <- !app_assoc.
    rewrite rmatch_cat, lit_match, rmatch_cat. apply rmatch_opt_Some.
    rewrite lit_match, rmatch_cat, lit_match, rmatch_cat.
    apply rmatch_opt_Some. rewrite lit_match, rmatch_cat, lit_match.
    by apply value_match.
  - intros a' b' Heq Hlen.
    destruct (rmatch RE_sep _ _ b' _) eqn:Hm; [|done]. exfalso.
    apply sep_sound in Hm as (x & w & -> & Hw & Hx).
    assert (Hbare : ∀ a ch, ch ≠ backslash →
      v ++ dquote :: ";"%char :: tail_chars c = a ++ ch :: dquote :: w → False).
    { intros a ch Hch Hb.
      apply bare_quote in Hb; [|done|by apply tail_no_quote|done].
      subst w. apply elem_of_cons in Hw as [Hw|Hw]; [done|].
      by apply (tail_no_quote c Hc). }
    apply app_eq_app in Heq as [l [[-> Heq]|[-> Heq]]].
    { rewrite length_app in Hlen. lia. }
    destruct l as [|y l]; [rewrite length_app in Hlen; simpl in Hlen; lia|].
    clear Hlen. simpl in Heq. injection Heq as <- Heq.
    do 3 (destruct l as [|? l]; [simpl in Heq; unfold dquote in Heq; discriminate|];
          simpl in Heq; injection Heq as <- Heq).
    destruct l as [|y l]; simpl in Heq.
    + injection Heq as Heq.
      destruct Hx as [-> | [-> | [-> | ->]]]; simpl in Heq.
      * by apply (Hbare [] "="%char).
      * by apply (Hbare [" "%char] "="%char).
      * by apply (Hbare ["="%char] " "%char).
      * by apply (Hbare [" "%char; "="%char] " "%char).
    + injection Heq as <- Heq.
      destruct Hx as [-> | [-> | [-> | ->]]]; simpl in Heq.
      * apply (Hbare (l ++ [dquote]) "="%char); [done|].
        by rewrite <- app_assoc.
      * apply (Hbare (l ++ [dquote; " "%char]) "="%char); [done|].
        by rewrite <- app_assoc.
      * apply (Hbare (l ++ [dquote; "="%char]) " "%char); [done|].
        by rewrite <- app_assoc.
      * apply (Hbare (l ++ [dquote; " "%char; "="%char]) " "%char); [done|].
        by rewrite <- app_assoc.
Qed.

Lemma chars_nil s : chars s = [] → s = "".
Proof. by destruct s. Qed.

Lemma chars_str k v c :
  plain_comment c →
  chars (str (mkLocalizedString k (Some v) c))
    = chars q ++ chars k ++ chars q_eq_q ++ chars v ++ chars q_semi
      ++ tail_chars c.
Proof.
  intros Hc. unfold str. simpl comment. simpl key. simpl value. simpl or_empty.
  destruct c as [s|]; simpl truthy.
  - destruct Hc as (Hne & _).
    destruct (String.eqb_spec s "") as [->|_]; [done|]. simpl negb. cbv iota.
    rewrite !chars_app. simpl or_empty. unfold tail_chars.
    change (chars q_semi_open) with (chars q_semi ++ chars " /* ").
    by rewrite <- !app_assoc.
  - cbv iota. rewrite !chars_app. simpl tail_chars. by rewrite app_nil_r.
Qed.

Lemma rmatch_bol k l cs : rmatch Bol k 0 l cs = k 0 l cs.
Proof. done. Qed.

Lemma line_match k v c :
  k ≠ [] → newline ∉ k →
  v ≠ [] → newline ∉ v → escaped v →
  plain_comment c →
  rmatch LOCALIZED_STRING_EXPR accept 0
         (chars q ++ k ++ chars q_eq_q ++ v ++ chars q_semi ++ tail_chars c) []
    = Some (tail_caps c ++ [("value", v); ("key", k)]).
Proof.
  intros.
  change LOCALIZED_STRING_EXPR
    with (Bol -:- Lit q -:- Group "key" (Plus AnyChar) -:- RE_sep)%re.
  rewrite rmatch_cat, rmatch_bol, rmatch_cat, lit_match.
  by apply key_match.
Qed.

(** C2 (amended).  For every record whose key and value are not empty and
    hold no newline, whose value holds no double quote but right after a
    backslash, and whose comment is absent or is not empty and holds no
    double quote and no newline, [from_line (str record)] is the record
    itself.  [from_line] normalizes nothing: the sentinel comment comes
    back as it is. *)
Theorem from_line_str (k v : string) (c : option string) :
  k ≠ "" → newline ∉ chars k →
  v ≠ "" → newline ∉ chars v → quotes_escaped v →
  plain_comment c →
  from_line (str (mkLocalizedString k (Some v) c))
    = Some (mkLocalizedString k (Some v) c).
Proof.
  intros Hk Hknl Hv Hvnl Hve Hc.
  unfold from_line, re_match. rewrite chars_str by done.

  rewrite line_match; try done.
  - destruct c as [s|]; simpl; rewrite !text_chars; done.
  - intros ?%chars_nil. done.
  - intros ?%chars_nil. done.
Qed.

Lemma escapedb_sound l :
  ∀ p, escapedb p l = true →
       ∀ pre post, l = pre ++ dquote :: post →
                   (pre = [] ∧ p = true) ∨ ∃ pre', pre = pre' ++ [backslash].
Proof.
  induction l as [|c l IH]; intros p Hb pre post Heq.
  - by destruct pre.
  - simpl in Hb. apply andb_true_iff in Hb as [Hc Hl].
    destruct pre as [|x pre]; simpl in Heq; injection Heq as -> Heq.
    + left. split; [done|]. by rewrite Ascii.eqb_refl in Hc.
    + right. destruct (IH _ Hl _ _ Heq) as [[-> Hx]|[pre' ->]].
      * exists []. simpl. f_equal. by apply Ascii.eqb_eq.
      * by exists (x :: pre').
Qed.

Lemma escapedb_escaped s : escapedb false (chars s) = true → quotes_escaped s.
Proof.
  intros Hb pre post Heq.
  by destruct (escapedb_sound _ _ Hb _ _ Heq) as [[_ ?]|?].
Qed.

Lemma from_line_str_witness :
  from_line (str sample_record) = Some sample_record.
Proof.
  apply (from_line_str ("a " +:+ q +:+ "b" +:+ q)
           ("say \" +:+ q +:+ "hi\" +:+ q) (Some "COMMENT")).
  - discriminate.
  - by apply not_elem_of_chars.
  - discriminate.
  - by apply not_elem_of_chars.
  - by apply escapedb_escaped.
  - split; [discriminate|]. split; by apply not_elem_of_chars.
Defined.

(** C2 as stated fails: a record with an empty value is rendered into a
    line [from_line] rejects, and a comment with a quoted part is read back
    into another value and another comment. *)
Lemma from_line_str_not_inverse :
  from_line (str empty_value_record) = None ∧
  from_line (str quoted_comment_record)
    = Some (mkLocalizedString "k"
              (Some ("v" +:+ q +:+ "; /* say " +:+ q +:+ "hi")) (Some "now")).
Proof. split; by vm_compute. Qed.

(** ** The categorizing writer *)

(** *** Sorted traversal *)

Lemma sorted_keys_perm (d : gmap string LocalizedString) :
  sorted_keys d ≡ₚ (map_to_list d).*1.
Proof. apply merge_sort_Permutation. Qed.

Lemma NoDup_sorted_keys (d : gmap string LocalizedString) : NoDup (sorted_keys d).
Proof. rewrite sorted_keys_perm. apply NoDup_fst_map_to_list. Qed.

Lemma elem_of_sorted_keys (d : gmap string LocalizedString) k :
  k ∈ sorted_keys d ↔ is_Some (d !! k).
Proof.
  rewrite sorted_keys_perm, list_elem_of_fmap. split.
  - intros ([k' r] & -> & H%elem_of_map_to_list). by exists r.
  - intros [r H]. exists (k, r). split; [done|]. by apply elem_of_map_to_list.
Qed.

Lemma elem_of_sorted_strings (d : gmap string LocalizedString) r :
  r ∈ sorted_strings_from_dict d ↔ ∃ k, d !! k = Some r.
Proof.
  unfold sorted_strings_from_dict. rewrite list_elem_of_omap. split.
  - intros (k & _ & H). by exists k.
  - intros (k & H). exists k. split; [|done]. apply elem_of_sorted_keys. by exists r.
Qed.

(** *** The first loop *)

Lemma is_ascii_spec (c : ascii) : is_ascii c = true ↔ (N_of_ascii c < 128)%N.
Proof. apply N.ltb_lt. Qed.

Lemma ascii_commentb_spec r :
  ascii_commentb r = true ↔ ascii_comment (comment r).
Proof.
  unfold ascii_commentb, ascii_comment. destruct (comment r) as [s|]; [|done].
  rewrite forallb_forall. split.
  - intros H s' [= <-] x Hx. apply is_ascii_spec, H. by apply list_elem_of_In.
  - intros H x Hx. apply is_ascii_spec, (H s eq_refl). by apply list_elem_of_In.
Qed.

Lemma py_str_eq r :
  py_str (comment r)
    = if ascii_commentb r then Returned (comment_text (comment r))
      else Raised UnicodeError.
Proof. unfold py_str, ascii_commentb. by destruct (comment r). Qed.

Lemma bucket_step_eq E b r :
  bucket_step E b r
    = if ascii_commentb r then Returned (put (section_of E r) (key r) b)
      else Raised UnicodeError.
Proof.
  unfold bucket_step. rewrite py_str_eq. destruct (ascii_commentb r); [|done].
  cbv zeta. f_equal. unfold section_of.
  destruct (is_raw r); [destruct (decide (key r ∈ E))|];
    try destruct (0 <=? find_sub _ _)%Z; done.
Qed.

Lemma put_keys s' k b s :
  keys_of s (put s' k b) =
    if decide (s' = s) then {[k]} ∪ keys_of s b else keys_of s b.
Proof. by destruct s', s. Qed.

Lemma for_loop_buckets E l :
  ∀ b, for_loop (bucket_step E) b l =
         (foldl (fun b r => put (section_of E r) (key r) b) b (ascii_prefix l),
          if forallb ascii_commentb l then None else Some UnicodeError).
Proof.
  induction l as [|r l IH]; intros b; [done|].
  cbn [for_loop ascii_prefix forallb]. rewrite bucket_step_eq.
  destruct (ascii_commentb r); [|done]. cbn [foldl andb]. apply IH.
Qed.

Lemma ascii_prefix_all l : forallb ascii_commentb l = true → ascii_prefix l = l.
Proof.
  induction l as [|r l IH]; [done|]. cbn [forallb ascii_prefix].
  intros [-> Hl]%andb_true_iff. by rewrite IH.
Qed.

Lemma elem_of_ascii_prefix l r : r ∈ ascii_prefix l → r ∈ l.
Proof.
  induction l as [|r' l IH]; [done|]. cbn [ascii_prefix].
  destruct (ascii_commentb r'); [|by intros ?%elem_of_nil].
  intros [->|H]%elem_of_cons; [left|right; by apply IH].
Qed.

Lemma bucket_fold_keys E s l :
  ∀ b k, k ∈ keys_of s (foldl (fun b r => put (section_of E r) (key r) b) b l) ↔
         k ∈ keys_of s b ∨ ∃ r, r ∈ l ∧ key r = k ∧ section_of E r = s.
Proof.
  induction l as [|r l IH]; intros b k; cbn [foldl].
  - split; [by left|]. intros [?|(r & Hr & _)]; [done|]. by apply elem_of_nil in Hr.
  - rewrite IH, put_keys. split.
    + intros [Hk|(r' & Hr' & Hkey & Hs)].
      * case_decide as Hs; [|by left].
        apply elem_of_union in Hk as [->%elem_of_singleton|Hk]; [|by left].
        right. exists r. split; [left|done].
      * right. exists r'. split; [by right|done].
    + intros [Hk|(r' & Hr' & Hkey & Hs)].
      * left. case_decide; [|done]. apply elem_of_union. by right.
      * apply elem_of_cons in Hr' as [->|Hr'].
        -- left. rewrite decide_True by done. apply elem_of_union. left.
           by apply elem_of_singleton.
        -- right. by exists r'.
Qed.

(** The first loop raises [UnicodeError] or goes through every record. *)
Lemma first_loop_exn_eq d E :
  first_loop_exn d E
    = if forallb ascii_commentb (sorted_strings_from_dict d) then None
      else Some UnicodeError.
Proof. unfold first_loop_exn, bucket_all. by rewrite for_loop_buckets. Qed.

Lemma first_loop_returns d E : first_loop_exn d E = None ↔ ascii_comments d.
Proof.
  rewrite first_loop_exn_eq.
  destruct (forallb _ _) eqn:Hall.
  - split; [|done]. intros _ k r Hr. apply ascii_commentb_spec.
    rewrite forallb_forall in Hall. apply Hall, list_elem_of_In.
    apply elem_of_sorted_strings. by exists k.
  - split; [done|]. intros Hd.
    assert (forallb ascii_commentb (sorted_strings_from_dict d) = true) as Ht;
      [|congruence].
    apply forallb_forall.
    intros r (k & Hr)%list_elem_of_In%elem_of_sorted_strings.
    apply ascii_commentb_spec. by apply (Hd k).
Qed.

Lemma first_loop_raises d E :
  ¬ ascii_comments d → first_loop_exn d E = Some UnicodeError.
Proof.
  intros Hd. rewrite first_loop_exn_eq. destruct (forallb _ _) eqn:Hall; [|done].
  destruct Hd. apply (first_loop_returns d E). by rewrite first_loop_exn_eq, Hall.
Qed.

(** A key in a section is the key of a record the first loop chose the
    section for. *)
Lemma bucket_all_sound E d s k :
  k ∈ keys_of s (bucket_all E d).1 →
  ∃ k' r, d !! k' = Some r ∧ key r = k ∧ section_of E r = s.
Proof.
  unfold bucket_all. rewrite for_loop_buckets. cbn [fst].
  rewrite bucket_fold_keys.
  intros [Hk|(r & (k' & Hr)%elem_of_ascii_prefix%elem_of_sorted_strings & Hkey & Hs)].
  - destruct s; simpl in Hk; by apply not_elem_of_empty in Hk.
  - by exists k', r.
Qed.

Lemma bucket_all_keys E d s k :
  (bucket_all E d).2 = None →
  k ∈ keys_of s (bucket_all E d).1 ↔
  ∃ k' r, d !! k' = Some r ∧ key r = k ∧ section_of E r = s.
Proof.
  intros Hret. split; [apply bucket_all_sound|].
  revert Hret. unfold bucket_all. rewrite for_loop_buckets. cbn [fst snd].
  destruct (forallb _ _) eqn:Hall; [|done]. intros _.
  rewrite ascii_prefix_all by done. rewrite bucket_fold_keys.
  intros (k' & r & Hr & Hkey & Hs). right. exists r.
  split; [|done]. apply elem_of_sorted_strings. by exists k'.
Qed.

Lemma bucket_all_indexed E d s k r :
  indexed_by_key d → (bucket_all E d).2 = None → d !! k = Some r →
  k ∈ keys_of s (bucket_all E d).1 ↔ section_of E r = s.
Proof.
  intros Hwf Hret Hr. rewrite bucket_all_keys by done. split.
  - intros (k' & r' & Hr' & Hkey & Hs).
    pose proof (Hwf _ _ Hr') as Hk'.
    assert (k' = k) as -> by congruence. congruence.
  - intros Hs. exists k, r. split; [done|]. split; [by apply Hwf|done].
Qed.

(** *** The writing loops *)

Lemma omap_ext_in {A B} (f g : A → option B) (l : list A) :
  (∀ x, x ∈ l → f x = g x) → omap f l = omap g l.
Proof.
  induction l as [|x l IH]; intros H; [done|]. csimpl.
  rewrite (H x) by left. rewrite IH; [done|]. intros y Hy. apply H. by right.
Qed.

Lemma write_cleared_fold keys ks :
  ∀ d out, NoDup ks →
    (∀ k, (foldl (write_cleared keys) (d, out) ks).1 !! k =
            if decide (k ∈ ks) then clear_if keys <$> d !! k else d !! k) ∧
    (foldl (write_cleared keys) (d, out) ks).2
      = out ++ omap (cleared_text keys d) ks.
Proof.
  induction ks as [|k0 ks IH]; intros d out Hnd.
  - split; [|by rewrite app_nil_r].
    intros k. cbn [foldl fst]. rewrite decide_False; [done|]. apply not_elem_of_nil.
  - apply NoDup_cons in Hnd as [Hk0 Hnd]. cbn [foldl].
    assert (∃ d1 out1, write_cleared keys (d, out) k0 = (d1, out1)
      ∧ d1 !! k0 = clear_if keys <$> d !! k0
      ∧ (∀ j, j ≠ k0 → d1 !! j = d !! j)
      ∧ out1 = out ++ from_option (fun x => [x]) [] (cleared_text keys d k0))
      as (d1 & out1 & -> & Hd1 & Hj & ->).
    { unfold write_cleared, cleared_text, clear_if, written.
      destruct (d !! k0) as [r|] eqn:Hr; simpl.
      - destruct (decide (key r ∈ keys)); simpl.
        + eexists _, _. split; [done|]. rewrite lookup_insert_eq.
          split; [done|]. split; [|done]. intros j ?. by rewrite lookup_insert_ne.
        + eexists _, _. split; [done|]. rewrite app_nil_r. done.
      - eexists _, _. split; [done|]. rewrite app_nil_r. done. }
    destruct (IH d1 (out ++ from_option (fun x => [x]) [] (cleared_text keys d k0)) Hnd)
      as [IH1 IH2].
    split.
    + intros k. rewrite IH1.
      destruct (decide (k = k0)) as [->|Hne].
      * rewrite decide_False by done. rewrite decide_True by left. done.
      * rewrite Hj by done.
        destruct (decide (k ∈ ks)) as [Hin|Hin].
        -- rewrite decide_True by (by right). done.
        -- rewrite decide_False; [done|]. by intros [?|?]%elem_of_cons.
    + rewrite IH2, <- app_assoc. f_equal. csimpl.
      rewrite (omap_ext_in (cleared_text keys d1) (cleared_text keys d)).
      * by destruct (cleared_text keys d k0).
      * intros k Hk. unfold cleared_text. rewrite Hj; [done|]. by intros ->.
Qed.

Lemma write_kept_fold keys ks :
  ∀ d out,
    foldl (write_kept keys) (d, out) ks = (d, out ++ omap (kept_text keys d) ks).
Proof.
  induction ks as [|k0 ks IH]; intros d out.
  - simpl. by rewrite app_nil_r.
  - cbn [foldl].
    assert (write_kept keys (d, out) k0
            = (d, out ++ from_option (fun x => [x]) [] (kept_text keys d k0))) as ->.
    { unfold write_kept, kept_text, written.
      destruct (d !! k0) as [r|]; simpl; [destruct (decide _)|]; simpl;
        by rewrite ?app_nil_r. }
    rewrite IH, <- app_assoc. csimpl. by destruct (kept_text keys d k0).
Qed.

Lemma cleared_dict keys (d : gmap string LocalizedString) out :
  (foldl (write_cleared keys) (d, out) (sorted_keys d)).1 = clear_if keys <$> d.
Proof.
  apply map_eq; intros k.
  destruct (write_cleared_fold keys (sorted_keys d) d out (NoDup_sorted_keys d))
    as [-> _].
  rewrite lookup_fmap. case_decide as Hk; [done|].
  rewrite elem_of_sorted_keys in Hk.
  destruct (d !! k) eqn:Hd; [|done]. destruct Hk. eauto.
Qed.

Lemma cleared_output keys (d : gmap string LocalizedString) out :
  (foldl (write_cleared keys) (d, out) (sorted_keys d)).2
    = out ++ omap (cleared_text keys d) (sorted_keys d).
Proof. apply write_cleared_fold, NoDup_sorted_keys. Qed.

Lemma clear_if_empty (d : gmap string LocalizedString) : clear_if ∅ <$> d = d.
Proof.
  apply map_eq; intros k. rewrite lookup_fmap.
  destruct (d !! k) as [r|]; [|done]. simpl. unfold clear_if.
  rewrite decide_False; [done|]. apply not_elem_of_empty.
Qed.

Lemma size_zero_empty (s : gset string) : size s = 0 → s = ∅.
Proof. intros H. by apply leibniz_equiv, size_empty_inv. Qed.

(** When the first loop raises, so does the call: nothing is cleared and
    nothing is written. *)
Lemma strings_to_file_raised d E e :
  first_loop_exn d E = Some e → strings_to_file d E = (d, Raised e).
Proof.
  unfold first_loop_exn, strings_to_file. cbv zeta.
  destruct (bucket_all _ d) as [b [e'|]]; simpl; congruence.
Qed.

(** The call when the first loop returns: the comments of the records of
    the Translated and the Not-Translated sections are gone. *)
Lemma strings_to_file_returned d E :
  first_loop_exn d E = None →
  strings_to_file d E =
    (clear_if (not_keys (buckets_of d E))
       <$> (clear_if (trans_keys (buckets_of d E)) <$> d),
     Returned (translated_lines d E ++ extra_lines d E ++ not_translated_lines d E)).
Proof.
  unfold first_loop_exn, strings_to_file, translated_lines, extra_lines,
    not_translated_lines, buckets_of. cbv zeta.
  destruct (bucket_all _ d) as [b [e'|]]; simpl; [done|]. intros _.
  destruct (translated_section b d) as [d1 out1] eqn:H1.
  destruct (extra_section b d1) as [d2 out2] eqn:H2.
  destruct (not_translated_section b d2) as [d3 out3] eqn:H3.
  simpl.
  assert (d1 = clear_if (trans_keys b) <$> d) as ->.
  { unfold translated_section in H1.
    by rewrite <- (cleared_dict (trans_keys b) d []), H1. }
  assert (d2 = clear_if (trans_keys b) <$> d) as ->.
  { unfold extra_section in H2. case_decide; [|congruence].
    rewrite write_kept_fold in H2. congruence. }
  rewrite H2. cbn [fst snd]. rewrite H3. cbn [snd]. f_equal.
  unfold not_translated_section in H3. case_decide as Hn.
  - by rewrite <- (cleared_dict (not_keys b) _ (header "/*Not Translated*/")), H3.
  - apply size_zero_empty in Hn. rewrite Hn, clear_if_empty. congruence.
Qed.

Lemma outputs_returned d E :
  first_loop_exn d E = None →
  translated_output d E = translated_lines d E ∧
  extra_output d E = extra_lines d E ∧
  not_translated_output d E = not_translated_lines d E.
Proof.
  intros H. unfold translated_output, extra_output, not_translated_output.
  by rewrite H.
Qed.

Lemma strings_to_file_dict d E :
  first_loop_exn d E = None →
  (strings_to_file d E).1
    = clear_if (not_keys (buckets_of d E))
        <$> (clear_if (trans_keys (buckets_of d E)) <$> d).
Proof. intros H. by rewrite strings_to_file_returned. Qed.

Lemma strings_to_file_output d E :
  (strings_to_file d E).2 =
    match first_loop_exn d E with
    | Some e => Raised e
    | None => Returned (translated_output d E ++ extra_output d E
                        ++ not_translated_output d E)
    end.
Proof.
  destruct (first_loop_exn d E) as [e|] eqn:H.
  - by rewrite (strings_to_file_raised d E e).
  - rewrite strings_to_file_returned by done.
    by destruct (outputs_returned d E H) as (-> & -> & ->).
Qed.

Lemma translated_section_dict b d :
  (translated_section b d).1 = clear_if (trans_keys b) <$> d.
Proof. apply cleared_dict. Qed.

Lemma extra_section_dict b d : (extra_section b d).1 = d.
Proof.
  unfold extra_section. case_decide; [|done]. by rewrite write_kept_fold.
Qed.

Lemma elem_of_translated_lines d E k r :
  d !! k = Some r → key r ∈ trans_keys (buckets_of d E) →
  written (set_comment r None) ∈ translated_lines d E.
Proof.
  intros Hr Hk. unfold translated_lines, translated_section.
  rewrite cleared_output. simpl. apply list_elem_of_omap. exists k.
  split; [apply elem_of_sorted_keys; eauto|].
  unfold cleared_text. rewrite Hr. simpl. by rewrite decide_True.
Qed.

Lemma elem_of_extra_lines d E k r :
  d !! k = Some r → key r ∈ extra_keys (buckets_of d E) →
  key r ∉ trans_keys (buckets_of d E) →
  written r ∈ extra_lines d E.
Proof.
  intros Hr Hk Hnk. unfold extra_lines. rewrite translated_section_dict.
  set (d1 := clear_if _ <$> d).
  assert (Hd1 : d1 !! k = Some r).
  { unfold d1. rewrite lookup_fmap, Hr. simpl. unfold clear_if.
    by rewrite decide_False. }
  unfold extra_section. rewrite decide_True.
  - rewrite write_kept_fold. cbn [snd]. apply elem_of_app. right.
    apply list_elem_of_omap. exists k.
    split; [apply elem_of_sorted_keys; eauto|].
    unfold kept_text. rewrite Hd1. simpl. by rewrite decide_True.
  - intros Hz%size_zero_empty. rewrite Hz in Hk. by apply not_elem_of_empty in Hk.
Qed.

Lemma elem_of_not_translated_lines d E k r :
  d !! k = Some r → key r ∈ not_keys (buckets_of d E) →
  written (set_comment r None) ∈ not_translated_lines d E.
Proof.
  intros Hr Hk. unfold not_translated_lines.
  rewrite extra_section_dict, translated_section_dict.
  set (d1 := clear_if _ <$> d).
  assert (Hd1 : ∃ r1, d1 !! k = Some r1 ∧ key r1 = key r
                      ∧ set_comment r1 None = set_comment r None).
  { unfold d1. rewrite lookup_fmap, Hr. simpl. eexists. split; [done|].
    unfold clear_if. by case_decide. }
  destruct Hd1 as (r1 & Hr1 & Hkey & Hset).
  unfold not_translated_section. rewrite decide_True.
  - rewrite cleared_output. apply elem_of_app. right.
    apply list_elem_of_omap. exists k.
    split; [apply elem_of_sorted_keys; eauto|].
    unfold cleared_text. rewrite Hr1. simpl. rewrite Hkey, Hset.
    by rewrite decide_True.
  - intros Hz%size_zero_empty. rewrite Hz in Hk. by apply not_elem_of_empty in Hk.
Qed.

(** [find] with a text as needle *)
Lemma is_prefix_app p l : is_prefix p (p ++ l) = true.
Proof. induction p as [|a p IH]; simpl; [done|]. by rewrite Ascii.eqb_refl. Qed.

Lemma find_sub_from_ge p l i :
  (find_sub_from p l i = -1 ∨ i ≤ find_sub_from p l i)%Z.
Proof.
  revert i; induction l as [|x l IH]; intros i; simpl.
  - destruct (is_prefix p []); [right|left]; lia.
  - destruct (is_prefix p (x :: l)); [right; lia|].
    destruct (IH (i + 1)%Z); lia.
Qed.

Lemma find_sub_from_eq p l i :
  find_sub_from p l i =
    if is_prefix p l then i
    else match l with
         | [] => (-1)%Z
         | _ :: l' => find_sub_from p l' (i + 1)%Z
         end.
Proof. by destruct l. Qed.

Lemma find_sub_from_found p pre post i :
  (0 ≤ i)%Z → (0 ≤ find_sub_from p (pre ++ p ++ post) i)%Z.
Proof.
  revert i; induction pre as [|x pre IH]; intros i Hi.
  - rewrite find_sub_from_eq. simpl app. by rewrite is_prefix_app.
  - rewrite find_sub_from_eq. simpl app.
    destruct (is_prefix p (x :: pre ++ p ++ post)); [lia|].
    apply IH. lia.
Qed.

Lemma has_extra_found c :
  has_extra c → (0 <=? find_sub (comment_text c) "extra")%Z = true.
Proof.
  intros (s & pre & post & -> & Hs). apply Z.leb_le. unfold find_sub.
  simpl comment_text. rewrite Hs. by apply find_sub_from_found.
Qed.

Lemma section_of_extra E r :
  has_extra (comment r) → (is_raw r = false ∨ key r ∈ E) → section_of E r = Extra.
Proof.
  intros He%has_extra_found Hc. unfold section_of. rewrite He.
  destruct (is_raw r); [|done]. destruct Hc as [?|Hk]; [done|].
  by rewrite decide_True.
Qed.

Lemma section_of_not_translated E r :
  is_raw r = true → key r ∉ E → section_of E r = NotTranslated.
Proof. intros Hr Hk. unfold section_of. rewrite Hr. by rewrite decide_False. Qed.

Lemma is_prefix_sound p l : is_prefix p l = true → ∃ post, l = p ++ post.
Proof.
  revert l; induction p as [|a p IH]; intros l H; [by exists l|].
  destruct l as [|b l]; [done|]. simpl in H.
  apply andb_true_iff in H as [->%Ascii.eqb_eq H].
  destruct (IH _ H) as [post ->]. by exists post.
Qed.

Lemma find_sub_from_sound p l i :
  (0 ≤ i)%Z → (0 ≤ find_sub_from p l i)%Z → ∃ pre post, l = pre ++ p ++ post.
Proof.
  revert i; induction l as [|x l IH]; intros i Hi; rewrite find_sub_from_eq.
  - destruct (is_prefix p []) eqn:Hp; [|lia].
    intros _. apply is_prefix_sound in Hp as [post ->]. by exists [], post.
  - destruct (is_prefix p (x :: l)) eqn:Hp.
    + intros _. apply is_prefix_sound in Hp as [post ->]. by exists [], post.
    + intros H. apply IH in H as (pre & post & ->); [|lia].
      by exists (x :: pre), post.
Qed.

Lemma section_extra_has_extra E r : section_of E r = Extra → has_extra (comment r).
Proof.
  unfold section_of.
  assert (H : (0 <=? find_sub (comment_text (comment r)) "extra")%Z = true →
              has_extra (comment r)).
  { intros H%Z.leb_le. destruct (comment r) as [s|].
    - apply find_sub_from_sound in H as (pre & post & Hs); [|done].
      by exists s, pre, post.
    - by vm_compute in H. }
  destruct (is_raw r); [destruct (decide _)|];
    destruct (0 <=? find_sub _ _)%Z; try done; intros _; by apply H.
Qed.

Lemma section_of_translated E r :
  ¬ has_extra (comment r) → (is_raw r = false ∨ key r ∈ E) →
  section_of E r = Translated.
Proof.
  intros He Hc.
  destruct (section_of E r) eqn:Hs; [done| |].
  - by apply section_extra_has_extra in Hs.
  - unfold section_of in Hs. destruct Hc as [Hc|Hc].
    + rewrite Hc in Hs. by destruct (0 <=? _)%Z.
    + destruct (is_raw r); [rewrite decide_True in Hs by done|];
        by destruct (0 <=? _)%Z.
Qed.

Lemma is_raw_value r : is_raw r = true ↔ value r = Some (key r).
Proof.
  unfold is_raw. destruct (value r) as [v|]; [|done].
  rewrite String.eqb_eq. split; congruence.
Qed.

Lemma is_raw_false r : is_raw r = false ↔ value r ≠ Some (key r).
Proof. rewrite <- is_raw_value. by destruct (is_raw r). Qed.

Lemma escape_fold_keys l k :
  ∀ acc : gset string,
    k ∈ foldl (fun escape_keys escape_string => {[key escape_string]} ∪ escape_keys)
              acc l
    ↔ k ∈ acc ∨ ∃ e : LocalizedString, e ∈ l ∧ key e = k.
Proof.
  induction l as [|e l IH]; intros acc; cbn [foldl].
  - split; [by left|]. intros [?|(e & He & _)]; [done|]. by apply elem_of_nil in He.
  - rewrite IH, elem_of_union, elem_of_singleton. split.
    + intros [[->|?]|(e' & He' & Hk)].
      * right. exists e. split; [left|done].
      * by left.
      * right. exists e'. split; [by right|done].
    + intros [?|(e' & [->|He']%elem_of_cons & Hk)].
      * left. by right.
      * left. by left.
      * right. by exists e'.
Qed.

Lemma elem_of_escape_keys_of E k : k ∈ escape_keys_of E ↔ escape_key E k.
Proof.
  unfold escape_keys_of, escape_key. rewrite escape_fold_keys. split.
  - intros [?%not_elem_of_empty|(e & (k' & He)%elem_of_sorted_strings & Hk)];
      [done|]. by exists k', e.
  - intros (k' & e & He & Hk). right. exists e. split; [|done].
    apply elem_of_sorted_strings. by exists k'.
Qed.

(** The section chosen is the Extra section for the records of [in_extra]
    and for no other. *)
Lemma section_of_in_extra E r :
  section_of (escape_keys_of E) r = Extra ↔ in_extra E r.
Proof.
  unfold in_extra. rewrite <- is_raw_false, <- elem_of_escape_keys_of. split.
  - intros Hs. split; [by apply section_extra_has_extra in Hs|].
    destruct (is_raw r) eqn:Hraw; [|by left]. right.
    destruct (decide (key r ∈ escape_keys_of E)); [done|].
    by rewrite section_of_not_translated in Hs.
  - intros [He Hc]. by apply section_of_extra.
Qed.

Lemma indexed_singleton k r :
  key r = k → indexed_by_key ({[ k := r ]} : gmap string LocalizedString).
Proof. intros Hk k' r' [<- <-]%lookup_singleton_Some. done. Qed.

Lemma ascii_singleton k r :
  ascii_commentb r = true →
  ascii_comments ({[ k := r ]} : gmap string LocalizedString).
Proof.
  intros Hr k' r' [<- <-]%lookup_singleton_Some. by apply ascii_commentb_spec.
Qed.

(** Where each record of a dictionary indexed by key is put and written,
    when the first loop returns. *)
Lemma placed d E k r s :
  indexed_by_key d → first_loop_exn d E = None → d !! k = Some r →
  section_of (escape_keys_of E) r = s →
  (∀ s', k ∈ keys_of s' (buckets_of d E) ↔ s' = s) ∧
  match s with
  | Translated => written (set_comment r None) ∈ translated_lines d E
  | Extra => written r ∈ extra_lines d E
  | NotTranslated => written (set_comment r None) ∈ not_translated_lines d E
  end.
Proof.
  intros Hwf Hret Hr Hs. pose proof (Hwf _ _ Hr) as Hkey.
  assert (Hb : ∀ s', k ∈ keys_of s' (buckets_of d E) ↔ s' = s).
  { intros s'. unfold buckets_of.
    rewrite (bucket_all_indexed _ d s' k r Hwf Hret Hr). split; congruence. }
  split; [done|]. destruct s.
  - apply (elem_of_translated_lines d E k r); [done|].
    rewrite Hkey. by apply (Hb Translated).
  - apply (elem_of_extra_lines d E k r); [done| |]; rewrite Hkey.
    + by apply (Hb Extra).
    + by intros ?%(Hb Translated).
  - apply (elem_of_not_translated_lines d E k r); [done|].
    rewrite Hkey. by apply (Hb NotTranslated).
Qed.

(** C3 (amended).  In a dictionary indexed by key whose comments [str]
    accepts, the writer returns; a record whose comment holds [extra] is
    placed in the Extra section, with its comment, when it is translated or
    its key is an escape key; a record that is untranslated and whose key
    is no escape key is placed in the Not-Translated section, whatever its
    comment. *)
Theorem extra_section_placement (d E : gmap string LocalizedString)
    (k : string) (r : LocalizedString) :
  indexed_by_key d → ascii_comments d → d !! k = Some r →
  (strings_to_file d E).2
    = Returned (translated_output d E ++ extra_output d E
                ++ not_translated_output d E) ∧
  (has_extra (comment r) → is_raw r = false ∨ k ∈ escape_keys_of E →
     k ∈ extra_keys (buckets_of d E) ∧ (k ∉ trans_keys (buckets_of d E)) ∧
     (k ∉ not_keys (buckets_of d E)) ∧ written r ∈ extra_output d E) ∧
  (is_raw r = true ∧ k ∉ escape_keys_of E →
     k ∈ not_keys (buckets_of d E) ∧ (k ∉ extra_keys (buckets_of d E)) ∧
     (k ∉ trans_keys (buckets_of d E)) ∧
     written (set_comment r None) ∈ not_translated_output d E).
Proof.
  intros Hwf Hascii%(first_loop_returns d E) Hr. pose proof (Hwf _ _ Hr) as Hkey.
  destruct (outputs_returned d E Hascii) as (Ht & Hx & Hn).
  split; [by rewrite strings_to_file_output, Hascii|]. split.
  - intros He Hc.
    assert (Hs : section_of (escape_keys_of E) r = Extra).
    { apply section_of_extra; [done|]. by rewrite Hkey. }
    destruct (placed d E k r Extra Hwf Hascii Hr Hs) as [Hb Hw].
    rewrite Hx. split_and!; [by apply (Hb Extra)| | |done].
    + by intros ?%(Hb Translated).
    + by intros ?%(Hb NotTranslated).
  - intros [Hraw Hk].
    assert (Hs : section_of (escape_keys_of E) r = NotTranslated).
    { apply section_of_not_translated; [done|]. by rewrite Hkey. }
    destruct (placed d E k r NotTranslated Hwf Hascii Hr Hs) as [Hb Hw].
    rewrite Hn. split_and!; [by apply (Hb NotTranslated)| | |done].
    + by intros ?%(Hb Extra).
    + by intros ?%(Hb Translated).
Qed.

Lemma extra_section_placement_witness :
  written (mkLocalizedString "K" (Some "Bonjour") (Some "extra note"))
    ∈ extra_output extra_translated ∅.
Proof.
  apply (extra_section_placement extra_translated ∅ "K"
           (mkLocalizedString "K" (Some "Bonjour") (Some "extra note"))).
  - by apply indexed_singleton.
  - by apply ascii_singleton.
  - by apply lookup_singleton_eq.
  - exists "extra note", [], (chars " note"). done.
  - by left.
Defined.

(** C3 as stated fails: an untranslated record whose key is not an escape
    key goes to the Not-Translated section with [extra] in its comment, and
    there is no Extra section. *)
Lemma extra_not_in_extra_section :
  extra_untranslated !! "K"
    = Some (mkLocalizedString "K" (Some "K") (Some "extra note")) ∧
  has_extra (Some "extra note") ∧
  ("K" ∉ extra_keys (buckets_of extra_untranslated ∅)) ∧
  (strings_to_file extra_untranslated ∅).2
    = Returned (header "/*Not Translated*/"
                ++ [q +:+ "K" +:+ q_eq_q +:+ "K" +:+ q_semi +:+ nl +:+ nl]).
Proof.
  split; [by apply lookup_singleton_eq|].
  split; [by exists "extra note", [], (chars " note")|].
  split; [|by vm_compute].
  apply (bool_decide_eq_false_1 _). by vm_compute.
Qed.

Lemma clear_if_in keys r : key r ∈ keys → clear_if keys r = set_comment r None.
Proof. intros H. unfold clear_if. by rewrite decide_True. Qed.

Lemma clear_if_out keys r : key r ∉ keys → clear_if keys r = r.
Proof. intros H. unfold clear_if. by rewrite decide_False. Qed.

Lemma clear_if_cleared keys r :
  clear_if keys (set_comment r None) = set_comment r None.
Proof. unfold clear_if. by case_decide. Qed.

(** The record of a key after a call that returns. *)
Lemma cleared_record d E k r s :
  indexed_by_key d → first_loop_exn d E = None → d !! k = Some r →
  section_of (escape_keys_of E) r = s →
  (strings_to_file d E).1 !! k
    = Some (if decide (s = Extra) then r else set_comment r None).
Proof.
  intros Hwf Hret Hr Hs. pose proof (Hwf _ _ Hr) as Hkey.
  destruct (placed d E k r s Hwf Hret Hr Hs) as [Hb _].
  rewrite strings_to_file_dict by done.
  rewrite !lookup_fmap, Hr. cbn [fmap option_fmap option_map]. f_equal.
  destruct s.
  - rewrite (clear_if_in (trans_keys _)); [by rewrite clear_if_cleared|].
    rewrite Hkey. by apply (Hb Translated).
  - rewrite (clear_if_out (trans_keys _)).
    + rewrite clear_if_out; [done|]. rewrite Hkey. by intros ?%(Hb NotTranslated).
    + rewrite Hkey. by intros ?%(Hb Translated).
  - rewrite (clear_if_out (trans_keys _)).
    + rewrite clear_if_in; [done|]. rewrite Hkey. by apply (Hb NotTranslated).
    + rewrite Hkey. by intros ?%(Hb Translated).
Qed.

(** C10.  [strings_to_file] changes the dictionary it is given.  It
    returns when [str] accepts every comment; after it has returned, a
    record that is not of the Extra section has lost its comment in the
    caller's dictionary and is written without it, in the Translated
    section or, when it is untranslated and its key is no escape key, in
    the Not-Translated section; the records of the Extra section, those
    whose comment holds [extra] and that are translated or have an escape
    key, are the only ones that keep their comment, and are written with
    it. *)
Theorem strings_to_file_clears_comments (d E : gmap string LocalizedString) :
  indexed_by_key d →
  (ascii_comments d → ∃ d' out, strings_to_file d E = (d', Returned out)) ∧
  ∀ d' out, strings_to_file d E = (d', Returned out) →
    dom d' = dom d ∧
    out = translated_output d E ++ extra_output d E ++ not_translated_output d E ∧
    ∀ k r, d !! k = Some r →
      (in_extra E r →
         d' !! k = Some r ∧ written r ∈ extra_output d E) ∧
      (¬ in_extra E r → d' !! k = Some (set_comment r None)) ∧
      (¬ in_extra E r → value r ≠ Some (key r) ∨ escape_key E k →
         written (set_comment r None) ∈ translated_output d E) ∧
      (value r = Some (key r) → ¬ escape_key E k →
         written (set_comment r None) ∈ not_translated_output d E).
Proof.
  intros Hwf. split.
  - intros Hret%(first_loop_returns d E).
    rewrite strings_to_file_returned by done. by eexists _, _.
  - intros d' out Hcall.
    destruct (first_loop_exn d E) as [e|] eqn:Hret;
      [by rewrite (strings_to_file_raised d E e) in Hcall|].
    destruct (outputs_returned d E Hret) as (Ht & Hx & Hn).
    assert (Hd' : d' = (strings_to_file d E).1) by by rewrite Hcall.
    assert (Hout : Returned out = (strings_to_file d E).2) by by rewrite Hcall.
    rewrite strings_to_file_output, Hret in Hout. injection Hout as ->.
    split; [|split; [done|]].
    { rewrite Hd', strings_to_file_dict by done. by rewrite !dom_fmap_L. }
    intros k r Hr. pose proof (Hwf _ _ Hr) as Hkey. rewrite Hd'.
    pose proof (fun s => cleared_record d E k r s Hwf Hret Hr) as Hrec.
    pose proof (fun s => placed d E k r s Hwf Hret Hr) as Hpl.
    split_and!.
    + intros Hs%section_of_in_extra.
      rewrite (Hrec Extra Hs), Hx. split; [done|]. by apply (Hpl Extra Hs).
    + intros Hs. rewrite (Hrec _ eq_refl). rewrite decide_False; [done|].
      by rewrite section_of_in_extra.
    + intros Hno Hc. rewrite Ht.
      assert (Hs : section_of (escape_keys_of E) r = Translated).
      { apply section_of_translated.
        - intros He. apply Hno. split; [done|]. by rewrite <- Hkey in Hc.
        - rewrite is_raw_false, elem_of_escape_keys_of. by rewrite <- Hkey in Hc. }
      by apply (Hpl Translated Hs).
    + intros Hraw Hk. rewrite Hn.
      assert (Hs : section_of (escape_keys_of E) r = NotTranslated).
      { apply section_of_not_translated; [by apply is_raw_value|].
        rewrite elem_of_escape_keys_of. by rewrite Hkey. }
      by apply (Hpl NotTranslated Hs).
Qed.

Lemma strings_to_file_clears_comments_witness :
  ∃ d' out,
    strings_to_file extra_untranslated ∅ = (d', Returned out) ∧
    d' !! "K" = Some (mkLocalizedString "K" (Some "K") None) ∧
    written (mkLocalizedString "K" (Some "K") None)
      ∈ not_translated_output extra_untranslated ∅.
Proof.
  assert (Hwf : indexed_by_key extra_untranslated) by by apply indexed_singleton.
  destruct (strings_to_file_clears_comments extra_untranslated ∅ Hwf)
    as [Hret Hafter].
  destruct Hret as (d' & out & Hcall); [by apply ascii_singleton|].
  exists d', out. split; [done|].
  destruct (Hafter d' out Hcall) as (_ & _ & Hrec).
  destruct (Hrec "K" (mkLocalizedString "K" (Some "K") (Some "extra note")))
    as (_ & Hclear & _ & Hnot); [by apply lookup_singleton_eq|].
  assert (Hno : ¬ escape_key ∅ "K").
  { intros (k' & e & He & _). by rewrite lookup_empty in He. }
  split; [|by apply Hnot].
  apply Hclear. intros [_ [Hv|He]]; [by apply Hv|done].
Defined.

(** ** The incremental updater *)

Lemma drop_last_snoc body c : drop_last (body +:+ String c "") = body.
Proof.
  unfold drop_last. rewrite chars_app. simpl.
  rewrite removelast_last. apply text_chars.
Qed.

Lemma rewritten_copied d body :
  from_line (strip (body +:+ nl)) = None → rewritten d (body +:+ nl) = [body].
Proof. intros H. unfold rewritten. rewrite H. unfold nl. by rewrite drop_last_snoc. Qed.

Lemma update_fold d content :
  ∀ keys out,
    (foldl (update_step d) (keys, out) content).2
      = out ++ mjoin (rewritten d <$> content) ∧
    ∀ k, k ∈ (foldl (update_step d) (keys, out) content).1 ↔
         k ∈ keys ∨ consumed d content k.
Proof.
  induction content as [|line content IH]; intros keys out.
  - simpl. rewrite app_nil_r. split; [done|]. intros k. split; [by left|].
    intros [?|(l & ? & Hl & _)]; [done|]. by apply elem_of_nil in Hl.
  - cbn [foldl].
    assert (∃ keys1, update_step d (keys, out) line = (keys1, out ++ rewritten d line)
      ∧ ∀ k, k ∈ keys1 ↔ k ∈ keys ∨
          ∃ cs, from_line (strip line) = Some cs ∧ key cs = k ∧ is_Some (d !! k))
      as (keys1 & -> & Hk1).
    { unfold update_step, rewritten.
      destruct (from_line (strip line)) as [cs|].
      - destruct (d !! key cs) as [ls|] eqn:Hd.
        + eexists. split; [done|]. intros k. rewrite elem_of_union, elem_of_singleton.
          split.
          * intros [->|?]; [|by left]. right. exists cs. rewrite Hd. eauto.
          * intros [?|(cs' & [= <-] & <- & _)]; [by right|by left].
        + eexists. rewrite app_nil_r. split; [done|]. intros k.
          split; [by left|]. intros [?|(cs' & [= <-] & <- & [? H])]; [done|].
          congruence.
      - eexists. split; [done|]. intros k. split; [by left|].
        intros [?|(cs' & ? & _)]; done. }
    destruct (IH keys1 (out ++ rewritten d line)) as [-> IH2].
    split.
    + rewrite fmap_cons. simpl. by rewrite app_assoc.
    + intros k. rewrite IH2, Hk1. unfold consumed. split.
      * intros [[?|(cs & Hcs & Hkey & Hd)]|(l & cs & Hl & Hcs & Hkey & Hd)].
        -- by left.
        -- right. exists line, cs. split; [left|done].
        -- right. exists l, cs. split; [by right|done].
      * intros [?|(l & cs & Hl & Hcs & Hkey & Hd)]; [by left; left|].
        apply elem_of_cons in Hl as [->|Hl].
        -- left. right. by exists cs.
        -- right. by exists l, cs.
Qed.

Lemma update_lines_eq content d :
  update_lines content d =
    mjoin (rewritten d <$> content) ++
    (if decide (sorted_new_strings d content = [])
     then [] else [""; "/* New strings */"] ++ sorted_new_strings d content).
Proof.
  unfold update_lines, sorted_new_strings.
  destruct (update_fold d content ∅ []) as [Hout _].
  destruct (foldl (update_step d) (∅, []) content) as [keys out]. simpl in *.
  subst out.
  pose proof (merge_sort_Permutation String.le (new_strings_of d keys)) as Hp.
  destruct (new_strings_of d keys) as [|x l] eqn:Hn.
  - simpl. by rewrite app_nil_r.
  - rewrite decide_True by done.
    rewrite decide_False; [done|].
    intros Hnil. rewrite Hnil in Hp. by apply Permutation_nil_cons in Hp.
Qed.

Lemma sorted_new_strings_sorted d content :
  Sorted String.le (sorted_new_strings d content).
Proof. apply (Sorted_merge_sort String.le). Qed.

Lemma elem_of_sorted_new_strings d content x :
  x ∈ sorted_new_strings d content ↔
  ∃ k r, d !! k = Some r ∧ ¬ consumed d content (key r) ∧ x = str r.
Proof.
  unfold sorted_new_strings. rewrite merge_sort_Permutation.
  destruct (update_fold d content ∅ []) as [_ Hkeys].
  unfold new_strings_of. rewrite list_elem_of_omap. split.
  - intros ([k r] & Hin%elem_of_map_to_list & Hx). simpl in Hx.
    case_decide as Hk; [done|]. injection Hx as <-.
    exists k, r. split; [done|]. split; [|done].
    intros Hc. apply Hk, Hkeys. by right.
  - intros (k & r & Hr & Hc & ->). exists (k, r).
    split; [by apply elem_of_map_to_list|]. simpl.
    rewrite decide_False; [done|].
    intros [H|H]%Hkeys; [by apply not_elem_of_empty in H|done].
Qed.

(** C4, at a file whose last line has no line end: the line is no record
    line, and it is not copied unchanged, its last character is lost. *)
Theorem update_cuts_unterminated_line :
  update_lines ["/* c */"] ∅ = ["/* c *"] ∧
  update_encoded_file_with_strings ["/* c */"] ∅ = "/* c *" +:+ nl.
Proof. split; by vm_compute. Qed.

(** ** The lines the two patterns accept *)

Section engine_classes.
Context (cl : charclass) (k : cont) (cs : captures).

Lemma star_nil pos : star cl k pos [] cs = k pos [] cs.
Proof. done. Qed.

Lemma star_stop a b pos :
  Forall (fun c => in_class cl c = true) a →
  (∀ c b', b = c :: b' → in_class cl c = false) →
  is_Some (k (pos + length a) b cs) →
  star cl k pos (a ++ b) cs = k (pos + length a) b cs.
Proof.
  revert pos; induction a as [|c a IH]; intros pos Ha Hb Hk; simpl.
  - rewrite Nat.add_0_r. destruct b as [|c b]; [done|]. simpl.
    by rewrite (Hb c b eq_refl).
  - apply Forall_cons in Ha as [-> Ha]. simpl in Hk.
    rewrite <- Nat.add_succ_comm in Hk |- *.
    rewrite IH by done. by destruct Hk as [r ->].
Qed.

Lemma star_sound_class l pos res :
  star cl k pos l cs = Some res →
  ∃ a b, l = a ++ b ∧ Forall (fun c => in_class cl c = true) a ∧
         k (pos + length a) b cs = Some res.
Proof.
  revert pos; induction l as [|c l IH]; intros pos; simpl.
  - intros H. exists [], []. simpl. by rewrite Nat.add_0_r.
  - assert (Hhere : k pos (c :: l) cs = Some res →
      ∃ a b, c :: l = a ++ b ∧ Forall (fun c => in_class cl c = true) a ∧
             k (pos + length a) b cs = Some res).
    { intros H. exists [], (c :: l). simpl. by rewrite Nat.add_0_r. }
    destruct (in_class cl c) eqn:Hc; [|done].
    destruct (star cl k (S pos) l cs) as [r|] eqn:Hs; [|done].
    intros [= ->]. destruct (IH _ Hs) as (a & b & -> & Ha & Hk).
    exists (c :: a), b. simpl. rewrite Nat.add_succ_r.
    split; [done|]. split; [by apply Forall_cons|done].
Qed.

Lemma plus_sound_class l pos res :
  rmatch (Plus cl) k pos l cs = Some res →
  ∃ a b, l = a ++ b ∧ a ≠ [] ∧ Forall (fun c => in_class cl c = true) a ∧
         k (pos + length a) b cs = Some res.
Proof.
  simpl. destruct l as [|c l]; [done|].
  destruct (in_class cl c) eqn:Hc; [|done].
  intros (a & b & -> & Ha & Hk)%star_sound_class.
  exists (c :: a), b. simpl. rewrite Nat.add_succ_r.
  split; [done|]. split; [done|]. split; [by apply Forall_cons|done].
Qed.
End engine_classes.

Lemma rmatch_star cl k pos l cs : rmatch (Star cl) k pos l cs = star cl k pos l cs.
Proof. done. Qed.

Lemma any_char_inv l :
  Forall (fun c => in_class AnyChar c = true) l → newline ∉ l.
Proof.
  intros H Hin. rewrite Forall_forall in H. apply H in Hin.
  done.
Qed.

Lemma eol_sound k pos l cs res :
  rmatch Eol k pos l cs = Some res → line_end l ∧ k pos l cs = Some res.
Proof.
  simpl. unfold at_eol, line_end.
  destruct l as [|c [|c' l]]; try done; [by auto|].
  destruct (Ascii.eqb_spec c newline) as [->|]; [by auto|done].
Qed.

Lemma space_not_word : in_class WordChar " "%char = false.
Proof. done. Qed.

(** *** [parse_comment] *)

Lemma comment_tail_match c w2 pos cs :
  c ≠ [] → newline ∉ c → Forall (fun x => in_class WordChar x = true) w2 →
  rmatch (Group "comment" (Plus AnyChar) -:- Lit " */" -:- Star WordChar -:- Eol)
         accept pos (c ++ chars " */" ++ w2) cs
    = Some (("comment", c) :: cs).
Proof.
  intros Hne Hnl Hw.
  rewrite rmatch_cat, rmatch_group.
  apply plus_greedy; [done|by apply any_char| |].
  - rewrite take_add_sub, rmatch_cat, lit_match, rmatch_cat, rmatch_star.
    rewrite <- (app_nil_r w2).
    rewrite star_stop; [done|done|done|]. by eexists.
  - intros a' b' Heq Hlen.
    destruct (rmatch _ _ _ b' _) eqn:Hm; [|done]. exfalso.
    rewrite rmatch_cat in Hm. apply lit_sound in Hm as (l' & -> & _).
    apply app_eq_app in Heq as [l [[-> Heq]|[-> Heq]]].
    { rewrite length_app in Hlen. lia. }
    destruct l as [|x l]; [rewrite length_app in Hlen; simpl in Hlen; lia|].
    simpl in Heq. injection Heq as <- Heq.
    destruct l as [|x l]; [discriminate|]. simpl in Heq. injection Heq as <- Heq.
    destruct l as [|x l]; [discriminate|]. simpl in Heq. injection Heq as <- Heq.
    rewrite Forall_forall in Hw.
    assert (Hsp : " "%char ∈ w2).
    { rewrite Heq. apply elem_of_app. right. left. }
    apply Hw in Hsp. done.
Qed.

Lemma parse_comment_matches (w1 c w2 : string) :
  word w1 → word w2 → c ≠ "" → newline ∉ chars c →
  parse_comment (w1 +:+ "/* " +:+ c +:+ " */" +:+ w2) = Some c.
Proof.
  intros Hw1 Hw2 Hc Hnl. unfold parse_comment, re_match.
  rewrite !chars_app. unfold COMMENT_EXPR.
  rewrite rmatch_cat, rmatch_bol, rmatch_cat, rmatch_star.
  assert (Hrest : rmatch (Lit "/* " -:- Group "comment" (Plus AnyChar) -:-
                          Lit " */" -:- Star WordChar -:- Eol) accept
                    (0 + length (chars w1))
                    (chars "/* " ++ chars c ++ chars " */" ++ chars w2) []
                  = Some [("comment", chars c)]).
  { rewrite rmatch_cat, lit_match. apply comment_tail_match; [|done|done].
    intros ?%chars_nil. done. }
  rewrite star_stop; [|done| |by rewrite Hrest].
  - rewrite Hrest. simpl. by rewrite text_chars.
  - intros x b' [= <- _]. done.
Qed.

(** X1.  A block comment, with word characters before and after it at
    most, is read as its text: [parse_comment] gives the text between
    [/* ] and [ */] when it is not empty and has no newline. *)
Theorem parse_comment_block (w1 c w2 : string) :
  word w1 → word w2 → c ≠ "" → newline ∉ chars c →
  parse_comment (w1 +:+ "/* " +:+ c +:+ " */" +:+ w2) = Some c.
Proof. apply parse_comment_matches. Qed.

Lemma parse_comment_block_witness :
  parse_comment "abc/* a */ b */_9" = Some "a */ b".
Proof.
  apply (parse_comment_block "abc" "a */ b" "_9").
  - unfold word. by repeat constructor.
  - unfold word. by repeat constructor.
  - discriminate.
  - by apply not_elem_of_chars.
Defined.

(** X2.  What [parse_comment] returns is never empty, has no newline, and
    stands in the line between [/* ] and [ */], with word characters
    before and after at most. *)
Theorem parse_comment_sound (line c : string) :
  parse_comment line = Some c →
  c ≠ "" ∧ (newline ∉ chars c) ∧
  ∃ w1 w2 e, chars line = w1 ++ chars "/* " ++ chars c ++ chars " */" ++ w2 ++ e
             ∧ Forall (fun x => in_class WordChar x = true) w1
             ∧ Forall (fun x => in_class WordChar x = true) w2
             ∧ line_end e.
Proof.
  unfold parse_comment, re_match.
  destruct (rmatch COMMENT_EXPR accept 0 (chars line) []) as [res|] eqn:Hm; [|done].
  unfold COMMENT_EXPR in Hm.
  rewrite rmatch_cat, rmatch_bol, rmatch_cat, rmatch_star in Hm.
  apply star_sound_class in Hm as (w1 & l1 & Hline & Hw1 & Hm).
  rewrite rmatch_cat in Hm. apply lit_sound in Hm as (l2 & -> & Hm).
  rewrite rmatch_cat, rmatch_group in Hm.
  apply plus_sound_class in Hm as (a & l3 & -> & Ha & Hany & Hm).
  rewrite take_add_sub in Hm.
  rewrite rmatch_cat in Hm. apply lit_sound in Hm as (l4 & -> & Hm).
  rewrite rmatch_cat, rmatch_star in Hm.
  apply star_sound_class in Hm as (w2 & e & -> & Hw2 & Hm).
  apply eol_sound in Hm as [He Hm]. unfold accept in Hm. injection Hm as <-.
  simpl. intros [= <-]. rewrite chars_text.
  split; [|split; [by apply any_char_inv|]].
  - intros H. apply Ha. by destruct a.
  - exists w1, w2, e. by rewrite Hline.
Qed.

Lemma parse_comment_sound_witness :
  "Testing Comments" ≠ "" ∧ (newline ∉ chars "Testing Comments") ∧
  ∃ w1 w2 e, chars "/* Testing Comments */"
               = w1 ++ chars "/* " ++ chars "Testing Comments" ++ chars " */" ++ w2 ++ e
             ∧ Forall (fun x => in_class WordChar x = true) w1
             ∧ Forall (fun x => in_class WordChar x = true) w2
             ∧ line_end e.
Proof. apply (parse_comment_sound "/* Testing Comments */"). by vm_compute. Defined.

(** *** [from_line] *)

Lemma tail_sound pos tl cs res :
  rmatch RE_tail accept pos tl cs = Some res →
  (line_end tl ∧ res = cs) ∨
  ∃ c e, tl = chars " /* " ++ c ++ chars " */" ++ e ∧ c ≠ [] ∧ (newline ∉ c) ∧
         line_end e ∧ res = ("comment", c) :: cs.
Proof.
  unfold RE_tail. rewrite rmatch_cat. intros [H|H]%opt_sound.
  - right. rewrite rmatch_cat in H. apply lit_sound in H as (l1 & -> & H).
    rewrite rmatch_cat, rmatch_group in H.
    apply plus_sound_class in H as (c & l2 & -> & Hc & Hany & H).
    rewrite take_add_sub in H. apply lit_sound in H as (e & -> & H).
    apply eol_sound in H as [He H]. injection H as <-.
    exists c, e. split; [done|]. split; [done|]. split; [by apply any_char_inv|done].
  - left. apply eol_sound in H as [He H]. by injection H as <-.
Qed.

Lemma value_sound pos l cs res :
  rmatch RE_value accept pos l cs = Some res →
  ∃ v tl pos', l = v ++ chars q_semi ++ tl ∧ v ≠ [] ∧ (newline ∉ v) ∧
               rmatch RE_tail accept pos' tl (("value", v) :: cs) = Some res.
Proof.
  unfold RE_value. rewrite rmatch_cat, rmatch_group.
  intros (v & l1 & -> & Hv & Hany & H)%plus_sound_class.
  rewrite take_add_sub, rmatch_cat in H. apply lit_sound in H as (tl & -> & H).
  exists v, tl. eexists. split; [done|]. split; [done|].
  split; [by apply any_char_inv|done].
Qed.

Lemma sep_sound_full pos l cs res :
  rmatch RE_sep accept pos l cs = Some res →
  ∃ sep v tl pos', l = chars q ++ sep ++ chars q ++ v ++ chars q_semi ++ tl ∧
                   separator sep ∧ v ≠ [] ∧ (newline ∉ v) ∧
                   rmatch RE_tail accept pos' tl (("value", v) :: cs) = Some res.
Proof.
  unfold RE_sep. rewrite rmatch_cat. intros (l1 & -> & H)%lit_sound.
  assert (Hq : ∀ pos l, rmatch (Lit q -:- RE_value) accept pos l cs = Some res →
    ∃ v tl pos', l = chars q ++ v ++ chars q_semi ++ tl ∧ v ≠ [] ∧ (newline ∉ v) ∧
                 rmatch RE_tail accept pos' tl (("value", v) :: cs) = Some res).
  { clear. intros pos l. rewrite rmatch_cat. intros (l1 & -> & H)%lit_sound.
    apply value_sound in H as (v & tl & pos' & -> & ? & ? & ?).
    by exists v, tl, pos'. }
  assert (He : ∀ pos l,
    rmatch (Lit "=" -:- Opt (Lit " ") -:- Lit q -:- RE_value) accept pos l cs
      = Some res →
    ∃ sep v tl pos', l = sep ++ chars q ++ v ++ chars q_semi ++ tl ∧
                     (sep = chars "=" ∨ sep = chars "= ") ∧ v ≠ [] ∧ (newline ∉ v) ∧
                     rmatch RE_tail accept pos' tl (("value", v) :: cs) = Some res).
  { clear -Hq. intros pos l. rewrite rmatch_cat. intros (l2 & -> & H)%lit_sound.
    rewrite rmatch_cat in H. apply opt_sound in H as [H|H].
    - apply lit_sound in H as (l3 & -> & H).
      apply Hq in H as (v & tl & pos' & -> & ? & ? & ?).
      exists (chars "= "), v, tl, pos'. auto.
    - apply Hq in H as (v & tl & pos' & -> & ? & ? & ?).
      exists (chars "="), v, tl, pos'. auto. }
  rewrite rmatch_cat in H. apply opt_sound in H as [H|H].
  - apply lit_sound in H as (l2 & -> & H).
    apply He in H as (sep & v & tl & pos' & -> & Hsep & ? & ? & ?).
    exists (chars " " ++ sep), v, tl, pos'. rewrite <- app_assoc.
    split; [done|]. split; [|done].
    unfold separator. destruct Hsep as [-> | ->]; simpl; auto.
  - apply He in H as (sep & v & tl & pos' & -> & Hsep & ? & ? & ?).
    exists sep, v, tl, pos'. split; [done|]. split; [|done].
    unfold separator. destruct Hsep as [-> | ->]; auto.
Qed.

Lemma line_sound l res :
  rmatch LOCALIZED_STRING_EXPR accept 0 l [] = Some res →
  ∃ k sep v tl pos',
    l = chars q ++ k ++ chars q ++ sep ++ chars q ++ v ++ chars q_semi ++ tl ∧
    k ≠ [] ∧ (newline ∉ k) ∧ separator sep ∧ v ≠ [] ∧ (newline ∉ v) ∧
    rmatch RE_tail accept pos' tl [("value", v); ("key", k)] = Some res.
Proof.
  change LOCALIZED_STRING_EXPR
    with (Bol -:- Lit q -:- Group "key" (Plus AnyChar) -:- RE_sep)%re.
  rewrite rmatch_cat, rmatch_bol, rmatch_cat.
  intros (l1 & -> & H)%lit_sound.
  rewrite rmatch_cat, rmatch_group in H.
  apply plus_sound_class in H as (k & l2 & -> & Hk & Hany & H).
  rewrite take_add_sub in H.
  apply sep_sound_full in H as (sep & v & tl & pos' & -> & ? & ? & ? & ?).
  exists k, sep, v, tl, pos'. split; [done|]. split; [done|].
  split; [by apply any_char_inv|done].
Qed.

Lemma text_nil l : text l = "" → l = [].
Proof. by destruct l. Qed.

Lemma from_line_shape (line : string) (r : LocalizedString) :
  from_line line = Some r →
  ∃ v sep e,
    value r = Some v ∧ key r ≠ "" ∧ v ≠ "" ∧
    (newline ∉ chars (key r)) ∧ (newline ∉ chars v) ∧
    (∀ c, comment r = Some c → c ≠ "" ∧ (newline ∉ chars c)) ∧
    separator sep ∧ line_end e ∧
    chars line = chars q ++ chars (key r) ++ chars q ++ sep ++ chars q
                 ++ chars v ++ chars q_semi ++ tail_chars (comment r) ++ e.
Proof.
  unfold from_line, re_match.
  destruct (rmatch LOCALIZED_STRING_EXPR accept 0 (chars line) []) as [res|] eqn:Hm;
    [|done].
  apply line_sound in Hm
    as (k & sep & v & tl & pos' & Hline & Hk & Hknl & Hsep & Hv & Hvnl & Ht).
  apply tail_sound in Ht as [[He ->]|(c & e & -> & Hc & Hcnl & He & ->)].
  - simpl. intros [= <-]. simpl.
    exists (text v), sep, tl. rewrite !chars_text.
    split_and!; try done; try (by intros ?%text_nil).
  - simpl. intros [= <-]. simpl.
    exists (text v), sep, e. rewrite !chars_text.
    split_and!; try done; try (by intros ?%text_nil).
    + intros ? [= <-]. rewrite chars_text. split; [by intros ?%text_nil|done].
    + by rewrite Hline, <- !app_assoc.
Qed.

(** X3.  The shape of a line [from_line] accepts, and the record it makes
    of it: key and value are not empty and have no newline, a comment is
    not empty and has no newline. *)
Theorem from_line_sound (line : string) (r : LocalizedString) :
  from_line line = Some r →
  ∃ v sep e,
    value r = Some v ∧ key r ≠ "" ∧ v ≠ "" ∧
    (newline ∉ chars (key r)) ∧ (newline ∉ chars v) ∧
    (∀ c, comment r = Some c → c ≠ "" ∧ (newline ∉ chars c)) ∧
    separator sep ∧ line_end e ∧
    chars line = chars q ++ chars (key r) ++ chars q ++ sep ++ chars q
                 ++ chars v ++ chars q_semi ++ tail_chars (comment r) ++ e.
Proof. apply from_line_shape. Qed.

Lemma from_line_sound_witness :
  ∃ v sep e,
    Some "VALUE" = Some v ∧ "KEY" ≠ "" ∧ v ≠ "" ∧
    (newline ∉ chars "KEY") ∧ (newline ∉ chars v) ∧
    (∀ c, Some "COMMENT" = Some c → c ≠ "" ∧ (newline ∉ chars c)) ∧
    separator sep ∧ line_end e ∧
    chars (q +:+ "KEY" +:+ q +:+ "=" +:+ q +:+ "VALUE" +:+ q_semi +:+ " /* COMMENT */")
      = chars q ++ chars "KEY" ++ chars q ++ sep ++ chars q
        ++ chars v ++ chars q_semi ++ tail_chars (Some "COMMENT") ++ e.
Proof.
  apply (from_line_sound
           (q +:+ "KEY" +:+ q +:+ "=" +:+ q +:+ "VALUE" +:+ q_semi +:+ " /* COMMENT */")
           (mkLocalizedString "KEY" (Some "VALUE") (Some "COMMENT"))).
  by vm_compute.
Defined.

Lemma chars_str_any k v c :
  (∀ s, c = Some s → s ≠ "") →
  chars (str (mkLocalizedString k (Some v) c))
    = chars q ++ chars k ++ chars q_eq_q ++ chars v ++ chars q_semi
      ++ tail_chars c.
Proof.
  intros Hc. unfold str. simpl comment. simpl key. simpl value. simpl or_empty.
  destruct c as [s|]; simpl truthy.
  - destruct (String.eqb_spec s "") as [->|_]; [by destruct (Hc "")|].
    simpl negb. cbv iota.
    rewrite !chars_app. simpl or_empty. unfold tail_chars.
    change (chars q_semi_open) with (chars q_semi ++ chars " /* ").
    by rewrite <- !app_assoc.
  - cbv iota. rewrite !chars_app. simpl tail_chars. by rewrite app_nil_r.
Qed.

(** X4.  Rendering the record read from a line gives the line with its
    separator spelled [ = ] and without its final newline, and so the line
    itself when it is spelled so. *)
Theorem str_from_line (line : string) (r : LocalizedString) :
  from_line line = Some r →
  ∃ sep e, separator sep ∧ line_end e ∧
    chars line = chars q ++ chars (key r) ++ chars q ++ sep ++ chars q
                 ++ chars (or_empty (value r)) ++ chars q_semi
                 ++ tail_chars (comment r) ++ e ∧
    chars (str r) = chars q ++ chars (key r) ++ chars q ++ chars " = " ++ chars q
                 ++ chars (or_empty (value r)) ++ chars q_semi
                 ++ tail_chars (comment r).
Proof.
  intros (v & sep & e & Hv & _ & _ & _ & _ & Hc & Hsep & He & Hline)%from_line_shape.
  exists sep, e. split; [done|]. split; [done|].
  rewrite Hv. simpl or_empty. split; [done|].
  destruct r as [k v' c]. simpl in *. subst v'.
  rewrite chars_str_any; [done|]. intros s Hs. by destruct (Hc s Hs).
Qed.

Lemma record_not_comment (line : string) (r : LocalizedString) :
  from_line line = Some r → parse_comment line = None.
Proof.
  intros (v & sep & e & _ & _ & _ & _ & _ & _ & _ & _ & Hline)%from_line_shape.
  unfold parse_comment, re_match. rewrite Hline. by vm_compute.
Qed.

(** X5.  No line is a comment line and a record line at once: a line
    [from_line] accepts is one [parse_comment] rejects. *)
Theorem record_line_no_comment (line : string) (r : LocalizedString) :
  from_line line = Some r → parse_comment line = None.
Proof. apply record_not_comment. Qed.

(** ** The dictionary of a strings file *)

(** *** [strip] *)

Lemma lstrip_spaces sp l :
  Forall (fun c => is_space c = true) sp → lstrip (sp ++ l) = lstrip l.
Proof.
  induction sp as [|c sp IH]; intros H; [done|].
  apply Forall_cons in H as [Hc H]. simpl. rewrite Hc. by apply IH.
Qed.

Lemma lstrip_nil sp : Forall (fun c => is_space c = true) sp → lstrip sp = [].
Proof. intros H. rewrite <- (app_nil_r sp). by rewrite lstrip_spaces. Qed.

Lemma strip_blank s : blank s → strip s = "".
Proof. intros H. unfold strip. by rewrite lstrip_nil. Qed.

Lemma strip_trimmed l sp1 sp2 :
  trimmed l →
  Forall (fun c => is_space c = true) sp1 →
  Forall (fun c => is_space c = true) sp2 →
  strip (text (sp1 ++ l ++ sp2)) = text l.
Proof.
  intros [(c & l' & -> & Hc) (c' & l'' & Hrev & Hc')] H1 H2.
  unfold strip. rewrite chars_text, lstrip_spaces by done.
  simpl lstrip at 1. rewrite Hc. unfold rstrip.
  change (c :: l' ++ sp2) with ((c :: l') ++ sp2).
  rewrite rev_app_distr, lstrip_spaces by by apply Forall_rev.
  rewrite Hrev. simpl. rewrite Hc'. rewrite <- Hrev. by rewrite rev_involutive.
Qed.

Lemma strip_trimmed_nl s :
  trimmed (chars s) → strip (s +:+ nl) = s ∧ strip s = s.
Proof.
  intros H. split.
  - pose proof (strip_trimmed (chars s) [] (chars nl) H) as Hs.
    cbn [app] in Hs. rewrite <- chars_app, !text_chars in Hs.
    apply Hs; [done|]. by repeat constructor.
  - pose proof (strip_trimmed (chars s) [] [] H) as Hs.
    cbn [app] in Hs. rewrite app_nil_r, !text_chars in Hs. by apply Hs.
Qed.

Lemma trimmed_comment_line c :
  trimmed (chars ("/* " +:+ c +:+ " */")).
Proof.
  rewrite !chars_app. split.
  - by eexists _, _.
  - rewrite !rev_app_distr. by eexists _, _.
Qed.

Lemma trimmed_str k v c :
  (∀ s, c = Some s → s ≠ "") → trimmed (chars (str (mkLocalizedString k (Some v) c))).
Proof.
  intros Hc. rewrite chars_str_any by done. split.
  - by eexists _, _.
  - destruct c as [s|]; unfold tail_chars; rewrite !rev_app_distr;
      by eexists _, _.
Qed.

(** *** The line parser *)

Lemma from_line_empty : from_line "" = None.
Proof. done. Qed.

(** What [parse_step] does on a record line. *)
Lemma parse_step_record pending d line r :
  from_line (strip line) = Some r →
  parse_step (pending, d) line =
    (pending,
     <[key r := if truthy (comment r) then r else set_comment r pending]> d).
Proof.
  intros Hr. unfold parse_step.
  destruct (String.eqb_spec (strip line) "") as [He|_].
  { rewrite He in Hr. done. }
  rewrite (record_not_comment _ _ Hr). simpl truthy. cbv iota.
  rewrite Hr. by destruct (truthy (comment r)).
Qed.

Lemma parse_step_indexed st line :
  indexed_by_key st.2 → indexed_by_key (parse_step st line).2.
Proof.
  destruct st as [pending d]. simpl. intros Hd. unfold parse_step.
  destruct (String.eqb (strip line) ""); [done|].
  destruct (truthy (parse_comment (strip line))).
  { by destruct (negb _). }
  destruct (from_line (strip line)) as [r|]; [|done]. simpl.
  set (r2 := if negb (truthy (comment r)) then set_comment r pending else r).
  intros k r'. destruct (decide (key r2 = k)) as [<-|Hne].
  - rewrite lookup_insert_eq. by intros [= <-].
  - rewrite lookup_insert_ne by done. apply Hd.
Qed.

Lemma indexed_parsed (content : list string) :
  indexed_by_key (strings_from_encoded_file content).
Proof.
  unfold strings_from_encoded_file.
  assert (H : ∀ st, indexed_by_key st.2 →
                    indexed_by_key (foldl parse_step st content).2).
  { induction content as [|line content IH]; intros st Hst; [done|].
    cbn [foldl]. by apply IH, parse_step_indexed. }
  apply H. intros k r. simpl. by rewrite lookup_empty.
Qed.

(** X6.  The dictionary the line parser returns is indexed by key: every
    record sits at its own key. *)
Theorem strings_from_encoded_file_indexed (content : list string) :
  indexed_by_key (strings_from_encoded_file content).
Proof. apply indexed_parsed. Qed.

Lemma parse_fold_origin content :
  ∀ st k r,
    (foldl parse_step st content).2 !! k = Some r →
    st.2 !! k = Some r ∨
    ∃ line r0, line ∈ content ∧ from_line (strip line) = Some r0 ∧
               key r0 = k ∧ key r = k ∧ value r = value r0 ∧
               (truthy (comment r0) = true → comment r = comment r0).
Proof.
  induction content as [|line content IH]; intros st k r; [by left|].
  cbn [foldl]. intros [H|(l & r0 & Hl & Hr0)]%IH.
  - destruct st as [pending d]. unfold parse_step in H.
    destruct (String.eqb (strip line) ""); [by left|].
    destruct (truthy (parse_comment (strip line))).
    { left. by destruct (negb _). }
    destruct (from_line (strip line)) as [r0|] eqn:Hr0; [|by left].
    simpl in H.
    set (r2 := if negb (truthy (comment r0)) then set_comment r0 pending else r0) in H.
    destruct (decide (key r2 = k)) as [Hk|Hne].
    + rewrite <- Hk, lookup_insert_eq in H. injection H as <-.
      right. exists line, r0. split; [left|]. split; [done|].
      subst r2. destruct (truthy (comment r0)); simpl in *; done.
    + rewrite lookup_insert_ne in H by done. by left.
  - right. exists l, r0. split; [by right|done].
Qed.

(** X7.  Every record the line parser returns was read from a record
    line of the file with that key and that value, and so has a key and a
    value that are not empty and hold no newline. *)
Theorem strings_from_encoded_file_origin (content : list string) (k : string)
    (r : LocalizedString) :
  strings_from_encoded_file content !! k = Some r →
  key r = k ∧ k ≠ "" ∧ (newline ∉ chars k) ∧
  (∃ v, value r = Some v ∧ v ≠ "" ∧ (newline ∉ chars v)) ∧
  ∃ line r0, line ∈ content ∧ from_line (strip line) = Some r0 ∧
             key r0 = k ∧ value r0 = value r.
Proof.
  unfold strings_from_encoded_file.
  intros [H|(line & r0 & Hl & Hr0 & Hk0 & Hk & Hv & _)]%parse_fold_origin.
  { simpl in H. by rewrite lookup_empty in H. }
  destruct (from_line_shape _ _ Hr0)
    as (v & sep & e & Hv0 & Hkne & Hvne & Hknl & Hvnl & _).
  rewrite Hk0 in Hkne, Hknl.
  split; [done|]. split; [done|]. split; [done|].
  split; [exists v; by rewrite Hv|].
  by exists line, r0.
Qed.

(** X8.  A record line puts its record at its key, whatever the file held
    for that key before, and leaves the other keys alone: the last record
    line of a key wins. *)
Theorem strings_from_encoded_file_last_wins (content : list string)
    (line : string) (r0 : LocalizedString) :
  from_line (strip line) = Some r0 →
  (∃ r, strings_from_encoded_file (content ++ [line]) !! key r0 = Some r ∧
        key r = key r0 ∧ value r = value r0 ∧
        (truthy (comment r0) = true → comment r = comment r0)) ∧
  ∀ k, k ≠ key r0 →
       strings_from_encoded_file (content ++ [line]) !! k
         = strings_from_encoded_file content !! k.
Proof.
  intros Hr0. unfold strings_from_encoded_file. rewrite foldl_app. cbn [foldl].
  destruct (foldl parse_step (None, ∅) content) as [pending d].
  rewrite (parse_step_record _ _ _ _ Hr0). simpl. split.
  - rewrite lookup_insert_eq. eexists. split; [done|].
    by destruct (truthy (comment r0)).
  - intros k Hk. by rewrite lookup_insert_ne.
Qed.

Lemma append_assoc (a b c : string) : (a +:+ b) +:+ c = a +:+ b +:+ c.
Proof. apply chars_inj. by rewrite !chars_app, app_assoc. Qed.

Lemma parse_step_comment pending d c :
  c ≠ "" → newline ∉ chars c → c ≠ sentinel →
  parse_step (pending, d) ("/* " +:+ c +:+ " */" +:+ nl) = (Some c, d).
Proof.
  intros Hc Hnl Hs. unfold parse_step.
  assert (Hstrip : strip ("/* " +:+ c +:+ " */" +:+ nl) = "/* " +:+ c +:+ " */").
  { pose proof (strip_trimmed_nl _ (trimmed_comment_line c)) as [H _].
    by rewrite !append_assoc in H. }
  rewrite Hstrip.
  pose proof (parse_comment_matches "" c "" (Forall_nil_2 _) (Forall_nil_2 _) Hc Hnl)
    as Hp.
  change ("" +:+ "/* " +:+ c +:+ " */" +:+ "") with ("/* " +:+ c +:+ " */" +:+ "") in Hp.
  replace (" */" +:+ "") with " */" in Hp by done.
  rewrite Hp. simpl truthy.
  destruct (String.eqb_spec c "") as [|_]; [done|]. simpl negb. cbv iota.
  simpl or_empty.
  destruct (String.eqb_spec c sentinel) as [|_]; [done|]. simpl negb. cbv iota.
  destruct (String.eqb_spec ("/* " +:+ c +:+ " */") "") as [He|_]; [|done].
  discriminate He.
Qed.

Lemma parse_step_blank pending d b :
  blank b → parse_step (pending, d) b = (None, d).
Proof. intros Hb. unfold parse_step. by rewrite strip_blank. Qed.

(** X9.  A comment line right before a record line gives the record its
    comment, unless the record line has an inline comment of its own. *)
Theorem comment_line_attaches (content : list string) (c line : string)
    (r0 : LocalizedString) :
  c ≠ "" → newline ∉ chars c → c ≠ sentinel →
  from_line (strip line) = Some r0 →
  strings_from_encoded_file (content ++ ["/* " +:+ c +:+ " */" +:+ nl; line])
    !! key r0
  = Some (if truthy (comment r0) then r0 else set_comment r0 (Some c)).
Proof.
  intros Hc Hnl Hs Hr0. unfold strings_from_encoded_file.
  rewrite foldl_app. cbn [foldl].
  destruct (foldl parse_step (None, ∅) content) as [pending d].
  rewrite parse_step_comment by done.
  rewrite (parse_step_record _ _ _ _ Hr0). simpl. by rewrite lookup_insert_eq.
Qed.

Lemma comment_line_attaches_witness :
  strings_from_encoded_file (["/* Title */" +:+ nl; plain_line +:+ nl]) !! "K"
    = Some (mkLocalizedString "K" (Some "V") (Some "Title")).
Proof.
  apply (comment_line_attaches [] "Title" (plain_line +:+ nl)
           (mkLocalizedString "K" (Some "V") None)).
  - discriminate.
  - by apply not_elem_of_chars.
  - discriminate.
  - by vm_compute.
Defined.

(** X10.  A blank line clears the pending comment: a record line right
    after one has no comment but its own inline comment. *)
Theorem blank_line_detaches (content : list string) (b line : string)
    (r0 : LocalizedString) :
  blank b →
  from_line (strip line) = Some r0 →
  strings_from_encoded_file (content ++ [b; line]) !! key r0
  = Some (if truthy (comment r0) then r0 else set_comment r0 None).
Proof.
  intros Hb Hr0. unfold strings_from_encoded_file.
  rewrite foldl_app. cbn [foldl].
  destruct (foldl parse_step (None, ∅) content) as [pending d].
  rewrite parse_step_blank by done.
  rewrite (parse_step_record _ _ _ _ Hr0). simpl. by rewrite lookup_insert_eq.
Qed.

Lemma blank_line_detaches_witness :
  strings_from_encoded_file (["/* Title */" +:+ nl] ++ [nl; plain_line +:+ nl]) !! "K"
    = Some (mkLocalizedString "K" (Some "V") None).
Proof.
  apply (blank_line_detaches ["/* Title */" +:+ nl] nl (plain_line +:+ nl)
           (mkLocalizedString "K" (Some "V") None)).
  - by repeat constructor.
  - by vm_compute.
Defined.

Lemma strings_from_encoded_file_origin_witness :
  key (mkLocalizedString "K" (Some "V") None) = "K" ∧ "K" ≠ "" ∧
  (newline ∉ chars "K") ∧
  (∃ v, value (mkLocalizedString "K" (Some "V") None) = Some v ∧ v ≠ "" ∧
        (newline ∉ chars v)) ∧
  ∃ line r0, line ∈ [plain_line] ∧ from_line (strip line) = Some r0 ∧
             key r0 = "K" ∧ value r0 = value (mkLocalizedString "K" (Some "V") None).
Proof. apply (strings_from_encoded_file_origin [plain_line] "K"). by vm_compute. Defined.

Lemma strings_from_encoded_file_last_wins_witness :
  (∃ r, strings_from_encoded_file ([plain_line] ++ [plain_line]) !! "K" = Some r ∧
        key r = "K" ∧ value r = Some "V" ∧
        (truthy None = true → comment r = None)) ∧
  ∀ k, k ≠ "K" →
       strings_from_encoded_file ([plain_line] ++ [plain_line]) !! k
         = strings_from_encoded_file [plain_line] !! k.
Proof.
  apply (strings_from_encoded_file_last_wins [plain_line] plain_line
           (mkLocalizedString "K" (Some "V") None)).
  by vm_compute.
Defined.

Lemma str_from_line_witness :
  ∃ sep e, separator sep ∧ line_end e ∧
    chars (q +:+ "K" +:+ q +:+ "=" +:+ q +:+ "V" +:+ q_semi)
      = chars q ++ chars "K" ++ chars q ++ sep ++ chars q
        ++ chars "V" ++ chars q_semi ++ tail_chars None ++ e ∧
    chars (str (mkLocalizedString "K" (Some "V") None))
      = chars q ++ chars "K" ++ chars q ++ chars " = " ++ chars q
        ++ chars "V" ++ chars q_semi ++ tail_chars None.
Proof.
  apply (str_from_line (q +:+ "K" +:+ q +:+ "=" +:+ q +:+ "V" +:+ q_semi)
           (mkLocalizedString "K" (Some "V") None)).
  by vm_compute.
Defined.

Lemma record_line_no_comment_witness : parse_comment plain_line = None.
Proof.
  apply (record_line_no_comment plain_line (mkLocalizedString "K" (Some "V") None)).
  by vm_compute.
Defined.

(** ** The sentinel comment in the line parser *)

Lemma parse_step_pending st line :
  st.1 ≠ Some sentinel → (parse_step st line).1 ≠ Some sentinel.
Proof.
  destruct st as [pending d]. simpl. intros Hp. unfold parse_step.
  destruct (String.eqb (strip line) ""); [done|].
  destruct (truthy (parse_comment (strip line))).
  - destruct (String.eqb_spec (or_empty (parse_comment (strip line))) sentinel)
      as [Heq|Hne]; simpl; [done|].
    intros Hc. rewrite Hc in Hne. done.
  - by destruct (from_line (strip line)).
Qed.

Lemma parse_step_other st line :
  from_line (strip line) = None → (parse_step st line).2 = st.2.
Proof.
  destruct st as [pending d]. intros Hl. unfold parse_step. rewrite Hl.
  destruct (String.eqb (strip line) ""); [done|].
  destruct (truthy (parse_comment (strip line))); [|done].
  by destruct (negb _).
Qed.

Lemma own_line_snoc content k line r0 l :
  (∀ r', from_line (strip l) = Some r' → key r' ≠ k) →
  own_line content k line r0 → own_line (content ++ [l]) k line r0.
Proof.
  intros Hl (pre & post & -> & Hr0 & Hk & Hpost).
  exists pre, (post ++ [l]). split; [by rewrite <- app_assoc|].
  split; [done|]. split; [done|].
  intros l' r' [Hin|Hin%list_elem_of_singleton]%elem_of_app;
    [by apply Hpost|subst l'; apply Hl].
Qed.

Lemma own_line_last content line r0 :
  from_line (strip line) = Some r0 → own_line (content ++ [line]) (key r0) line r0.
Proof.
  intros Hr0. exists content, []. split; [done|]. split; [done|]. split; [done|].
  by intros l r' ?%elem_of_nil.
Qed.

(** The pending comment is never the sentinel, and every record of the
    dictionary stems from the last record line of its key: it has the
    sentinel as comment exactly when that line has it inline. *)
Lemma parse_fold_sentinel content :
  (parse_state content).1 ≠ Some sentinel ∧
  ∀ k r, (parse_state content).2 !! k = Some r →
    ∃ line r0, own_line content k line r0 ∧ key r = k ∧ value r = value r0 ∧
      (comment r = Some sentinel ↔ comment r0 = Some sentinel).
Proof.
  induction content as [|line content [IHp IHd]] using rev_ind.
  { split; [done|]. intros k r. unfold parse_state. simpl. by rewrite lookup_empty. }
  unfold parse_state in *. rewrite foldl_app. cbn [foldl].
  split; [by apply parse_step_pending|].
  destruct (foldl parse_step (None, ∅) content) as [pending d]. cbn [fst snd] in *.
  destruct (from_line (strip line)) as [rl|] eqn:Hl.
  - rewrite (parse_step_record pending d line rl Hl). cbn [snd]. intros k r.
    set (r2 := if truthy (comment rl) then rl else set_comment rl pending).
    assert (Hkey2 : key r2 = key rl) by (unfold r2; by destruct (truthy _)).
    destruct (decide (key rl = k)) as [<-|Hne].
    + rewrite lookup_insert_eq. intros [= <-]. exists line, rl.
      split; [by apply own_line_last|]. split; [done|].
      unfold r2. destruct (truthy (comment rl)) eqn:Ht; [done|].
      split; [done|]. split; simpl.
      * intros Hc. by destruct IHp.
      * intros Hc. rewrite Hc in Ht. by vm_compute in Ht.
    + rewrite lookup_insert_ne by done. intros Hr.
      destruct (IHd k r Hr) as (l0 & r0 & Hown & Hrest).
      exists l0, r0. split; [|done]. apply own_line_snoc; [|done].
      intros r'. rewrite Hl. by intros [= <-].
  - rewrite (parse_step_other (pending, d) line Hl). cbn [snd]. intros k r Hr.
    destruct (IHd k r Hr) as (l0 & r0 & Hown & Hrest).
    exists l0, r0. split; [|done]. apply own_line_snoc; [|done].
    intros r'. by rewrite Hl.
Qed.

(** C5 (amended).  A sentinel on a comment line of its own never becomes
    the pending comment.  A record of [strings_from_encoded_file] stems
    from the last record line of its key, and has the sentinel as its
    comment exactly when that line has the sentinel as inline comment: the
    sentinel is never taken from a comment line, and an inline sentinel is
    kept. *)
Theorem sentinel_never_pending (content : list string) :
  (parse_state content).1 ≠ Some sentinel ∧
  ∀ k r, strings_from_encoded_file content !! k = Some r →
    ∃ line r0, own_line content k line r0 ∧ key r = k ∧ value r = value r0 ∧
      (comment r = Some sentinel ↔ comment r0 = Some sentinel).
Proof.
  destruct (parse_fold_sentinel content) as [Hp Hd].
  split; [done|]. intros k r Hr. by apply Hd.
Qed.

Lemma sentinel_never_pending_witness :
  strings_from_encoded_file [sentinel_line; plain_line] !! "K"
    = Some (mkLocalizedString "K" (Some "V") None) ∧
  (parse_state [sentinel_line; plain_line]).1 ≠ Some sentinel ∧
  ∃ line r0, own_line [sentinel_line; plain_line] "K" line r0 ∧
    key (mkLocalizedString "K" (Some "V") None) = "K" ∧
    value (mkLocalizedString "K" (Some "V") None) = value r0 ∧
    (comment (mkLocalizedString "K" (Some "V") None) = Some sentinel
     ↔ comment r0 = Some sentinel).
Proof.
  assert (H : strings_from_encoded_file [sentinel_line; plain_line] !! "K"
              = Some (mkLocalizedString "K" (Some "V") None)) by by vm_compute.
  split; [exact H|].
  destruct (sentinel_never_pending [sentinel_line; plain_line]) as [Hp Hd].
  split; [exact Hp|]. exact (Hd "K" _ H).
Defined.

(** C5 as stated fails: the sentinel written inline after a record is the
    comment of the record read. *)
Lemma inline_sentinel_kept :
  strings_from_encoded_file [inline_sentinel_line] !! "K"
    = Some (mkLocalizedString "K" (Some "V") (Some sentinel)) ∧
  comment (mkLocalizedString "K" (Some "V") (Some sentinel)) = Some sentinel.
Proof. split; by vm_compute. Qed.

(** ** The walk of the tree extractor *)

(** *** The tree walk *)

Lemma recur_element_other node acc :
  tag node ≠ "TranslationSet" →
  recur_element node acc
    = foldl (fun acc item => recur_element item acc) acc (getchildren node).
Proof.
  intros Htag. destruct node as [tg tx ch]. simpl in *.
  destruct (String.eqb_spec tg "TranslationSet") as [|_]; [done|].
  revert acc. induction ch as [|item ch IH]; intros acc; [done|]. simpl.
  by rewrite IH.
Qed.

Lemma recur_element_appends node :
  ∀ acc, ∃ new, recur_element node acc = acc ++ new ∧ Forall extracted new ∧
                recur_element node [] = new.
Proof.
  induction node as [tg tx ch IH] using Element_ind_children. intros acc.
  destruct (decide (tg = "TranslationSet")) as [->|Htag].
  - rewrite !recur_element_set by done. cbv zeta. simpl getchildren.
    destruct (accepts _ _) eqn:Hacc.
    + eexists. split; [done|]. split; [|done].
      apply accepts_clean in Hacc as (b & t & -> & -> & Hb & Ht).
      constructor; [|constructor].
      split; [done|]. split; [by exists t|done].
    + exists []. by rewrite app_nil_r.
  - rewrite !recur_element_other by done. simpl getchildren.
    clear Htag. revert acc. induction IH as [|item ch Hitem _ IHch]; intros acc.
    + exists []. by rewrite app_nil_r.
    + cbn [foldl].
      destruct (Hitem acc) as (n1 & E1 & Hn1 & H1).
      destruct (IHch (acc ++ n1)) as (n2 & E2 & Hn2 & H2).
      destruct (IHch n1) as (n2' & E3 & _ & H3).
      exists (n1 ++ n2). rewrite E1, E2, H1, E3.
      split; [by rewrite app_assoc|]. split; [by apply Forall_app|].
      congruence.
Qed.

(** X11.  The extractor only appends, what it appends does not depend on
    the list it is given, and every record it appends has a key and a value
    that are not empty and hold no double quote and no newline, and no
    comment. *)
Theorem recur_node_appends (node : option Element)
    (localized_strings : list LocalizedString) :
  recur_node node localized_strings
    = localized_strings ++ recur_node node [] ∧
  Forall extracted (recur_node node []).
Proof.
  destruct node as [n|]; simpl; [|by rewrite app_nil_r].
  destruct (recur_element_appends n localized_strings) as (new & -> & Hnew & ->).
  done.
Qed.

Lemma recur_element_extracted node : Forall extracted (recur_element node []).
Proof. by destruct (recur_element_appends node []) as (new & _ & Hnew & ->). Qed.

Lemma extracted_round_trip r : extracted r → from_line (str r) = Some r.
Proof.
  destruct r as [k v c]. intros ((Hk & _ & Hknl) & (t & Hv & Ht) & Hc).
  simpl in *. subst v c. destruct Ht as (Htne & Htdq & Htnl).
  unfold from_line, re_match. rewrite chars_str by done.
  rewrite line_match; try done.
  - simpl. by rewrite !text_chars.
  - by intros ?%chars_nil.
  - by intros ?%chars_nil.
  - intros pre post Heq. destruct Htdq. rewrite Heq.
    apply elem_of_app. right. left.
Qed.

(** X12.  Every record the extractor makes is rendered into a line that
    [from_line] reads back as that record. *)
Theorem recur_node_round_trip (node : option Element) (r : LocalizedString) :
  r ∈ recur_node node [] → from_line (str r) = Some r.
Proof.
  intros Hr. apply extracted_round_trip.
  destruct node as [n|]; simpl in Hr; [|by apply elem_of_nil in Hr].
  pose proof (recur_element_extracted n) as Hall.
  rewrite Forall_forall in Hall. by apply Hall.
Qed.

Lemma recur_node_round_trip_witness :
  from_line (str (mkLocalizedString "Hello" (Some "Bonjour") None))
    = Some (mkLocalizedString "Hello" (Some "Bonjour") None).
Proof.
  apply (recur_node_round_trip (Some sample_pair)). vm_compute. left.
Defined.

(** X13.  The records of a node that is no [TranslationSet] are the
    records of its children, in document order. *)
Theorem recur_element_children (node : Element) :
  tag node ≠ "TranslationSet" →
  recur_element node []
    = mjoin ((fun item => recur_element item []) <$> getchildren node).
Proof.
  intros Htag. rewrite recur_element_other by done.
  assert (H : ∀ acc,
    foldl (fun acc item => recur_element item acc) acc (getchildren node)
      = acc ++ mjoin ((fun item => recur_element item []) <$> getchildren node)).
  { induction (getchildren node) as [|item ch IH]; intros acc.
    - simpl. by rewrite app_nil_r.
    - cbn [foldl]. rewrite IH, fmap_cons. simpl mjoin.
      destruct (recur_element_appends item acc) as (new & -> & _ & ->).
      by rewrite app_assoc. }
  apply (H []).
Qed.

Lemma recur_element_children_witness :
  recur_element nested_sets []
    = mjoin ((fun item => recur_element item []) <$> getchildren nested_sets).
Proof. apply (recur_element_children nested_sets). discriminate. Defined.

(** X14.  A [TranslationSet] is read from the tags and the texts of its
    own children alone: what stands below them, another set included, is not
    looked at. *)
Theorem recur_element_set_shallow (node node' : Element)
    (localized_strings : list LocalizedString) :
  tag node = "TranslationSet" → tag node' = "TranslationSet" →
  (fun item => (tag item, etext item)) <$> getchildren node
    = (fun item => (tag item, etext item)) <$> getchildren node' →
  recur_element node localized_strings = recur_element node' localized_strings.
Proof.
  intros Ht Ht' Hch. rewrite !recur_element_set by done. cbv zeta.
  assert (Hct : ∀ name, child_text name (getchildren node)
                        = child_text name (getchildren node')).
  { intros name. revert Hch.
    generalize (getchildren node') as ch'.
    induction (getchildren node) as [|item ch IH]; intros [|item' ch'] Hch;
      try done.
    rewrite !fmap_cons in Hch. injection Hch as Htag Htext Hch.
    rewrite !child_text_cons, (IH _ Hch), Htag, Htext. done. }
  by rewrite !Hct.
Qed.

Lemma recur_element_set_shallow_witness :
  recur_element
    (mkElement "TranslationSet" None
       [mkElement "base" (Some "Hello") [nested_sets];
        mkElement "tran" (Some "Bonjour") []]) []
  = recur_element sample_pair [].
Proof. by apply recur_element_set_shallow. Defined.

(** *** The sets of an export *)

Lemma outer_sets_set node : tag node = "TranslationSet" → outer_sets node = [node].
Proof. intros Htag. destruct node as [tg tx ch]. simpl in *. by subst tg. Qed.

Lemma outer_sets_other node :
  tag node ≠ "TranslationSet" →
  outer_sets node = mjoin (outer_sets <$> getchildren node).
Proof.
  intros Htag. destruct node as [tg tx ch]. simpl in *.
  destruct (String.eqb_spec tg "TranslationSet") as [|_]; [done|].
  induction ch as [|item ch IH]; [done|]. simpl. by rewrite IH.
Qed.

Lemma set_records_accepts node acc :
  (let base := from_option id (Some "") (child_text "base" (getchildren node)) in
   let tran := from_option id (Some "") (child_text "tran" (getchildren node)) in
   if accepts base tran
   then acc ++ [mkLocalizedString (or_empty base) tran None]
   else acc)
  = acc ++ set_records node.
Proof.
  cbv zeta. unfold set_records.
  destruct (accepts _ _) eqn:Hacc.
  - apply accepts_clean in Hacc as (b & t & Hb & Ht & Hcb & Hct).
    destruct (child_text "base" (getchildren node)) as [[b'|]|]; simpl in Hb;
      [|done|destruct Hcb; congruence].
    destruct (child_text "tran" (getchildren node)) as [[t'|]|]; simpl in Ht;
      [|done|destruct Hct; congruence].
    injection Hb as ->. injection Ht as ->. by rewrite decide_True.
  - destruct (child_text "base" (getchildren node)) as [[b'|]|];
      try by rewrite app_nil_r.
    destruct (child_text "tran" (getchildren node)) as [[t'|]|];
      try by rewrite app_nil_r.
    case_decide as Hc; [|by rewrite app_nil_r].
    destruct Hc as [Hcb Hct]. simpl in Hacc.
    assert (accepts (Some b') (Some t') = true) as Ht; [|congruence].
    apply accepts_clean. by exists b', t'.
Qed.

Lemma recur_element_outer node :
  ∀ acc, recur_element node acc = acc ++ mjoin (set_records <$> outer_sets node).
Proof.
  induction node as [tg tx ch IH] using Element_ind_children. intros acc.
  destruct (decide (tg = "TranslationSet")) as [->|Htag].
  - rewrite recur_element_set, outer_sets_set by done.
    rewrite set_records_accepts. simpl. by rewrite app_nil_r.
  - rewrite recur_element_other, outer_sets_other by done. simpl getchildren.
    clear Htag. revert acc. induction IH as [|item ch Hitem _ IHch]; intros acc.
    + simpl. by rewrite app_nil_r.
    + cbn [foldl]. rewrite IHch, Hitem. rewrite fmap_cons. csimpl.
      by rewrite fmap_app, join_app, app_assoc.
Qed.

Lemma reached_below root c node :
  tag root ≠ "TranslationSet" → c ∈ getchildren root →
  reached c node → reached root node.
Proof.
  intros Htag Hc Hr. induction Hr as [|n c' _ IH Hn Hc'].
  - by apply (reached_child root root c); [constructor| |].
  - by apply (reached_child root n c').
Qed.

Lemma outer_sets_reached root node :
  node ∈ outer_sets root ↔ reached root node ∧ tag node = "TranslationSet".
Proof.
  split.
  - revert node. induction root as [tg tx ch IH] using Element_ind_children.
    intros node. destruct (decide (tg = "TranslationSet")) as [->|Htag].
    + rewrite outer_sets_set by done. intros ->%list_elem_of_singleton.
      split; [constructor|done].
    + rewrite outer_sets_other by done. simpl getchildren.
      intros (l & Hnode & (c & -> & Hc)%list_elem_of_fmap)%list_elem_of_join.
      rewrite Forall_forall in IH. destruct (IH c Hc node Hnode) as [Hr Ht].
      split; [|done]. by apply (reached_below _ c).
  - intros [Hr Htag].
    assert (Hsub : ∀ x, x ∈ outer_sets node → x ∈ outer_sets root).
    { clear Htag. induction Hr as [|n c _ IH Hn Hc]; [done|].
      intros x Hx. apply IH. rewrite outer_sets_other by done.
      apply list_elem_of_join. exists (outer_sets c). split; [done|].
      apply list_elem_of_fmap. by exists c. }
    apply Hsub. rewrite outer_sets_set by done. by apply list_elem_of_singleton.
Qed.

(** C6 (amended).  The extractor appends, in document order, what each
    [TranslationSet] with no [TranslationSet] above it is to give: the
    record of key [b] and value [t] when the texts [b] of its [base] child
    and [t] of its [tran] child are both present, not empty and free of
    double quotes and newlines, and nothing when they are not.  It appends
    nothing else: no other node is visited, a [TranslationSet] below a
    [TranslationSet] included. *)
Theorem recur_node_TranslationSet (root : Element)
    (localized_strings : list LocalizedString) :
  recur_node (Some root) localized_strings
    = localized_strings ++ mjoin (set_records <$> outer_sets root) ∧
  ∀ node, node ∈ outer_sets root
          ↔ reached root node ∧ tag node = "TranslationSet".
Proof.
  split; [apply recur_element_outer|]. intros node. apply outer_sets_reached.
Qed.

(** C6 as stated fails: a [TranslationSet] of the export whose texts are
    present and clean gives no record when it stands in another
    [TranslationSet]. *)
Lemma set_below_set_skipped :
  (∃ outer, outer ∈ getchildren nested_sets ∧ inner_set ∈ getchildren outer) ∧
  tag inner_set = "TranslationSet" ∧
  child_text "base" (getchildren inner_set) = Some (Some "Inner") ∧
  child_text "tran" (getchildren inner_set) = Some (Some "Dedans") ∧
  clean "Inner" ∧ clean "Dedans" ∧
  recur_node (Some nested_sets) []
    = [mkLocalizedString "Hello" (Some "Bonjour") None;
       mkLocalizedString "Bye" (Some "Salut") None].
Proof.
  split_and!; try by vm_compute.
  - eexists. split; [left|]. right. right. left.
  - split; [done|]. split; by apply not_elem_of_chars.
  - split; [done|]. split; by apply not_elem_of_chars.
Qed.

(** ** Sorting and the three sections *)

(** *** [sorted_strings_from_dict] *)

Lemma sorted_keys_sorted (d : gmap string LocalizedString) :
  StronglySorted String.le (sorted_keys d).
Proof. apply (StronglySorted_merge_sort String.le). Qed.

Lemma length_sorted_keys (d : gmap string LocalizedString) :
  length (sorted_keys d) = size d.
Proof.
  rewrite sorted_keys_perm, length_fmap. apply length_map_to_list.
Qed.

Lemma omap_lookup_keys (d : gmap string LocalizedString) (ks : list string) :
  indexed_by_key d → (∀ k, k ∈ ks → is_Some (d !! k)) →
  key <$> omap (fun k => d !! k) ks = ks.
Proof.
  intros Hwf. induction ks as [|k ks IH]; intros Hks; [done|].
  destruct (Hks k) as [r Hr]; [left|]. csimpl. rewrite Hr. csimpl.
  rewrite (Hwf _ _ Hr), IH; [done|]. intros k' Hk'. apply Hks. by right.
Qed.

Lemma keys_sorted_strings (d : gmap string LocalizedString) :
  indexed_by_key d → key <$> sorted_strings_from_dict d = sorted_keys d.
Proof.
  intros Hwf. apply omap_lookup_keys; [done|]. intros k. by apply elem_of_sorted_keys.
Qed.

(** X15.  The records of a dictionary indexed by key come out in the
    order of their keys, each one once. *)
Theorem sorted_strings_from_dict_sorted (d : gmap string LocalizedString) :
  indexed_by_key d →
  StronglySorted String.le (key <$> sorted_strings_from_dict d) ∧
  NoDup (key <$> sorted_strings_from_dict d) ∧
  length (sorted_strings_from_dict d) = size d ∧
  ∀ r, r ∈ sorted_strings_from_dict d ↔ d !! key r = Some r.
Proof.
  intros Hwf. rewrite keys_sorted_strings by done.
  split; [apply sorted_keys_sorted|]. split; [apply NoDup_sorted_keys|].
  split.
  - rewrite <- (length_fmap key), keys_sorted_strings by done.
    apply length_sorted_keys.
  - intros r. rewrite elem_of_sorted_strings. split.
    + intros [k Hk]. by rewrite (Hwf _ _ Hk).
    + intros H. by exists (key r).
Qed.

Lemma indexed_three_records : indexed_by_key three_records.
Proof.
  intros k r. unfold three_records.
  rewrite !lookup_insert_Some, lookup_singleton_Some.
  intros [[<- <-]|[_ [[<- <-]|[_ [<- <-]]]]]; done.
Qed.

Lemma sorted_strings_from_dict_sorted_witness :
  StronglySorted String.le (key <$> sorted_strings_from_dict three_records) ∧
  NoDup (key <$> sorted_strings_from_dict three_records) ∧
  length (sorted_strings_from_dict three_records) = size three_records ∧
  ∀ r, r ∈ sorted_strings_from_dict three_records ↔ three_records !! key r = Some r.
Proof. apply sorted_strings_from_dict_sorted, indexed_three_records. Defined.

(** *** The three sections *)

Lemma bucket_keys_in_dom E d s k :
  indexed_by_key d → k ∈ keys_of s (bucket_all E d).1 → k ∈ dom d.
Proof.
  intros Hwf (k' & r & Hr & Hkey & _)%bucket_all_sound.
  rewrite <- Hkey, (Hwf _ _ Hr). apply elem_of_dom. eauto.
Qed.

Lemma bucket_keys_one E d s1 s2 k :
  indexed_by_key d →
  k ∈ keys_of s1 (bucket_all E d).1 → k ∈ keys_of s2 (bucket_all E d).1 →
  s1 = s2.
Proof.
  intros Hwf (k1 & r1 & Hr1 & Hkey1 & <-)%bucket_all_sound
             (k2 & r2 & Hr2 & Hkey2 & <-)%bucket_all_sound.
  pose proof (Hwf _ _ Hr1). pose proof (Hwf _ _ Hr2).
  assert (k1 = k2) as -> by congruence. congruence.
Qed.

Lemma accented_rejected : ¬ ascii_comments accented.
Proof.
  intros H.
  assert (Hb : ascii_commentb (mkLocalizedString "K" (Some "V") (Some accent)) = true).
  { apply ascii_commentb_spec. by apply (H "K"), lookup_singleton_eq. }
  by vm_compute in Hb.
Qed.

(** X16.  In a dictionary indexed by key the three sections share no
    key.  When [str] accepts every comment the first loop ends without an
    exception and every key is in one of the sections; when [str] rejects a
    comment the call raises [UnicodeError]: nothing is written, and the
    dictionary is left as it is. *)
Theorem buckets_partition (d E : gmap string LocalizedString) :
  indexed_by_key d →
  trans_keys (buckets_of d E) ## extra_keys (buckets_of d E) ∧
  trans_keys (buckets_of d E) ## not_keys (buckets_of d E) ∧
  extra_keys (buckets_of d E) ## not_keys (buckets_of d E) ∧
  (ascii_comments d →
     first_loop_exn d E = None ∧
     trans_keys (buckets_of d E) ∪ extra_keys (buckets_of d E)
       ∪ not_keys (buckets_of d E) = dom d) ∧
  (¬ ascii_comments d → strings_to_file d E = (d, Raised UnicodeError)).
Proof.
  intros Hwf. unfold buckets_of.
  assert (Hin : ∀ s k, k ∈ keys_of s (bucket_all (escape_keys_of E) d).1 → k ∈ dom d).
  { intros s k. by apply bucket_keys_in_dom. }
  assert (Hone : ∀ s1 s2 k, s1 ≠ s2 →
            k ∈ keys_of s1 (bucket_all (escape_keys_of E) d).1 →
            k ∈ keys_of s2 (bucket_all (escape_keys_of E) d).1 → False).
  { intros s1 s2 k Hne H1 H2. apply Hne. by apply (bucket_keys_one (escape_keys_of E) d s1 s2 k). }
  split_and!.
  - intros k H1 H2. by apply (Hone Translated Extra k).
  - intros k H1 H2. by apply (Hone Translated NotTranslated k).
  - intros k H1 H2. by apply (Hone Extra NotTranslated k).
  - intros Hret%(first_loop_returns d E). split; [done|].
    apply set_eq. intros k. rewrite !elem_of_union. split.
    + intros [[H|H]|H];
        [apply (Hin Translated)|apply (Hin Extra)|apply (Hin NotTranslated)]; done.
    + intros [r Hr]%elem_of_dom.
      pose proof (fun s => bucket_all_indexed (escape_keys_of E) d s k r Hwf Hret Hr)
        as Hb.
      destruct (section_of (escape_keys_of E) r) eqn:Hs.
      * left; left. by apply (Hb Translated).
      * left; right. by apply (Hb Extra).
      * right. by apply (Hb NotTranslated).
  - intros Hd. by apply strings_to_file_raised, first_loop_raises.
Qed.

Lemma buckets_partition_witness :
  (first_loop_exn three_records ∅ = None ∧
   trans_keys (buckets_of three_records ∅) ∪ extra_keys (buckets_of three_records ∅)
     ∪ not_keys (buckets_of three_records ∅) = dom three_records) ∧
  strings_to_file accented ∅ = (accented, Raised UnicodeError).
Proof.
  split.
  - destruct (buckets_partition three_records ∅ indexed_three_records)
      as (_ & _ & _ & H & _).
    apply H. apply (first_loop_returns three_records ∅). by vm_compute.
  - destruct (buckets_partition accented ∅) as (_ & _ & _ & _ & H).
    + by apply indexed_singleton.
    + apply H, accented_rejected.
Defined.

Lemma no_extra_keys d E :
  (∀ k r, d !! k = Some r → ¬ has_extra (comment r)) →
  extra_keys (buckets_of d E) = ∅.
Proof.
  intros Hno. apply set_eq. intros k. split; [|by intros ?%not_elem_of_empty].
  intros (k' & r & Hr & _ & Hs)%(bucket_all_sound _ _ Extra).
  destruct (Hno _ _ Hr). by apply section_extra_has_extra in Hs.
Qed.

Lemma no_extra_lines d E :
  (∀ k r, d !! k = Some r → ¬ has_extra (comment r)) → extra_lines d E = [].
Proof.
  intros Hno. pose proof (no_extra_keys d E Hno) as Hx.
  unfold extra_lines, extra_section. rewrite Hx.
  rewrite decide_False; [done|]. rewrite size_empty. intros H. by apply H.
Qed.

(** X17.  When no comment of the dictionary holds [extra], and so when
    the records have no comment at all, there is no Extra section. *)
Theorem no_extra_no_section (d E : gmap string LocalizedString) :
  (∀ k r, d !! k = Some r → ¬ has_extra (comment r)) →
  extra_keys (buckets_of d E) = ∅ ∧ extra_output d E = [].
Proof.
  intros Hno. split; [by apply no_extra_keys|].
  unfold extra_output. destruct (first_loop_exn d E); [done|].
  by apply no_extra_lines.
Qed.

Lemma no_extra_no_section_witness :
  extra_keys (buckets_of {[ "K" := mkLocalizedString "K" (Some "K") None ]} ∅) = ∅ ∧
  extra_output {[ "K" := mkLocalizedString "K" (Some "K") None ]} ∅ = [].
Proof.
  apply no_extra_no_section.
  intros k r [<- <-]%lookup_singleton_Some (s & pre & post & Hs & _). done.
Defined.

(** ** The merge engine *)

(** *** [match_strings] *)

Lemma match_fold_reference (l : list (string * LocalizedString)) :
  ∀ (fin ref : gmap string LocalizedString) (k : string),
    NoDup l.*1 →
    (foldl match_step (fin, ref) l).2 !! k =
      rewritten_reference ((list_to_map l : gmap string LocalizedString) !! k)
        <$> ref !! k.
Proof.
  induction l as [|[k0 v0] l IH]; intros fin ref k Hnd.
  { simpl. by destruct (ref !! k). }
  apply NoDup_cons in Hnd as [Hk0 Hnd].
  change (foldl match_step (fin, ref) ((k0, v0) :: l))
    with (foldl match_step (match_step (fin, ref) (k0, v0)) l).
  assert (∃ fin1 ref1, match_step (fin, ref) (k0, v0) = (fin1, ref1)
    ∧ ref1 !! k0 = rewritten_reference (Some v0) <$> ref !! k0
    ∧ (∀ j, j ≠ k0 → ref1 !! j = ref !! j))
    as (fin1 & ref1 & -> & Hk & Hj).
  { unfold match_step, rewritten_reference.
    destruct (ref !! k0) as [r|] eqn:Hr; [destruct (is_raw r) eqn:Hraw|];
      eexists _, _; (split; [done|]); simpl; rewrite ?Hraw, ?lookup_insert_eq;
      (split; [done|]); intros j ?; by rewrite ?lookup_insert_ne. }
  rewrite IH by done. cbn [list_to_map foldr uncurry].
  destruct (decide (k = k0)) as [->|Hne].
  - rewrite lookup_insert_eq, Hk, (not_elem_of_list_to_map_1 l k0) by done.
    by destruct (ref !! k0).
  - rewrite lookup_insert_ne by done. by rewrite Hj.
Qed.

(** X18.  [match_strings] changes [reference_strings]: a translated reference
    record whose key was scanned has the comment of the scanned record
    afterwards; every other record is as it was. *)
Theorem match_strings_reference
    (scanned_strings reference_strings : gmap string LocalizedString) (k : string) :
  (match_strings scanned_strings reference_strings).2 !! k =
    match reference_strings !! k with
    | None => None
    | Some r =>
        match scanned_strings !! k with
        | None => Some r
        | Some s => if is_raw r then Some r else Some (set_comment r (comment s))
        end
    end.
Proof.
  unfold match_strings.
  rewrite match_fold_reference by apply NoDup_fst_map_to_list.
  rewrite list_to_map_to_list. unfold rewritten_reference.
  destruct (reference_strings !! k) as [r|]; [|done]. simpl.
  destruct (scanned_strings !! k); [|done]. by destruct (is_raw r).
Qed.

Lemma match_strings_lookup
    (scanned_strings reference_strings : gmap string LocalizedString) (k : string) :
  (match_strings scanned_strings reference_strings).1 !! k =
    matched (reference_strings !! k) <$> scanned_strings !! k.
Proof.
  unfold match_strings.
  rewrite match_fold_lookup by apply NoDup_fst_map_to_list.
  rewrite list_to_map_to_list, lookup_empty.
  by destruct (scanned_strings !! k).
Qed.

(** X19.  When both dictionaries are indexed by key, so is the result of
    [match_strings]. *)
Theorem match_strings_indexed
    (scanned_strings reference_strings : gmap string LocalizedString) :
  indexed_by_key scanned_strings → indexed_by_key reference_strings →
  indexed_by_key (match_strings scanned_strings reference_strings).1.
Proof.
  intros Hs Hr k r. rewrite match_strings_lookup.
  destruct (scanned_strings !! k) as [s|] eqn:Hsk; [|done]. simpl.
  intros [= <-]. unfold matched.
  destruct (reference_strings !! k) as [rv|] eqn:Hrk; [|by apply Hs].
  destruct (is_raw rv); [by apply Hs|]. simpl. by apply Hr.
Qed.

Lemma match_strings_indexed_witness :
  indexed_by_key (match_strings scanned_sample reference_sample).1.
Proof.
  apply match_strings_indexed.
  - by apply indexed_singleton.
  - intros k r. unfold reference_sample.
    rewrite lookup_insert_Some, lookup_singleton_Some.
    intros [[<- <-]|[_ [<- <-]]]; done.
Defined.

(** *** [merge_dictionaries] *)

Lemma merge_dictionaries_lookup (reference_dict import_dict : gmap string LocalizedString) k :
  merge_dictionaries reference_dict import_dict !! k =
    match reference_dict !! k with
    | Some r => Some r
    | None => import_dict !! k
    end.
Proof.
  unfold merge_dictionaries.
  rewrite merge_fold_lookup by apply NoDup_fst_map_to_list.
  rewrite list_to_map_to_list.
  destruct (reference_dict !! k) as [r|] eqn:Hr.
  - rewrite decide_True; [done|]. apply elem_of_dom; eauto.
  - rewrite decide_False; [by destruct (import_dict !! k)|].
    by apply not_elem_of_dom.
Qed.

(** X20.  Merging is associative and the empty dictionary is its unit on
    both sides, so the dictionaries of several folders can be merged one after
    the other, the earlier folder winning. *)
Theorem merge_dictionaries_monoid (a b c : gmap string LocalizedString) :
  merge_dictionaries (merge_dictionaries a b) c
    = merge_dictionaries a (merge_dictionaries b c) ∧
  merge_dictionaries a ∅ = a ∧ merge_dictionaries ∅ a = a ∧
  merge_dictionaries a a = a.
Proof.
  split_and!; apply map_eq; intros k; rewrite !merge_dictionaries_lookup,
    ?lookup_empty; by destruct (a !! k), (b !! k).
Qed.

(** X21.  Merging two dictionaries indexed by key gives one. *)
Theorem merge_dictionaries_indexed (a b : gmap string LocalizedString) :
  indexed_by_key a → indexed_by_key b → indexed_by_key (merge_dictionaries a b).
Proof.
  intros Ha Hb k r. rewrite merge_dictionaries_lookup.
  destruct (a !! k) eqn:Hk; [intros [= <-]; by apply Ha|apply Hb].
Qed.

Lemma merge_dictionaries_indexed_witness :
  indexed_by_key (merge_dictionaries scanned_sample reference_sample).
Proof.
  apply merge_dictionaries_indexed.
  - by apply indexed_singleton.
  - intros k r. unfold reference_sample.
    rewrite lookup_insert_Some, lookup_singleton_Some.
    intros [[<- <-]|[_ [<- <-]]]; done.
Defined.

(** ** Updating a file that is up to date *)

(** *** The incremental updater *)

Lemma consumed_dec d content (k : string) :
  consumed d content k ∨ ¬ consumed d content k.
Proof.
  destruct (update_fold d content ∅ []) as [_ Hk].
  destruct (Hk k) as [H1 H2].
  match type of H1 with ?P → _ => destruct (decide P) as [H|H] end.
  - destruct (H1 H) as [H'|H']; [by apply not_elem_of_empty in H'|by left].
  - right. intros Hc. apply H, H2. by right.
Qed.

Lemma elem_of_rewritten d content line x :
  line ∈ content → x ∈ rewritten d line → x ∈ mjoin (rewritten d <$> content).
Proof.
  intros Hl Hx. apply list_elem_of_join. exists (rewritten d line).
  split; [done|]. by apply list_elem_of_fmap_2.
Qed.

(** X22.  No record of the new dictionary is left out: each is rendered in the
    output, in place of a line of its key or among the new strings. *)
Theorem update_lines_complete (content : list string)
    (d : gmap string LocalizedString) (k : string) (r : LocalizedString) :
  indexed_by_key d → d !! k = Some r → str r ∈ update_lines content d.
Proof.
  intros Hwf Hr. rewrite update_lines_eq. apply elem_of_app.
  destruct (consumed_dec d content k) as [(line & cs & Hl & Hcs & Hk & _)|Hnc].
  - left. apply (elem_of_rewritten d content line); [done|].
    unfold rewritten. rewrite Hcs, Hk, Hr. left.
  - right.
    assert (Hin : str r ∈ sorted_new_strings d content).
    { apply elem_of_sorted_new_strings. exists k, r.
      by rewrite (Hwf _ _ Hr). }
    case_decide as Hnil; [rewrite Hnil in Hin; by apply elem_of_nil in Hin|].
    apply elem_of_app. by right.
Qed.

Lemma update_lines_complete_witness :
  str (mkLocalizedString "K" (Some "V") None)
    ∈ update_lines ["/* Greeting */" +:+ nl] settled_strings.
Proof.
  apply (update_lines_complete _ settled_strings "K").
  - by apply indexed_singleton.
  - by apply lookup_singleton_eq.
Defined.

Lemma sorted_new_strings_nil d content :
  indexed_by_key d → (∀ k, k ∈ dom d → consumed d content k) →
  sorted_new_strings d content = [].
Proof.
  intros Hwf Hall. destruct (sorted_new_strings d content) as [|x l] eqn:Hs; [done|].
  assert (Hx : x ∈ sorted_new_strings d content) by (rewrite Hs; left).
  apply elem_of_sorted_new_strings in Hx as (k & r & Hr & Hnc & _).
  destruct Hnc. apply Hall. rewrite (Hwf _ _ Hr). apply elem_of_dom. eauto.
Qed.

(** X23.  When every key of the new dictionary has a record line in the
    file, nothing is appended: the output has a line for each line of the file
    that is kept and no [/* New strings */] part. *)
Theorem update_lines_nothing_new (content : list string)
    (d : gmap string LocalizedString) :
  indexed_by_key d → (∀ k, k ∈ dom d → consumed d content k) →
  update_lines content d = mjoin (rewritten d <$> content).
Proof.
  intros Hwf Hall. rewrite update_lines_eq, sorted_new_strings_nil by done.
  by rewrite app_nil_r.
Qed.

Lemma join_lines_cons l ls :
  ls ≠ [] → join_lines (l :: ls) = l +:+ nl +:+ join_lines ls.
Proof. by destruct ls. Qed.

Lemma join_lines_text bodies :
  bodies ≠ [] →
  join_lines bodies +:+ nl = file_text ((fun b => b +:+ nl) <$> bodies).
Proof.
  induction bodies as [|b bodies IH]; [done|]. intros _.
  destruct bodies as [|b' bodies].
  - simpl. unfold file_text. simpl. apply chars_inj.
    by rewrite !chars_app, app_nil_r.
  - rewrite join_lines_cons by done. rewrite fmap_cons.
    unfold file_text in *. cbn [foldr]. rewrite <- IH by done.
    by rewrite !append_assoc.
Qed.

Lemma rewritten_up_to_date d line :
  up_to_date d line → ∃ body, line = body +:+ nl ∧ rewritten d line = [body].
Proof.
  intros (body & Hline & [Hn|(cs & r & Hcs & Hr & Hstr)]); exists body;
    (split; [done|]); unfold rewritten.
  - rewrite Hn, Hline. unfold nl. by rewrite drop_last_snoc.
  - by rewrite Hcs, Hr, Hstr.
Qed.

Lemma rewritten_all_up_to_date d content :
  Forall (up_to_date d) content →
  ∃ bodies, content = (fun b => b +:+ nl) <$> bodies ∧
            mjoin (rewritten d <$> content) = bodies.
Proof.
  induction 1 as [|line content Hline _ (bodies & -> & IH)].
  - by exists [].
  - destruct (rewritten_up_to_date d line Hline) as (body & -> & Hb).
    exists (body :: bodies). rewrite !fmap_cons. simpl. rewrite Hb, IH. done.
Qed.

(** X24.  Updating a file with the dictionary it already holds writes
    the same text back: when every line ends with a newline and is no record line
    or the rendering of the record of its key, and every key has a line. *)
Theorem update_unchanged (content : list string)
    (d : gmap string LocalizedString) :
  indexed_by_key d → content ≠ [] →
  Forall (up_to_date d) content →
  (∀ k, k ∈ dom d → consumed d content k) →
  update_encoded_file_with_strings content d = file_text content.
Proof.
  intros Hwf Hne Hall Hcons. unfold update_encoded_file_with_strings.
  rewrite update_lines_eq, sorted_new_strings_nil by done.
  rewrite decide_True by done. rewrite app_nil_r.
  destruct (rewritten_all_up_to_date d content Hall) as (bodies & -> & ->).
  apply join_lines_text. by destruct bodies.
Qed.

Lemma settled_consumed k :
  k ∈ dom settled_strings → consumed settled_strings settled_file k.
Proof.
  unfold settled_strings. rewrite dom_singleton_L. intros ->%elem_of_singleton.
  exists (plain_line +:+ nl), (mkLocalizedString "K" (Some "V") None).
  split; [right; left|]. split; [by vm_compute|]. split; [done|].
  by rewrite lookup_singleton_eq.
Qed.

Lemma update_lines_nothing_new_witness :
  update_lines settled_file settled_strings
    = mjoin (rewritten settled_strings <$> settled_file).
Proof.
  apply update_lines_nothing_new;
    [by apply indexed_singleton|apply settled_consumed].
Defined.

Lemma update_unchanged_witness :
  update_encoded_file_with_strings settled_file settled_strings
    = file_text settled_file.
Proof.
  apply update_unchanged.
  - by apply indexed_singleton.
  - discriminate.
  - repeat constructor.
    + exists "/* Greeting */". split; [done|]. left. by vm_compute.
    + exists plain_line. split; [done|]. right.
      exists (mkLocalizedString "K" (Some "V") None),
             (mkLocalizedString "K" (Some "V") None).
      split; [by vm_compute|]. split; [by apply lookup_singleton_eq|].
      by vm_compute.
    + exists "". split; [done|]. left. by vm_compute.
  - apply settled_consumed.
Defined.

(** ** Scanning a folder *)

(** *** File names *)

Lemma after_last_none c l : c ∉ l → after_last c l = None.
Proof.
  induction l as [|x l IH]; [done|]. rewrite not_elem_of_cons. intros [Hx Hl].
  simpl. rewrite IH by done. destruct (Ascii.eqb_spec x c); [congruence|done].
Qed.

Lemma after_last_app c pre post :
  c ∉ post → after_last c (pre ++ c :: post) = Some post.
Proof.
  intros Hpost. induction pre as [|x pre IH]; simpl.
  - by rewrite after_last_none, Ascii.eqb_refl.
  - by rewrite IH.
Qed.

(** X25.  The extension of a file name is what follows its last dot, and the
    whole name when it has no dot: a file called [lg] has extension [lg]. *)
Theorem extension_of_name (base ext : string) :
  "."%char ∉ chars ext →
  extension_of (base +:+ "." +:+ ext) = ext ∧ extension_of ext = ext.
Proof.
  intros Hext. unfold extension_of. split.
  - rewrite !chars_app. simpl. rewrite after_last_app by done. apply text_chars.
  - rewrite after_last_none by done. apply text_chars.
Qed.

Lemma extension_of_name_witness :
  extension_of ("archive.tar" +:+ "." +:+ "lg") = "lg" ∧ extension_of "lg" = "lg".
Proof. apply extension_of_name. by apply not_elem_of_chars. Defined.

(** *** The encodings of a translation export *)

Lemma lg_file_outcome parse log :
  (∃ root log', parse log = (Returned root, log') ∧
     strings_from_encoded_lg_file parse log
       = (Returned (recur_node (Some root) []), log')) ∨
  (∃ e log', parse log = (Raised e, log') ∧
     strings_from_encoded_lg_file parse log
       = (Raised (UnboundLocalError "root"), log' ++ ["Error parsing %s"])).
Proof.
  unfold strings_from_encoded_lg_file, bind, try_except, ret, logging_debug,
    read_local, raise.
  destruct (parse log) as [[root|e] log'] eqn:Hp; simpl.
  - left. by exists root, log'.
  - right. by exists e, log'.
Qed.

(** X26.  The second encoding is never tried and the encoding error is
    never logged: whatever the list of encodings holds after its first entry,
    [strings_from_lg_file] does what its first attempt does. *)
Theorem try_encodings_first_only (parse : M Element) (encoding : string)
    (rest : list string) (log : list string) :
  try_encodings parse (encoding :: rest) log
    = strings_from_encoded_lg_file parse log.
Proof.
  simpl.
  destruct (lg_file_outcome parse log)
    as [(root & log' & _ & ->)|(e & log' & _ & ->)]; done.
Qed.

Lemma strings_from_lg_file_outcome parse log :
  (∃ root log', parse log = (Returned root, log') ∧
     strings_from_lg_file parse log
       = (Returned (recur_node (Some root) []), log')) ∨
  (∃ e log', parse log = (Raised e, log') ∧
     strings_from_lg_file parse log
       = (Raised (UnboundLocalError "root"), log' ++ ["Error parsing %s"])).
Proof.
  unfold strings_from_lg_file, ENCODINGS. simpl.
  destruct (lg_file_outcome parse log)
    as [(root & log' & Hp & ->)|(e & log' & Hp & ->)]; [left|right]; eauto.
Qed.

(** *** The dictionary of a folder *)

Lemma index_strings_scanned d l :
  scanned_dict d → Forall extracted l → scanned_dict (index_strings d l).
Proof.
  unfold index_strings. revert d. induction l as [|r l IH]; intros d Hd Hl; [done|].
  apply Forall_cons in Hl as [Hr Hl]. cbn [foldl]. apply IH; [|done].
  destruct Hd as [Hwf Hex]. split.
  - intros k r'. destruct (decide (key r = k)) as [<-|Hne].
    + rewrite lookup_insert_eq. by intros [= <-].
    + rewrite lookup_insert_ne by done. apply Hwf.
  - intros k r'. destruct (decide (key r = k)) as [<-|Hne].
    + rewrite lookup_insert_eq. by intros [= <-].
    + rewrite lookup_insert_ne by done. apply Hex.
Qed.

Lemma scan_file_scanned parse exts dir d file_name log d' log' :
  scanned_dict d →
  scan_file parse exts dir d file_name log = (Returned d', log') →
  scanned_dict d'.
Proof.
  intros Hd. unfold scan_file. case_bool_decide; [|by intros [= <- _]].
  unfold bind, logging_debug, ret.
  destruct (strings_from_lg_file_outcome (parse (path_join dir file_name))
              (log ++ ["Found %s"]))
    as [(root & l1 & _ & ->)|(e & l1 & _ & ->)]; [|done].
  intros [= <- _]. apply index_strings_scanned; [done|].
  apply recur_element_extracted.
Qed.

Lemma for_each_invariant {A B} (P : A → Prop) (body : A → B → M A) l :
  (∀ a x log a' log', P a → body a x log = (Returned a', log') → P a') →
  ∀ a log a' log', P a → for_each body a l log = (Returned a', log') → P a'.
Proof.
  intros Hbody. induction l as [|x l IH]; intros a log a' log' Ha.
  - by intros [= <- _].
  - simpl. unfold bind. destruct (body a x log) as [[a1|e] l1] eqn:Hb; [|done].
    apply IH. by apply (Hbody a x log a1 l1).
Qed.

Lemma strings_from_folder_scanned walk extensions parse log d log' :
  strings_from_folder walk extensions parse log = (Returned d, log') →
  scanned_dict d.
Proof.
  unfold strings_from_folder, bind, logging_debug.
  apply (for_each_invariant scanned_dict).
  - intros a [[dir dns] fns] l a' l' Ha. unfold scan_directory.
    apply (for_each_invariant scanned_dict); [|done].
    intros ? ? ? ? ? ?. by apply scan_file_scanned.
  - split; intros k r; by rewrite lookup_empty.
Qed.

(** ** Writing a dictionary twice *)

(** *** Writing twice *)

Lemma sorted_keys_fmap (f : LocalizedString → LocalizedString)
    (d : gmap string LocalizedString) :
  sorted_keys (f <$> d) = sorted_keys d.
Proof.
  apply (StronglySorted_unique String.le); try apply sorted_keys_sorted.
  rewrite !sorted_keys_perm, map_to_list_fmap.
  assert (Heq : (prod_map id f <$> map_to_list d).*1 = (map_to_list d).*1).
  { rewrite <- list_fmap_compose. apply list_fmap_ext. by intros ? [??]. }
  by rewrite Heq.
Qed.

Lemma translated_lines_eq d E :
  translated_lines d E
    = omap (cleared_text (trans_keys (buckets_of d E)) d) (sorted_keys d).
Proof. unfold translated_lines, translated_section. by rewrite cleared_output. Qed.

Lemma extra_lines_eq d E :
  extra_lines d E =
    if decide (size (extra_keys (buckets_of d E)) ≠ 0) then
      header "/*Extra*/" ++
      omap (kept_text (extra_keys (buckets_of d E))
              (clear_if (trans_keys (buckets_of d E)) <$> d)) (sorted_keys d)
    else [].
Proof.
  unfold extra_lines. rewrite translated_section_dict. unfold extra_section.
  case_decide; [|done]. by rewrite write_kept_fold, sorted_keys_fmap.
Qed.

Lemma not_translated_lines_eq d E :
  not_translated_lines d E =
    if decide (size (not_keys (buckets_of d E)) ≠ 0) then
      header "/*Not Translated*/" ++
      omap (cleared_text (not_keys (buckets_of d E))
              (clear_if (trans_keys (buckets_of d E)) <$> d)) (sorted_keys d)
    else [].
Proof.
  unfold not_translated_lines.
  rewrite extra_section_dict, translated_section_dict. unfold not_translated_section.
  case_decide; [|done]. by rewrite cleared_output, sorted_keys_fmap.
Qed.

Lemma section_of_cleared E r :
  section_of E r ≠ Extra → section_of E (set_comment r None) = section_of E r.
Proof.
  unfold section_of.
  change (is_raw (set_comment r None)) with (is_raw r).
  change (key (set_comment r None)) with (key r).
  change (comment_text (comment (set_comment r None))) with "None".
  change (0 <=? find_sub "None" "extra")%Z with false.
  destruct (is_raw r); [destruct (decide _)|];
    try destruct (0 <=? find_sub (comment_text (comment r)) "extra")%Z; done.
Qed.

Section twice.
Context (d E : gmap string LocalizedString) (Hwf : indexed_by_key d)
  (Hret : first_loop_exn d E = None).

Local Abbreviation b := (buckets_of d E).
Local Abbreviation after := (after_write d E).

Lemma key_after r : key (after r) = key r.
Proof. unfold after_write, clear_if. by repeat case_decide. Qed.

Lemma after_cleared r : set_comment (after r) None = set_comment r None.
Proof. unfold after_write, clear_if. by repeat case_decide. Qed.

Lemma after_section k r :
  d !! k = Some r →
  after r = if decide (section_of (escape_keys_of E) r = Extra) then r
            else set_comment r None.
Proof.
  intros Hr. pose proof (Hwf _ _ Hr) as Hkey.
  pose proof (fun s => bucket_all_indexed (escape_keys_of E) d s k r Hwf Hret Hr)
    as Hb.
  unfold after_write, buckets_of.
  destruct (section_of (escape_keys_of E) r) eqn:Hs.
  - rewrite decide_False by done.
    rewrite (clear_if_in (trans_keys _)); [by rewrite clear_if_cleared|].
    rewrite Hkey. by apply (Hb Translated).
  - rewrite decide_True by done.
    rewrite (clear_if_out (trans_keys _)), clear_if_out; [done| |];
      rewrite Hkey; [intros H%(Hb NotTranslated)|intros H%(Hb Translated)];
      congruence.
  - rewrite decide_False by done.
    rewrite (clear_if_out (trans_keys _)).
    + rewrite clear_if_in; [done|]. rewrite Hkey. by apply (Hb NotTranslated).
    + rewrite Hkey. intros H%(Hb Translated). congruence.
Qed.

Lemma section_after k r :
  d !! k = Some r →
  section_of (escape_keys_of E) (after r) = section_of (escape_keys_of E) r.
Proof.
  intros Hr. rewrite (after_section k r Hr). case_decide; [done|].
  by apply section_of_cleared.
Qed.

Lemma comment_after r : comment (after r) = None ∨ comment (after r) = comment r.
Proof. unfold after_write, clear_if. repeat case_decide; auto. Qed.

Lemma first_loop_after : first_loop_exn (after <$> d) E = None.
Proof.
  apply first_loop_returns. intros k r' Hr'. rewrite lookup_fmap in Hr'.
  destruct (d !! k) as [r|] eqn:Hr; [|done]. injection Hr' as <-.
  destruct (comment_after r) as [->| ->]; [done|].
  by apply (proj1 (first_loop_returns d E) Hret k).
Qed.

Lemma buckets_after s : keys_of s (buckets_of (after <$> d) E) = keys_of s b.
Proof.
  apply set_eq. intros k. unfold buckets_of.
  rewrite !bucket_all_keys by (done || apply first_loop_after). split.
  - intros (k' & r' & Hr' & Hkey & Hs). rewrite lookup_fmap in Hr'.
    destruct (d !! k') as [r|] eqn:Hr; [|done]. injection Hr' as <-.
    exists k', r. rewrite key_after in Hkey.
    by rewrite (section_after k' r Hr) in Hs.
  - intros (k' & r & Hr & Hkey & Hs). exists k', (after r).
    rewrite lookup_fmap, Hr, key_after, (section_after k' r Hr). done.
Qed.

Lemma buckets_of_after : buckets_of (after <$> d) E = b.
Proof.
  pose proof (buckets_after Translated) as H1.
  pose proof (buckets_after Extra) as H2.
  pose proof (buckets_after NotTranslated) as H3.
  destruct (buckets_of (after <$> d) E), b. simpl in *. congruence.
Qed.

Lemma clear_after keys r :
  clear_if keys (after r) = if decide (key r ∈ keys) then set_comment r None
                            else after r.
Proof.
  unfold clear_if at 1. rewrite key_after, after_cleared. done.
Qed.

Lemma trans_after_fixed : clear_if (trans_keys b) <$> (after <$> d) = after <$> d.
Proof.
  apply map_eq. intros k. rewrite !lookup_fmap.
  destruct (d !! k) as [r|] eqn:Hr; [|done]. simpl. f_equal.
  rewrite clear_after. case_decide as Hk; [|done].
  unfold after_write. rewrite (clear_if_in (trans_keys b)) by done.
  by rewrite clear_if_cleared.
Qed.

Lemma not_after_fixed : clear_if (not_keys b) <$> (after <$> d) = after <$> d.
Proof.
  apply map_eq. intros k. rewrite !lookup_fmap.
  destruct (d !! k) as [r|] eqn:Hr; [|done]. simpl. f_equal.
  rewrite clear_after. case_decide as Hk; [|done].
  unfold after_write. destruct (decide (key r ∈ trans_keys b)) as [Ht|Ht].
  - rewrite (clear_if_in (trans_keys b)) by done. by rewrite clear_if_cleared.
  - rewrite (clear_if_out (trans_keys b)) by done. by rewrite clear_if_in.
Qed.

Lemma cleared_text_after keys k :
  cleared_text keys (after <$> d) k = cleared_text keys d k.
Proof.
  unfold cleared_text. rewrite lookup_fmap.
  destruct (d !! k) as [r|]; [|done]. simpl.
  by rewrite key_after, after_cleared.
Qed.

Lemma cleared_text_trans keys k :
  cleared_text keys (clear_if (trans_keys b) <$> d) k = cleared_text keys d k.
Proof.
  unfold cleared_text. rewrite lookup_fmap.
  destruct (d !! k) as [r|]; [|done]. simpl.
  unfold clear_if. by repeat case_decide.
Qed.

Lemma kept_text_after k :
  kept_text (extra_keys b) (after <$> d) k
    = kept_text (extra_keys b) (clear_if (trans_keys b) <$> d) k.
Proof.
  unfold kept_text. rewrite !lookup_fmap.
  destruct (d !! k) as [r|] eqn:Hr; [|done]. simpl.
  rewrite key_after.
  assert (Hk : key (clear_if (trans_keys b) r) = key r).
  { unfold clear_if. by case_decide. }
  rewrite Hk. case_decide as Hx; [|done]. do 2 f_equal.
  unfold after_write. apply clear_if_out. rewrite Hk.
  pose proof (Hwf _ _ Hr) as Hkey. rewrite Hkey in Hx |- *.
  pose proof (fun s => bucket_all_indexed (escape_keys_of E) d s k r Hwf Hret Hr)
    as Hb.
  apply (Hb Extra) in Hx. intros H%(Hb NotTranslated). congruence.
Qed.

Lemma strings_to_file_after :
  strings_to_file (after <$> d) E = (after <$> d, (strings_to_file d E).2).
Proof.
  rewrite !strings_to_file_returned by (done || apply first_loop_after).
  cbn [snd]. rewrite buckets_of_after.
  rewrite trans_after_fixed, not_after_fixed. do 2 f_equal.
  rewrite !translated_lines_eq, !extra_lines_eq, !not_translated_lines_eq.
  rewrite buckets_of_after.
  rewrite trans_after_fixed, !sorted_keys_fmap.
  f_equal; [|f_equal].
    + apply omap_ext_in. intros k _. apply cleared_text_after.
    + case_decide; [|done]. f_equal. apply omap_ext_in. intros k _.
      apply kept_text_after.
    + case_decide; [|done]. f_equal. apply omap_ext_in. intros k _.
      by rewrite cleared_text_after, cleared_text_trans.
Qed.
End twice.

(** X27.  Writing the dictionary a second time writes the same text and
    changes nothing more: the dictionary [strings_to_file] leaves is one it
    leaves as it is. *)
Theorem strings_to_file_twice (d E : gmap string LocalizedString) :
  indexed_by_key d →
  strings_to_file (strings_to_file d E).1 E = strings_to_file d E.
Proof.
  intros Hwf. destruct (first_loop_exn d E) as [e|] eqn:Hret.
  { pose proof (strings_to_file_raised d E e Hret) as Hcall.
    rewrite Hcall at 1. cbn [fst]. by rewrite Hcall. }
  pose proof (strings_to_file_after d E Hwf Hret) as H.
  pose proof (strings_to_file_dict d E Hret) as Hd.
  rewrite <- map_fmap_compose in Hd.
  change (clear_if (not_keys (buckets_of d E)) ∘ clear_if (trans_keys (buckets_of d E)))
    with (after_write d E) in Hd.
  rewrite <- Hd in H. rewrite H.
  symmetry. apply surjective_pairing.
Qed.

Lemma strings_to_file_twice_witness :
  strings_to_file (strings_to_file three_records ∅).1 ∅
    = strings_to_file three_records ∅.
Proof. apply strings_to_file_twice, indexed_three_records. Defined.

(** ** Reading a file, and from the folder to the file *)

(** *** [strings_from_file] *)

Lemma try_file_encodings_settled read encodings log :
  settled_outcome (try_file_encodings read encodings log).1.
Proof.
  revert log. induction encodings as [|enc rest IH]; intros log.
  - simpl. intros k r. by rewrite lookup_empty.
  - simpl. unfold bind, ret.
    destruct (read enc log) as [[content|e] log'].
    + simpl. apply indexed_parsed.
    + destruct e; simpl; try done; apply IH.
Qed.

(** X28.  [strings_from_file] never raises [UnicodeError], and the dictionary
    it returns is indexed by key, whatever the file holds in whatever
    encoding. *)
Theorem strings_from_file_settled (read : string → M (list string))
    (log : list string) :
  match (strings_from_file read log).1 with
  | Returned d => indexed_by_key d
  | Raised e => e ≠ UnicodeError
  end.
Proof. apply try_file_encodings_settled. Qed.

(** *** A folder with a file that does not parse *)

Lemma for_each_raises {A B} (body : A → B → M A) (e : exn) (l : list B) (x : B) :
  x ∈ l →
  (∀ a log, ∃ log', body a x log = (Raised e, log')) →
  (∀ a y log, (∃ a' log', body a y log = (Returned a', log')) ∨
              (∃ log', body a y log = (Raised e, log'))) →
  ∀ a log, ∃ log', for_each body a l log = (Raised e, log').
Proof.
  intros Hx Hbad Hall. induction l as [|y l IH]; intros a log.
  { by apply elem_of_nil in Hx. }
  simpl. unfold bind.
  destruct (Hall a y log) as [(a' & log' & Hy)|(log' & ->)]; [|by eexists].
  rewrite Hy. apply elem_of_cons in Hx as [->|Hx].
  - destruct (Hbad a log) as [l' Hb]. congruence.
  - by apply IH.
Qed.

Lemma for_each_outcomes {A B} (body : A → B → M A) (e : exn) (l : list B) :
  (∀ a y log, (∃ a' log', body a y log = (Returned a', log')) ∨
              (∃ log', body a y log = (Raised e, log'))) →
  ∀ a log, (∃ a' log', for_each body a l log = (Returned a', log')) ∨
           (∃ log', for_each body a l log = (Raised e, log')).
Proof.
  intros Hall. induction l as [|y l IH]; intros a log.
  { left. by eexists _, _. }
  simpl. unfold bind.
  destruct (Hall a y log) as [(a' & log' & ->)|(log' & ->)];
    [apply IH|right; by eexists].
Qed.

Lemma scan_file_outcomes parse exts dir d file_name log :
  (∃ d' log', scan_file parse exts dir d file_name log = (Returned d', log')) ∨
  (∃ log', scan_file parse exts dir d file_name log
             = (Raised (UnboundLocalError "root"), log')).
Proof.
  unfold scan_file. case_bool_decide; [|left; by eexists _, _].
  unfold bind, logging_debug, ret.
  destruct (strings_from_lg_file_outcome (parse (path_join dir file_name))
              (log ++ ["Found %s"]))
    as [(root & l1 & _ & ->)|(e & l1 & _ & ->)];
    [left; by eexists _, _|right; by eexists].
Qed.

Lemma scan_file_raises parse exts dir d file_name log :
  extension_of file_name ∈ exts →
  (∀ l, ∃ e l', parse (path_join dir file_name) l = (Raised e, l')) →
  ∃ log', scan_file parse exts dir d file_name log
            = (Raised (UnboundLocalError "root"), log').
Proof.
  intros Hext Hbad. unfold scan_file. rewrite bool_decide_eq_true_2 by done.
  unfold bind, logging_debug, ret.
  destruct (strings_from_lg_file_outcome (parse (path_join dir file_name))
              (log ++ ["Found %s"]))
    as [(root & l1 & Hp & _)|(e & l1 & _ & ->)]; [|by eexists].
  destruct (Hbad (log ++ ["Found %s"])) as (e & l' & He). congruence.
Qed.

(** X29.  One file that does not parse stops the scan of the folder: when a
    file with one of the extensions raises in [parse], so does
    [strings_from_folder], with [UnboundLocalError], whatever the other
    files hold. *)
Theorem strings_from_folder_aborts
    (walk : list (string * list string * list string))
    (extensions : option (list string)) (parse : string → M Element)
    (log : list string) (dir_path file_name : string)
    (dir_names file_names : list string) :
  (dir_path, dir_names, file_names) ∈ walk →
  file_name ∈ file_names →
  extension_of file_name ∈ from_option id ["lg"] extensions →
  (∀ l, ∃ e l', parse (path_join dir_path file_name) l = (Raised e, l')) →
  ∃ log', strings_from_folder walk extensions parse log
            = (Raised (UnboundLocalError "root"), log').
Proof.
  intros Hentry Hfile Hext Hbad.
  unfold strings_from_folder, bind, logging_debug.
  apply (for_each_raises _ _ walk (dir_path, dir_names, file_names)); [done| |].
  - intros d l. unfold scan_directory.
    apply (for_each_raises _ _ file_names file_name); [done| |].
    + intros d' l'. by apply scan_file_raises.
    + intros d' y l'. apply scan_file_outcomes.
  - intros d [[dir dns] fns] l. unfold scan_directory.
    apply for_each_outcomes. intros d' y l'. apply scan_file_outcomes.
Qed.

Lemma strings_from_folder_aborts_witness :
  ∃ log', strings_from_folder sample_walk None broken_parse []
            = (Raised (UnboundLocalError "root"), log').
Proof.
  apply (strings_from_folder_aborts sample_walk None broken_parse []
           "res/sub" "lg" [] ["lg"]).
  - right. left.
  - left.
  - left.
  - intros l. by exists ParseError, l.
Defined.

(** *** From the folder to the file *)

Lemma extracted_no_extra r : extracted r → ¬ has_extra (comment r).
Proof. intros (_ & _ & Hc) (s & pre & post & Hs & _). congruence. Qed.

(** X30.  The dictionary of a folder is indexed by key, what is written
    from it has no Extra section, and every record of it is rendered into
    a line that [from_line] reads back as the record. *)
Theorem folder_to_file (walk : list (string * list string * list string))
    (extensions : option (list string)) (parse : string → M Element)
    (log : list string) (d E : gmap string LocalizedString) (log' : list string) :
  strings_from_folder walk extensions parse log = (Returned d, log') →
  indexed_by_key d ∧ extra_output d E = [] ∧
  ∀ k r, d !! k = Some r → from_line (str r) = Some r.
Proof.
  intros [Hwf Hex]%strings_from_folder_scanned. split; [done|]. split.
  - unfold extra_output. destruct (first_loop_exn d E); [done|].
    apply no_extra_lines. intros k r Hr. by apply extracted_no_extra, (Hex k).
  - intros k r Hr. by apply extracted_round_trip, (Hex k).
Qed.

Lemma folder_to_file_witness :
  indexed_by_key
    (<["Bye" := mkLocalizedString "Bye" (Some "Salut") None]>
       {[ "Hello" := mkLocalizedString "Hello" (Some "Bonjour") None ]}) ∧
  extra_output
    (<["Bye" := mkLocalizedString "Bye" (Some "Salut") None]>
       {[ "Hello" := mkLocalizedString "Hello" (Some "Bonjour") None ]}) ∅ = [] ∧
  ∀ k r,
    (<["Bye" := mkLocalizedString "Bye" (Some "Salut") None]>
       {[ "Hello" := mkLocalizedString "Hello" (Some "Bonjour") None ]}
     : gmap string LocalizedString) !! k = Some r →
    from_line (str r) = Some r.
Proof.
  apply (folder_to_file sample_walk None sample_parse []
           _ ∅ ["Scanning for language files in %s"; "Found %s"; "Found %s"]).
  by vm_compute.
Defined.
